(** * LED-Tunnel: the sequence engine of [LEDTunnel.ino]

    A shallow embedding of the final sketch of the repository (the second
    sketch in [src/LEDTunnel.ino]): the three LED sequences [S_RingChase],
    [S_Twinkle] and [S_TraceChase], the global LED array and the scheduler
    in [loop].  The older sketches of the repository follow it: the first
    sketch in [src/LEDTunnel.ino] in the module [Earlier], and
    [src/HalloweenLights.ino] in the module [Halloween].

    Conventions.
    - An Arduino [int] is a [Z].  The engine keeps every [int] far inside the
      16-bit range (see [run_ints_in_range]), so no wrap-around is written
      out for them; [uint8_t] channels are [Z]s reduced with [u8] where the
      source converts to [uint8_t].
    - A C array is a [list] accessed with [array_get] and [array_set].
    - The global [leds] array and the state of [random()] form [Globals];
      every method takes and returns the object it is called on together
      with the globals.
    - [stores] and [calls] are ghost histories (newest first): the stores
      made to [leds] and the virtual calls made by [loop]. *)

From stdpp Require Import base numbers list.

Open Scope Z_scope.

(** ** Colours *)

(** FastLED's [CHSV] and [CRGB]: three [uint8_t] channels each. *)
Record CHSV := mkCHSV { hue : Z; sat : Z; val : Z }.
Record CRGB := mkCRGB { red : Z; green : Z; blue : Z }.

(** Conversion of an [int] to [uint8_t]. *)
Definition u8 (x : Z) : Z := x `mod` 256.

(** The constructor [CHSV(uint8_t ih, uint8_t is, uint8_t iv)]. *)
Definition CHSV_of (ih isat ival : Z) : CHSV :=
  mkCHSV (u8 ih) (u8 isat) (u8 ival).

Definition byte_range (x : Z) : Prop := 0 ≤ x ≤ 255.

Definition wf_CHSV (c : CHSV) : Prop :=
  byte_range (hue c) ∧ byte_range (sat c) ∧ byte_range (val c).

Definition wf_CRGB (c : CRGB) : Prop :=
  byte_range (red c) ∧ byte_range (green c) ∧ byte_range (blue c).

(** Channel-wise comparison of two RGB colours. *)
Definition CRGB_le (c d : CRGB) : Prop :=
  red c ≤ red d ∧ green c ≤ green d ∧ blue c ≤ blue d.

(** ** What the sketch takes from outside

    The FastLED library, the Arduino core and the memory layout are not part
    of the repository.  The embedding is parametric in what cannot be read
    off the sketch. *)
Class Platform := {
  (** FastLED's HSV to RGB conversion, used by every [leds[k] = chsv]. *)
  hsv2rgb_rainbow : CHSV → Z * Z * Z;
  (** FastLED's build option of the same name: [scale8] multiplies by
      [scale + 1] when set and by [scale] when not. *)
  FASTLED_SCALE8_FIXED : bool;
  (** The successive results of avr-libc's [random()], which are
      non-negative. *)
  random_raw : nat → N;
  (** The three bytes stored right after [S_RING_CHASE_COLORS]. *)
  past_S_RING_CHASE_COLORS : Z * Z * Z
}.

Section Sketch.
Context `{Platform}.

(** The assignment of a [CHSV] to a [CRGB]: the conversion, stored in
    [uint8_t] channels. *)
Definition CRGB_of_CHSV (c : CHSV) : CRGB :=
  let '(r, g, b) := hsv2rgb_rainbow c in mkCRGB (u8 r) (u8 g) (u8 b).

(** Modelled from the spec: FastLED's [scale8] (lib8tion), which is not
    under src/.  "Proportional attenuation": the channel is multiplied by
    the scale, as a fraction of 256. *)
Definition scale8 (i scale : Z) : Z :=
  if FASTLED_SCALE8_FIXED then (i * (1 + scale)) ≫ 8 else (i * scale) ≫ 8.

(** Modelled from the spec: FastLED's [CRGB::nscale8(uint8_t scaledown)],
    which is not under src/: [scale8] on each channel. *)
Definition nscale8 (scaledown : Z) (c : CRGB) : CRGB :=
  mkCRGB (scale8 (red c) (u8 scaledown)) (scale8 (green c) (u8 scaledown))
         (scale8 (blue c) (u8 scaledown)).

(** ** Arrays and loops *)

(** [a[k]]; reading outside the array gives [d]. *)
Definition array_get {A} (d : A) (k : Z) (a : list A) : A :=
  if bool_decide (0 ≤ k) then default d (a !! Z.to_nat k) else d.

(** [a[k] = x].  A store outside the array is undefined in C++; the model
    leaves the array as it is there, and logs the index of every store to
    [leds], so that the stores can be shown to stay inside. *)
Definition array_set {A} (k : Z) (x : A) (a : list A) : list A :=
  if bool_decide (0 ≤ k) then <[Z.to_nat k := x]> a else a.

(** [for (int i = 0; i < n; i++) body], as a state transformer. *)
Fixpoint for_upto {St} (n : nat) (body : Z → St → St) (s : St) : St :=
  match n with
  | O => s
  | S n' => body (Z.of_nat n') (for_upto n' body s)
  end.

(** [for (int i = lo; i < lo + n; i++) body]. *)
Definition for_from {St} (lo : Z) (n : nat) (body : Z → St → St) : St → St :=
  for_upto n (λ i, body (lo + i)).

(** ** CONFIG *)

Definition NUM_STRIPS : Z := 8.
Definition NUM_STRIP_LEDS : Z := 150.
Definition ZIG_ZAG : bool := true.
Definition SEQUENCE_DURATION : Z := 300.
Definition WRAPUP_WARNING_OFFSET : Z := 20.

Definition S_RING_CHASE_NUM_PULSE_COLORS : Z := 3.
Definition S_RING_CHASE_COLORS : list CHSV :=
  [CHSV_of 190 255 255; CHSV_of 30 255 255; CHSV_of 96 255 255].
Definition S_RING_CHASE_PULSE_FREQUENCY : Z := 45.
Definition S_RING_CHASE_FALLOF_RATE : Z := 8.
Definition S_RING_CHASE_RING_SHIFT_FREQUENCY : Z := 2.

Definition S_TWINKLE_NUM_COLORS : Z := 1.
(** Declared with [S_RING_CHASE_NUM_PULSE_COLORS] = 3 elements and one
    initialiser; the other two are default-constructed. *)
Definition S_TWINKLE_COLORS : list CHSV :=
  [CHSV_of 190 255 255; mkCHSV 0 0 0; mkCHSV 0 0 0].
Definition S_TWINKLE_FREQUENCY : Z := 2.
Definition S_TWINKLE_FALLOFF_RATE : Z := 10.
Definition S_TWINKLE_BRIGHTNESS_VARIANCE : Z := 100.

Definition S_TRACE_CHASE_NUM_COLORS : Z := 3.
Definition S_TRACE_CHASE_COLORS : list CHSV :=
  [CHSV_of 190 255 255; CHSV_of 30 255 255; CHSV_of 96 255 255].
Definition S_TRACE_FALLOFF_RATE : Z := 25.
Definition S_TRACE_SPEED : Z := 3.
Definition S_TRACE_OFFSET : Z := 15.

(** ** Globals *)

(** A store to [leds]: an assignment [leds[k] = chsv] or an in-place
    [leds[k].nscale8(scale)]. *)
Inductive Store :=
  | Assigned (k : Z) (c : CHSV)
  | Scaled (k : Z) (scale : Z).

Definition store_index (s : Store) : Z :=
  match s with Assigned k _ => k | Scaled k _ => k end.

Record Globals := mkGlobals {
  (** [CRGB leds[NUM_STRIP_LEDS * NUM_STRIPS]] *)
  leds : list CRGB;
  (** how many results of [random()] have been consumed *)
  drawn : nat;
  (** ghost: the stores made to [leds], newest first *)
  stores : list Store
}.

(** [GetStrip]: the index of the beginning of a strip. *)
Definition GetStrip (stripIndex : Z) : Z := stripIndex * NUM_STRIP_LEDS.

(** [leds[k] = c] *)
Definition leds_assign (k : Z) (c : CHSV) (g : Globals) : Globals :=
  mkGlobals (array_set k (CRGB_of_CHSV c) (leds g)) (drawn g)
            (Assigned k c :: stores g).

(** [leds[k].nscale8(scale)] *)
Definition leds_nscale8 (k : Z) (scale : Z) (g : Globals) : Globals :=
  mkGlobals
    (array_set k (nscale8 scale (array_get (mkCRGB 0 0 0) k (leds g))) (leds g))
    (drawn g) (Scaled k scale :: stores g).

(** The loop that ends [S_Twinkle::Update] and [S_TraceChase::Update]:
    [for (i = 0; i < NUM_STRIPS * NUM_STRIP_LEDS; i++) leds[i].nscale8(scale)]. *)
Definition fade_loop (scale : Z) (g : Globals) : Globals :=
  for_upto (Z.to_nat (NUM_STRIPS * NUM_STRIP_LEDS))
           (λ i g, leds_nscale8 i scale g) g.

(** avr-libc's [random()]: the next raw result. *)
Definition random_next (g : Globals) : Z * Globals :=
  (Z.of_N (random_raw (drawn g)), mkGlobals (leds g) (S (drawn g)) (stores g)).

(** Modelled from the spec: [long random(long howbig)] of the Arduino core
    (WMath.cpp), which is not under src/.  "Random selections are bounded by
    construction": a raw result reduced below [howbig]. *)
Definition random (howbig : Z) (g : Globals) : Z * Globals :=
  if howbig =? 0 then (0, g)
  else let '(r, g) := random_next g in (r `rem` howbig, g).

(** Modelled from the spec: [long random(long howsmall, long howbig)] of
    the Arduino core (WMath.cpp), which is not under src/: a value from
    [howsmall] up to, and not including, [howbig]. *)
Definition random_between (howsmall howbig : Z) (g : Globals) : Z * Globals :=
  if howsmall >=? howbig then (howsmall, g)
  else let diff := howbig - howsmall in
       let '(r, g) := random diff g in (r + howsmall, g).

(** The interface [LEDSequence]. *)
Class LEDSequence (T : Type) := {
  Update : T → Globals → T * Globals;
  Init : T → Globals → T * Globals;
  WrapUp : T → Globals → T * Globals
}.

(** ** S_RingChase *)

Record S_RingChase := mkRingChase {
  rings : list CHSV;
  pulseTimer : Z;
  pulseRingShiftTimer : Z;
  pulseRingIndex : Z;
  pulseColorIndex : Z
}.

(** [S_RING_CHASE_COLORS[k]]; past the end of the array the read returns
    the bytes that lie there. *)
Definition S_RING_CHASE_COLORS_at (k : Z) : CHSV :=
  array_get (let '(a, b, c) := past_S_RING_CHASE_COLORS in CHSV_of a b c)
            k S_RING_CHASE_COLORS.

(** The constructor: the member initialisers, then the loop of the body. *)
Definition S_RingChase_new : S_RingChase :=
  let pulseColorIndex := S_RING_CHASE_NUM_PULSE_COLORS in
  mkRingChase
    (for_upto (Z.to_nat NUM_STRIPS)
       (λ i rings, array_set i (S_RING_CHASE_COLORS_at pulseColorIndex) rings)
       (replicate (Z.to_nat NUM_STRIPS) (mkCHSV 0 0 0)))
    0 0 0 pulseColorIndex.

Definition S_RingChase_Init (rc : S_RingChase) (g : Globals)
  : S_RingChase * Globals :=
  (mkRingChase (rings rc) 0 0 0 S_RING_CHASE_NUM_PULSE_COLORS, g).

Definition S_RingChase_WrapUp (rc : S_RingChase) (g : Globals)
  : S_RingChase * Globals :=
  (mkRingChase (rings rc) 9999 (pulseRingShiftTimer rc) (pulseRingIndex rc)
               (pulseColorIndex rc), g).

(** The palette index of the next pulse:
    [pulseColorIndex + 1 >= S_RING_CHASE_NUM_PULSE_COLORS ? 0 : pulseColorIndex + 1] *)
Definition next_pulse_color (ci : Z) : Z :=
  if ci + 1 >=? S_RING_CHASE_NUM_PULSE_COLORS then 0 else ci + 1.

(** "is it time to start another pulse chain?", then [pulseTimer--] *)
Definition ring_pulse (rc : S_RingChase) : S_RingChase :=
  let rc :=
    if pulseTimer rc <=? 0 then
      let ci := next_pulse_color (pulseColorIndex rc) in
      mkRingChase (array_set 0 (S_RING_CHASE_COLORS_at ci) (rings rc))
                  S_RING_CHASE_PULSE_FREQUENCY
                  S_RING_CHASE_RING_SHIFT_FREQUENCY
                  1 ci
    else rc in
  mkRingChase (rings rc) (pulseTimer rc - 1) (pulseRingShiftTimer rc)
              (pulseRingIndex rc) (pulseColorIndex rc).

(** "are we actively pulsing down the tunnel?", then
    [pulseRingShiftTimer--] *)
Definition ring_shift (rc : S_RingChase) : S_RingChase :=
  let rc :=
    if (pulseRingShiftTimer rc <=? 0) && (pulseRingIndex rc <? NUM_STRIPS) then
      mkRingChase
        (array_set (pulseRingIndex rc)
                   (S_RING_CHASE_COLORS_at (pulseColorIndex rc)) (rings rc))
        (pulseTimer rc) S_RING_CHASE_RING_SHIFT_FREQUENCY
        (pulseRingIndex rc + 1) (pulseColorIndex rc)
    else rc in
  mkRingChase (rings rc) (pulseTimer rc) (pulseRingShiftTimer rc - 1)
              (pulseRingIndex rc) (pulseColorIndex rc).

(** The value channel after one tick of falloff:
    [v - RATE < 0 ? 0 : v - RATE], computed on [int]. *)
Definition falloff_value (v : Z) : Z :=
  if v - S_RING_CHASE_FALLOF_RATE <? 0 then 0
  else v - S_RING_CHASE_FALLOF_RATE.

Definition ring_falloff_one (c : CHSV) : CHSV :=
  CHSV_of (hue c) (sat c) (falloff_value (val c)).

(** "apply constant falloff on entire strip" *)
Definition ring_falloff (rc : S_RingChase) : S_RingChase :=
  mkRingChase
    (for_upto (Z.to_nat NUM_STRIPS)
       (λ i rings,
          array_set i (ring_falloff_one (array_get (mkCHSV 0 0 0) i rings)) rings)
       (rings rc))
    (pulseTimer rc) (pulseRingShiftTimer rc) (pulseRingIndex rc)
    (pulseColorIndex rc).

(** "set actual leds to ring states" *)
Definition ring_render (rc : S_RingChase) (g : Globals) : Globals :=
  for_upto (Z.to_nat NUM_STRIPS)
    (λ i, for_upto (Z.to_nat NUM_STRIP_LEDS)
       (λ j, leds_assign (GetStrip i + j) (array_get (mkCHSV 0 0 0) i (rings rc))))
    g.

(** What [Update] does to the object: the two timers, then the falloff. *)
Definition ring_tick (rc : S_RingChase) : S_RingChase :=
  ring_falloff (ring_shift (ring_pulse rc)).

Definition S_RingChase_Update (rc : S_RingChase) (g : Globals)
  : S_RingChase * Globals :=
  let rc := ring_tick rc in
  (rc, ring_render rc g).

#[export] Instance RingChase_LEDSequence : LEDSequence S_RingChase := {
  Update := S_RingChase_Update;
  Init := S_RingChase_Init;
  WrapUp := S_RingChase_WrapUp
}.

(** ** S_Twinkle *)

Record S_Twinkle := mkTwinkle { twinkleTimer : Z }.

(** No constructor is written: the member initialiser only. *)
Definition S_Twinkle_new : S_Twinkle := mkTwinkle 0.

Definition S_Twinkle_Init (tw : S_Twinkle) (g : Globals) : S_Twinkle * Globals :=
  (tw, g).

Definition S_Twinkle_WrapUp (tw : S_Twinkle) (g : Globals)
  : S_Twinkle * Globals :=
  (tw, g).

(** The position, the brightness and the colour drawn by a twinkle, in the
    order of the three calls of [random]. *)
Definition twinkle_draw (g : Globals) : (Z * CHSV) * Globals :=
  let '(pos, g) := random_between 1 (NUM_STRIPS * NUM_STRIP_LEDS - 2) g in
  let '(brightness, g) :=
    random_between (255 - S_TWINKLE_BRIGHTNESS_VARIANCE) 255 g in
  let '(ci, g) := random S_TWINKLE_NUM_COLORS g in
  let color := array_get (mkCHSV 0 0 0) ci S_TWINKLE_COLORS in
  ((pos, CHSV_of (hue color) (sat color) brightness), g).

(** "is it time to twinkle?", then [twinkleTimer--] *)
Definition twinkle_spark (tw : S_Twinkle) (g : Globals) : S_Twinkle * Globals :=
  let '(tw, g) :=
    if twinkleTimer tw <=? 0 then
      let '((pos, c), g) := twinkle_draw g in
      (mkTwinkle S_TWINKLE_FREQUENCY, leds_assign pos c g)
    else (tw, g) in
  (mkTwinkle (twinkleTimer tw - 1), g).

Definition S_Twinkle_Update (tw : S_Twinkle) (g : Globals)
  : S_Twinkle * Globals :=
  let s := twinkle_spark tw g in
  (s.1, fade_loop (255 - S_TWINKLE_FALLOFF_RATE) s.2).

#[export] Instance Twinkle_LEDSequence : LEDSequence S_Twinkle := {
  Update := S_Twinkle_Update;
  Init := S_Twinkle_Init;
  WrapUp := S_Twinkle_WrapUp
}.

(** ** S_TraceChase *)

Record S_TraceChase := mkTraceChase {
  traces : list Z;
  traceColorIndex : Z
}.

(** No constructor is written; [new S_TraceChase()] value-initialises the
    object, so [traces] starts zeroed. *)
Definition S_TraceChase_new : S_TraceChase :=
  mkTraceChase (replicate (Z.to_nat NUM_STRIPS) 0) 0.

(** [S_TRACE_CHASE_COLORS[k]] *)
Definition S_TRACE_CHASE_COLORS_at (k : Z) : CHSV :=
  array_get (mkCHSV 0 0 0) k S_TRACE_CHASE_COLORS.

Definition S_TraceChase_Init (tc : S_TraceChase) (g : Globals)
  : S_TraceChase * Globals :=
  let traces := array_set 0 0 (traces tc) in
  let traces :=
    if ZIG_ZAG then
      for_from 1 (Z.to_nat (NUM_STRIPS - 1))
        (λ i traces,
           if i `rem` 2 =? 1
           then array_set i (NUM_STRIP_LEDS - i * S_TRACE_OFFSET) traces
           else array_set i (i * S_TRACE_OFFSET) traces)
        traces
    else
      for_from 1 (Z.to_nat (NUM_STRIPS - 1))
        (λ i traces, array_set i (i * S_TRACE_OFFSET) traces)
        traces in
  (mkTraceChase traces (traceColorIndex tc), g).

Definition S_TraceChase_WrapUp (tc : S_TraceChase) (g : Globals)
  : S_TraceChase * Globals :=
  (tc, g).

(** [traces[i]--] and the wrap to the last LED of the strip. *)
Definition wrap_backward (t : Z) : Z :=
  let t := t - 1 in
  if t <? 0 then NUM_STRIP_LEDS - 1 else t.

(** [traces[i]++] and the wrap to the first LED of the strip. *)
Definition wrap_forward (t : Z) : Z :=
  let t := t + 1 in
  if t >? NUM_STRIP_LEDS - 1 then 0 else t.

(** The body of the loops over [j]: strip [i] moves one LED, and the LED it
    reaches is stored to. *)
Definition trace_step (move : Z → Z) (i : Z) (s : S_TraceChase * Globals)
  : S_TraceChase * Globals :=
  let '(tc, g) := s in
  let t := move (array_get 0 i (traces tc)) in
  (mkTraceChase (array_set i t (traces tc)) (traceColorIndex tc),
   leds_assign (GetStrip i + t) (S_TRACE_CHASE_COLORS_at (traceColorIndex tc)) g).

(** [traceColorIndex++] and the wrap to the first colour. *)
Definition next_color (ci : Z) : Z :=
  let ci := ci + 1 in
  if ci >? S_TRACE_CHASE_NUM_COLORS - 1 then 0 else ci.

(** The body of the loop over the strips: [S_TRACE_SPEED] steps, then the
    advance of the colour index. *)
Definition trace_strip (i : Z) (s : S_TraceChase * Globals)
  : S_TraceChase * Globals :=
  let s :=
    if ZIG_ZAG then
      if i `rem` 2 =? 1
      then (* "odd strips should iterate backwards" *)
        for_upto (Z.to_nat S_TRACE_SPEED) (λ _, trace_step wrap_backward i) s
      else for_upto (Z.to_nat S_TRACE_SPEED) (λ _, trace_step wrap_forward i) s
    else for_upto (Z.to_nat S_TRACE_SPEED) (λ _, trace_step wrap_forward i) s in
  let '(tc, g) := s in
  (mkTraceChase (traces tc) (next_color (traceColorIndex tc)), g).

(** The loop over the strips of [S_TraceChase::Update]. *)
Definition trace_advance (tc : S_TraceChase) (g : Globals)
  : S_TraceChase * Globals :=
  for_upto (Z.to_nat NUM_STRIPS) trace_strip (tc, g).

Definition S_TraceChase_Update (tc : S_TraceChase) (g : Globals)
  : S_TraceChase * Globals :=
  let s := trace_advance tc g in
  (* "always apply the same color on the same strip" *)
  let tc := mkTraceChase (traces s.1) 0 in
  (tc, fade_loop (255 - S_TRACE_FALLOFF_RATE) s.2).

#[export] Instance TraceChase_LEDSequence : LEDSequence S_TraceChase := {
  Update := S_TraceChase_Update;
  Init := S_TraceChase_Init;
  WrapUp := S_TraceChase_WrapUp
}.

(** [fadeAll] *)
Definition fadeAll (g : Globals) : Globals :=
  for_upto (Z.to_nat (NUM_STRIPS * NUM_STRIP_LEDS))
           (λ i g, leds_nscale8 i (255 - S_TRACE_FALLOFF_RATE) g) g.

(** ** The scheduler *)

Definition NUM_SEQUENCES : Z := 3.

(** A virtual call made through [Sequences[k]]. *)
Inductive Call :=
  | Called_Init (k : Z)
  | Called_WrapUp (k : Z)
  | Called_Update (k : Z).

Record Engine := mkEngine {
  globals : Globals;
  (** [Sequences[0]], [Sequences[1]], [Sequences[2]] *)
  ringChase : S_RingChase;
  twinkle : S_Twinkle;
  traceChase : S_TraceChase;
  sequenceTimer : Z;
  ledSequence : Z;
  (** ghost: the calls made through [Sequences], newest first *)
  calls : list Call
}.

(** [Sequences[k]->m()], for a method [m] of [LEDSequence]. *)
Definition dispatch
    (m : ∀ T, LEDSequence T → T → Globals → T * Globals)
    (k : Z) (e : Engine) : Engine :=
  match k with
  | 0 =>
      let r := m _ _ (ringChase e) (globals e) in
      mkEngine r.2 r.1 (twinkle e) (traceChase e)
               (sequenceTimer e) (ledSequence e) (calls e)
  | 1 =>
      let r := m _ _ (twinkle e) (globals e) in
      mkEngine r.2 (ringChase e) r.1 (traceChase e)
               (sequenceTimer e) (ledSequence e) (calls e)
  | 2 =>
      let r := m _ _ (traceChase e) (globals e) in
      mkEngine r.2 (ringChase e) (twinkle e) r.1
               (sequenceTimer e) (ledSequence e) (calls e)
  | _ => e
  end.

Definition record_call (c : Call) (e : Engine) : Engine :=
  mkEngine (globals e) (ringChase e) (twinkle e) (traceChase e)
           (sequenceTimer e) (ledSequence e) (c :: calls e).

Definition call_Init (k : Z) (e : Engine) : Engine :=
  dispatch (@Init) k (record_call (Called_Init k) e).

Definition call_WrapUp (k : Z) (e : Engine) : Engine :=
  dispatch (@WrapUp) k (record_call (Called_WrapUp k) e).

Definition call_Update (k : Z) (e : Engine) : Engine :=
  dispatch (@Update) k (record_call (Called_Update k) e).

Definition set_sequenceTimer (t : Z) (e : Engine) : Engine :=
  mkEngine (globals e) (ringChase e) (twinkle e) (traceChase e)
           t (ledSequence e) (calls e).

Definition set_ledSequence (k : Z) (e : Engine) : Engine :=
  mkEngine (globals e) (ringChase e) (twinkle e) (traceChase e)
           (sequenceTimer e) k (calls e).

(** The program before [setup]: the static initialisers. *)
Definition power_on : Engine :=
  mkEngine
    (mkGlobals (replicate (Z.to_nat (NUM_STRIP_LEDS * NUM_STRIPS)) (mkCRGB 0 0 0))
               0%nat [])
    S_RingChase_new S_Twinkle_new S_TraceChase_new
    SEQUENCE_DURATION 0 [].

(** [FastLED.clear()]: every LED black. *)
Definition FastLED_clear (g : Globals) : Globals :=
  mkGlobals (replicate (length (leds g)) (mkCRGB 0 0 0)) (drawn g) (stores g).

Definition setup (e : Engine) : Engine :=
  let e := mkEngine (FastLED_clear (globals e)) (ringChase e) (twinkle e)
                    (traceChase e) (sequenceTimer e) (ledSequence e) (calls e) in
  call_Init (ledSequence e) e.

Definition loop (e : Engine) : Engine :=
  let e := set_sequenceTimer (sequenceTimer e - 1) e in
  let e :=
    if sequenceTimer e =? WRAPUP_WARNING_OFFSET
    then call_WrapUp (ledSequence e) e
    else e in
  let e :=
    if sequenceTimer e <? 0 then
      let k := ledSequence e + 1 in
      let k := if k >? NUM_SEQUENCES - 1 then 0 else k in
      let e := set_ledSequence k e in
      let e := call_Init (ledSequence e) e in
      set_sequenceTimer SEQUENCE_DURATION e
    else e in
  call_Update (ledSequence e) e.

(** The engine after [setup] and [n] passes of [loop]. *)
Definition run (n : nat) : Engine := Nat.iter n loop (setup power_on).

End Sketch.

(** A platform to evaluate the sketch on: the conversion keeps the value
    channel only, [random()] counts in steps of 7919, and three zero bytes
    follow the palette. *)
Definition bench : Platform := {|
  hsv2rgb_rainbow c := (val c, val c, val c);
  FASTLED_SCALE8_FIXED := true;
  random_raw n := (7919 * N.of_nat n + 4242)%N;
  past_S_RING_CHASE_COLORS := (0, 0, 0)
|}.

(** [n] successive calls of [Update] on one sequence. *)
Definition ticks `{LEDSequence T} (n : nat) (s : T * Globals) : T * Globals :=
  Nat.iter n (λ s, Update s.1 s.2) s.

(** The stores that [g'] has and [g] had not. *)
Definition new_stores (g g' : Globals) : list Store :=
  take (length (stores g') - length (stores g)) (stores g').

(** A store is in range when its index is one of [leds]. *)
Definition in_range (s : Store) : Prop :=
  0 ≤ store_index s < NUM_STRIPS * NUM_STRIP_LEDS.

(** The colour array has its declared size and holds bytes. *)
Definition leds_ok (g : Globals) : Prop :=
  length (leds g) = Z.to_nat (NUM_STRIPS * NUM_STRIP_LEDS) ∧
  Forall wf_CRGB (leds g).

Definition RingChase_ok (rc : S_RingChase) : Prop :=
  length (rings rc) = Z.to_nat NUM_STRIPS ∧ Forall wf_CHSV (rings rc).

(** Every trace is a position on its strip. *)
Definition TraceChase_ok (tc : S_TraceChase) : Prop :=
  length (traces tc) = Z.to_nat NUM_STRIPS ∧
  Forall (λ t, 0 ≤ t < NUM_STRIP_LEDS) (traces tc).

(** [g'] has the stores of [g] and, before them, stores that satisfy [P]. *)
Definition grows (P : Store → Prop) (g g' : Globals) : Prop :=
  ∃ l, stores g' = l ++ stores g ∧ Forall P l.

(** The assignments among some stores, as pairs of an index and a colour. *)
Definition assignments (l : list Store) : list (Z * CHSV) :=
  omap (λ s, match s with Assigned k c => Some (k, c) | Scaled _ _ => None end) l.

(** A store made by the fading loop. *)
Definition faded (s : Store) : Prop :=
  in_range s ∧ match s with Assigned _ _ => False | Scaled _ _ => True end.

(** A store made by [ring_render]: an assignment, in range, of a colour
    that holds bytes. *)
Definition painted (s : Store) : Prop :=
  in_range s ∧ match s with Assigned _ c => wf_CHSV c | Scaled _ _ => False end.

(** The move of strip [i]: "odd strips should iterate backwards". *)
Definition moves (i : Z) : Z → Z :=
  if ZIG_ZAG then if i `rem` 2 =? 1 then wrap_backward else wrap_forward
  else wrap_forward.

(** The position of strip [i] after one [Update]: [S_TRACE_SPEED] moves. *)
Definition advance (i : Z) (t : Z) : Z :=
  Nat.iter (Z.to_nat S_TRACE_SPEED) (moves i) t.

(** A store made by the loop over the strips: an assignment, in range, of
    the palette entry that the strip of the LED has. *)
Definition traced (s : Store) : Prop :=
  in_range s ∧
  match s with
  | Assigned k c => c = S_TRACE_CHASE_COLORS_at ((k / NUM_STRIP_LEDS) `mod` 3)
  | Scaled _ _ => False
  end.

(** The direction of a strip, as a signed step. *)
Definition heading (i : Z) : Z := if i `rem` 2 =? 1 then -1 else 1.

(** A store that puts bytes in the array. *)
Definition bytes (s : Store) : Prop :=
  match s with Assigned _ c => wf_CHSV c | Scaled _ _ => True end.

(** What holds of the engine between two passes of [loop]. *)
Definition engine_inv (e : Engine) : Prop :=
  leds_ok (globals e) ∧
  RingChase_ok (ringChase e) ∧
  TraceChase_ok (traceChase e) ∧
  traceColorIndex (traceChase e) = 0 ∧
  0 ≤ ledSequence e < NUM_SEQUENCES ∧
  Forall in_range (stores (globals e)).

(** A 16-bit [int] of the board. *)
Definition int_range (x : Z) : Prop := -32768 ≤ x ≤ 32767.

(** Bounds on the [int]s of the scheduler, of S_RingChase and of S_Twinkle
    between two passes of [loop]; those of S_TraceChase are in
    [engine_inv]. *)
Definition ints_ok (e : Engine) : Prop :=
  0 ≤ sequenceTimer e ≤ SEQUENCE_DURATION ∧
  0 ≤ ledSequence e < NUM_SEQUENCES ∧
  0 ≤ pulseTimer (ringChase e) ≤ 9999 ∧
  - (SEQUENCE_DURATION + 1) ≤ pulseRingShiftTimer (ringChase e) ≤
    S_RING_CHASE_RING_SHIFT_FREQUENCY ∧
  (ledSequence e = 0 →
   sequenceTimer e - (SEQUENCE_DURATION + 1) ≤ pulseRingShiftTimer (ringChase e)) ∧
  0 ≤ pulseRingIndex (ringChase e) ≤ NUM_STRIPS ∧
  0 ≤ pulseColorIndex (ringChase e) ≤ S_RING_CHASE_NUM_PULSE_COLORS ∧
  0 ≤ twinkleTimer (twinkle e) ≤ S_TWINKLE_FREQUENCY.

(** The LEDs that strip [j], at position [t], passes over in one [Update]. *)
Definition passed (j : nat) (t : Z) : list (Z * CHSV) :=
  let m := moves (Z.of_nat j) in
  let c := S_TRACE_CHASE_COLORS_at (Z.of_nat j `mod` 3) in
  [(GetStrip (Z.of_nat j) + m t, c);
   (GetStrip (Z.of_nat j) + m (m t), c);
   (GetStrip (Z.of_nat j) + m (m (m t)), c)].

(** * The first sketch of [LEDTunnel.ino]

    [src/LEDTunnel.ino] holds an earlier state of the program before the
    final one: the three sequences with [Update] only, S_Twinkle with a
    bright centre and two dimmer neighbours, S_TraceChase with a constructor
    and all strips forwards, and a [loop] that calls [Update] on the
    sequence chosen at build time.  What it shares with the final sketch
    (the geometry, the palettes, the globals, the ring logic) is taken from
    above. *)
Module Earlier.
Section Sketch.
Context `{Platform}.

(** CONFIG: the constants that differ from the final sketch. *)
Definition S_RING_CHASE_PULSE_FREQUENCY : Z := 30.
Definition S_TWINKLE_FREQUENCY : Z := 3.
Definition S_TRACE_FALLOFF_RATE : Z := 40.

(** ** S_RingChase *)

(** "is it time to start another pulse chain?", then [pulseTimer--] *)
Definition ring_pulse (rc : S_RingChase) : S_RingChase :=
  let rc :=
    if pulseTimer rc <=? 0 then
      let ci := next_pulse_color (pulseColorIndex rc) in
      mkRingChase (array_set 0 (S_RING_CHASE_COLORS_at ci) (rings rc))
                  S_RING_CHASE_PULSE_FREQUENCY
                  S_RING_CHASE_RING_SHIFT_FREQUENCY
                  1 ci
    else rc in
  mkRingChase (rings rc) (pulseTimer rc - 1) (pulseRingShiftTimer rc)
              (pulseRingIndex rc) (pulseColorIndex rc).

Definition ring_tick (rc : S_RingChase) : S_RingChase :=
  ring_falloff (ring_shift (ring_pulse rc)).

Definition S_RingChase_Update (rc : S_RingChase) (g : Globals)
  : S_RingChase * Globals :=
  let rc := ring_tick rc in
  (rc, ring_render rc g).

(** ** S_Twinkle *)

(** The body of "is it time to twinkle?": three calls of [random], then the
    stores. *)
Definition twinkle_light (g : Globals) : Globals :=
  let '(pos, g) := random_between 1 (NUM_STRIPS * NUM_STRIP_LEDS - 2) g in
  let '(brightness, g) :=
    random_between (400 - S_TWINKLE_BRIGHTNESS_VARIANCE) 400 g in
  let '(ci, g) := random S_TWINKLE_NUM_COLORS g in
  let color := array_get (mkCHSV 0 0 0) ci S_TWINKLE_COLORS in
  if brightness >? 255 then
    let g := leds_assign (pos + 1)
               (CHSV_of (hue color) (sat color) (brightness - 255)) g in
    let g := leds_assign (pos - 1)
               (CHSV_of (hue color) (sat color) (brightness - 255)) g in
    leds_assign pos color g
  else
    leds_assign pos (CHSV_of (hue color) (sat color) brightness) g.

(** "is it time to twinkle?", then [twinkleTimer--] *)
Definition twinkle_spark (tw : S_Twinkle) (g : Globals) : S_Twinkle * Globals :=
  let s :=
    if twinkleTimer tw <=? 0
    then (mkTwinkle S_TWINKLE_FREQUENCY, twinkle_light g)
    else (tw, g) in
  (mkTwinkle (twinkleTimer s.1 - 1), s.2).

Definition S_Twinkle_Update (tw : S_Twinkle) (g : Globals)
  : S_Twinkle * Globals :=
  let s := twinkle_spark tw g in
  (s.1, fade_loop (255 - S_TWINKLE_FALLOFF_RATE) s.2).

(** ** S_TraceChase *)

(** The constructor: [traces[0] = 0], then each trace [S_TRACE_OFFSET]
    after the one before. *)
Definition S_TraceChase_new : S_TraceChase :=
  let traces := array_set 0 0 (replicate (Z.to_nat NUM_STRIPS) 0) in
  let traces :=
    for_from 1 (Z.to_nat (NUM_STRIPS - 1))
      (λ i traces,
         array_set i (array_get 0 (i - 1) traces + S_TRACE_OFFSET) traces)
      traces in
  mkTraceChase traces 0.

(** The body of the loop over the strips: [S_TRACE_SPEED] steps forwards,
    then the advance of the colour index. *)
Definition trace_strip (i : Z) (s : S_TraceChase * Globals)
  : S_TraceChase * Globals :=
  let s := for_upto (Z.to_nat S_TRACE_SPEED) (λ _, trace_step wrap_forward i) s in
  (mkTraceChase (traces s.1) (next_color (traceColorIndex s.1)), s.2).

Definition trace_advance (tc : S_TraceChase) (g : Globals)
  : S_TraceChase * Globals :=
  for_upto (Z.to_nat NUM_STRIPS) trace_strip (tc, g).

Definition S_TraceChase_Update (tc : S_TraceChase) (g : Globals)
  : S_TraceChase * Globals :=
  let s := trace_advance tc g in
  (* "always apply the same color on the same strip" *)
  let tc := mkTraceChase (traces s.1) 0 in
  (tc, fade_loop (255 - S_TRACE_FALLOFF_RATE) s.2).

(** ** The program *)

Record Program := mkProgram {
  globals : Globals;
  (** [Sequences[0]], [Sequences[1]], [Sequences[2]] *)
  ringChase : S_RingChase;
  twinkle : S_Twinkle;
  traceChase : S_TraceChase;
  (** [byte ledSequence = 2], which nothing assigns *)
  ledSequence : Z
}.

(** The program before [setup]: the static initialisers. *)
Definition power_on : Program :=
  mkProgram
    (mkGlobals (replicate (Z.to_nat (NUM_STRIP_LEDS * NUM_STRIPS)) (mkCRGB 0 0 0))
               0%nat [])
    S_RingChase_new S_Twinkle_new S_TraceChase_new 2.

Definition setup (p : Program) : Program :=
  mkProgram (FastLED_clear (globals p)) (ringChase p) (twinkle p)
            (traceChase p) (ledSequence p).

(** [Sequences[ledSequence]->Update()] *)
Definition loop (p : Program) : Program :=
  match ledSequence p with
  | 0 =>
      let r := S_RingChase_Update (ringChase p) (globals p) in
      mkProgram r.2 r.1 (twinkle p) (traceChase p) (ledSequence p)
  | 1 =>
      let r := S_Twinkle_Update (twinkle p) (globals p) in
      mkProgram r.2 (ringChase p) r.1 (traceChase p) (ledSequence p)
  | 2 =>
      let r := S_TraceChase_Update (traceChase p) (globals p) in
      mkProgram r.2 (ringChase p) (twinkle p) r.1 (ledSequence p)
  | _ => p
  end.

(** The program after [setup] and [n] passes of [loop]. *)
Definition run (n : nat) : Program := Nat.iter n loop (setup power_on).

End Sketch.
End Earlier.

(** [n] successive calls of [Update] of the S_TraceChase of the first
    sketch. *)
Definition Earlier_TraceChase_ticks `{Platform} (n : nat)
    (s : S_TraceChase * Globals) : S_TraceChase * Globals :=
  Nat.iter n (λ s, Earlier.S_TraceChase_Update s.1 s.2) s.

(** * The sketch [HalloweenLights.ino]

    [src/HalloweenLights.ino] holds two states of an older sketch, which
    differ in the names of the constants only: a tunnel of 8 strips of 10
    LEDs, one sequence, S_RingChase, that works on a [CHSV] staging buffer
    with one entry per LED, and a [loop] that updates the sequence and
    copies the buffer to [leds].  The names are those of the second state. *)
Module Halloween.
Section Sketch.
Context `{Platform}.

(** CONFIG; NUM_STRIPS and the palette are as in [LEDTunnel.ino]. *)
Definition NUM_STRIP_LEDS : Z := 10.
Definition S_RING_CHASE_PULSE_FREQUENCY : Z := 400.
Definition S_RING_CHASE_FALLOF_RATE : Z := 1.
Definition S_RING_CHASE_RING_SHIFT_FREQUENCY : Z := 17.

Record Globals := mkGlobals {
  (** [CRGB leds[NUM_STRIP_LEDS * NUM_STRIPS]] *)
  leds : list CRGB;
  (** [CHSV buffer[NUM_STRIP_LEDS * NUM_STRIPS]] *)
  buffer : list CHSV;
  (** ghost: the indices of the stores made to [buffer], newest first *)
  stores : list Z
}.

(** [GetStrip]: the index of the beginning of a strip. *)
Definition GetStrip (stripIndex : Z) : Z := stripIndex * NUM_STRIP_LEDS.

(** [buffer[k] = c] *)
Definition buffer_assign (k : Z) (c : CHSV) (g : Globals) : Globals :=
  mkGlobals (leds g) (array_set k c (buffer g)) (k :: stores g).

Record S_RingChase := mkRingChase {
  pulseTimer : Z;
  pulseRingShiftTimer : Z;
  pulseRingIndex : Z;
  pulseColorIndex : Z
}.

(** No constructor is written: the member initialisers. *)
Definition S_RingChase_new : S_RingChase := mkRingChase 0 0 0 0.

(** The value channel after one tick of falloff:
    [v - RATE < 0 ? 0 : v - RATE], computed on [int]. *)
Definition falloff_value (v : Z) : Z :=
  if v - S_RING_CHASE_FALLOF_RATE <? 0 then 0
  else v - S_RING_CHASE_FALLOF_RATE.

Definition falloff_one (c : CHSV) : CHSV :=
  CHSV_of (hue c) (sat c) (falloff_value (val c)).

(** "apply constant falloff on entire strip" *)
Definition ring_falloff (g : Globals) : Globals :=
  for_upto (Z.to_nat (NUM_STRIP_LEDS * NUM_STRIPS))
    (λ i g, buffer_assign i (falloff_one (array_get (mkCHSV 0 0 0) i (buffer g))) g)
    g.

(** The loops over the LEDs of one ring:
    [for (i = 0; i < NUM_STRIP_LEDS; i++) buffer[first + i] = c]. *)
Definition ring_paint (first : Z) (c : CHSV) (g : Globals) : Globals :=
  for_upto (Z.to_nat NUM_STRIP_LEDS) (λ i, buffer_assign (first + i) c) g.

(** "are we actively pulsing down the tunnel?", then
    [pulseRingShiftTimer--].  The palette is read with
    [S_RING_CHASE_COLORS_at]; [pulseColorIndex] is shown below to stay
    inside the palette. *)
Definition ring_shift (s : S_RingChase * Globals) : S_RingChase * Globals :=
  let s :=
    if (pulseRingShiftTimer s.1 <=? 0) && (pulseRingIndex s.1 <? NUM_STRIPS) then
      (mkRingChase (pulseTimer s.1) S_RING_CHASE_RING_SHIFT_FREQUENCY
                   (pulseRingIndex s.1 + 1) (pulseColorIndex s.1),
       ring_paint (GetStrip (pulseRingIndex s.1))
                  (S_RING_CHASE_COLORS_at (pulseColorIndex s.1)) s.2)
    else s in
  (mkRingChase (pulseTimer s.1) (pulseRingShiftTimer s.1 - 1)
               (pulseRingIndex s.1) (pulseColorIndex s.1), s.2).

(** "is it time to start another pulse chain?", then [pulseTimer--] *)
Definition ring_pulse (s : S_RingChase * Globals) : S_RingChase * Globals :=
  let s :=
    if pulseTimer s.1 <=? 0 then
      (mkRingChase S_RING_CHASE_PULSE_FREQUENCY 0 0
                   (next_pulse_color (pulseColorIndex s.1)),
       ring_paint 0 (S_RING_CHASE_COLORS_at (pulseColorIndex s.1)) s.2)
    else s in
  (mkRingChase (pulseTimer s.1 - 1) (pulseRingShiftTimer s.1)
               (pulseRingIndex s.1) (pulseColorIndex s.1), s.2).

Definition S_RingChase_Update (rc : S_RingChase) (g : Globals)
  : S_RingChase * Globals :=
  ring_pulse (ring_shift (rc, ring_falloff g)).

(** ** The program *)

Record Program := mkProgram {
  globals : Globals;
  (** [Sequences[0]] *)
  ringChase : S_RingChase;
  (** [byte ledSequence = 0], which nothing assigns *)
  ledSequence : Z
}.

(** The program before [setup]: the static initialisers; the two arrays
    are zeroed. *)
Definition power_on : Program :=
  mkProgram
    (mkGlobals
       (replicate (Z.to_nat (NUM_STRIP_LEDS * NUM_STRIPS)) (mkCRGB 0 0 0))
       (replicate (Z.to_nat (NUM_STRIP_LEDS * NUM_STRIPS)) (mkCHSV 0 0 0))
       [])
    S_RingChase_new 0.

(** [FastLED.clear()]: every LED black. *)
Definition setup (p : Program) : Program :=
  mkProgram
    (mkGlobals (replicate (length (leds (globals p))) (mkCRGB 0 0 0))
               (buffer (globals p)) (stores (globals p)))
    (ringChase p) (ledSequence p).

(** "flush buffer to LED array": [leds[i] = buffer[i]], with the
    conversion to RGB. *)
Definition flush (g : Globals) : Globals :=
  for_upto (Z.to_nat (NUM_STRIP_LEDS * NUM_STRIPS))
    (λ i g,
       mkGlobals
         (array_set i (CRGB_of_CHSV (array_get (mkCHSV 0 0 0) i (buffer g)))
                    (leds g))
         (buffer g) (stores g))
    g.

(** [Sequences[ledSequence]->Update()]; [Sequences] has one entry. *)
Definition update (p : Program) : Program :=
  match ledSequence p with
  | 0 =>
      let r := S_RingChase_Update (ringChase p) (globals p) in
      mkProgram r.2 r.1 (ledSequence p)
  | _ => p
  end.

Definition loop (p : Program) : Program :=
  let p := update p in
  mkProgram (flush (globals p)) (ringChase p) (ledSequence p).

(** The program after [setup] and [n] passes of [loop]. *)
Definition run (n : nat) : Program := Nat.iter n loop (setup power_on).

End Sketch.
End Halloween.

(** What holds of the S_RingChase of [HalloweenLights.ino] [r] passes after
    the pass that started pulse number [m]: the timers and indices, the
    colour on ring 0 when the pulse has just started, and afterwards the
    colour on the rings that the pulse has reached. *)
Definition Halloween_phase `{Platform} (m r : Z)
    (rc : Halloween.S_RingChase) (g : Halloween.Globals) : Prop :=
  let c := S_RING_CHASE_COLORS_at ((m + 1) `mod` 3) in
  length (Halloween.buffer g) = 80%nat ∧
  Halloween.pulseTimer rc = 399 - r ∧
  Halloween.pulseColorIndex rc = (m + 1) `mod` 3 ∧
  (r = 0 →
   Halloween.pulseRingIndex rc = 0 ∧
   Halloween.pulseRingShiftTimer rc = 0 ∧
   ∀ i : nat, (i < 10)%nat →
     Halloween.buffer g !! i = Some (S_RING_CHASE_COLORS_at (m `mod` 3))) ∧
  (1 ≤ r →
   1 ≤ Halloween.pulseRingIndex rc ≤ 8 ∧
   Halloween.pulseRingShiftTimer rc =
     17 * Halloween.pulseRingIndex rc - r ∧
   (Halloween.pulseRingIndex rc < 8 →
    0 ≤ Halloween.pulseRingShiftTimer rc) ∧
   Halloween.pulseRingShiftTimer rc ≤ 16 ∧
   ∀ j i : nat, Z.of_nat j < Halloween.pulseRingIndex rc → (i < 10)%nat →
     Halloween.buffer g !! (10 * j + i)%nat =
     Some (mkCHSV (hue c) (sat c) (Z.max 0 (255 - (r - 1 - 17 * Z.of_nat j))))).

(** A store to [buffer] is in range when its index is one of the array. *)
Definition Halloween_in_range (k : Z) : Prop :=
  0 ≤ k < Halloween.NUM_STRIP_LEDS * NUM_STRIPS.

(** * Lemmas *)

(** Linear arithmetic with division and remainder by constants. *)
Ltac dlia := Z.to_euclidean_division_equations; lia.

(** ** Bytes *)

Lemma u8_range x : byte_range (u8 x).
Proof. unfold byte_range, u8. dlia. Qed.

Lemma u8_id x : byte_range x → u8 x = x.
Proof. unfold byte_range, u8. intros. apply Z.mod_small. lia. Qed.

Lemma wf_CHSV_of a b c : wf_CHSV (CHSV_of a b c).
Proof. repeat split; apply u8_range. Qed.

Lemma wf_CRGB_of_CHSV `{Platform} c : wf_CRGB (CRGB_of_CHSV c).
Proof.
  unfold CRGB_of_CHSV. destruct (hsv2rgb_rainbow c) as [[r g] b].
  repeat split; apply u8_range.
Qed.

Lemma scale8_bounds `{Platform} i scale :
  0 ≤ i → 0 ≤ scale ≤ 255 → 0 ≤ scale8 i scale ≤ i.
Proof.
  intros Hi Hs. unfold scale8.
  destruct FASTLED_SCALE8_FIXED; rewrite Z.shiftr_div_pow2 by lia;
    change (2 ^ 8) with 256; split.
  - apply Z.div_pos; nia.
  - apply Z.div_le_upper_bound; nia.
  - apply Z.div_pos; nia.
  - apply Z.div_le_upper_bound; nia.
Qed.

Lemma nscale8_le `{Platform} scale c : wf_CRGB c → CRGB_le (nscale8 scale c) c.
Proof.
  intros (Hr & Hg & Hb). unfold byte_range in *.
  pose proof (u8_range scale) as Hs. unfold byte_range in Hs.
  repeat split; simpl; apply scale8_bounds; lia.
Qed.

Lemma wf_nscale8 `{Platform} scale c : wf_CRGB c → wf_CRGB (nscale8 scale c).
Proof.
  intros (Hr & Hg & Hb). unfold byte_range in *.
  pose proof (u8_range scale) as Hs. unfold byte_range in Hs.
  repeat split; simpl;
    match goal with |- context [scale8 ?i ?s] =>
      pose proof (scale8_bounds i s) end; lia.
Qed.

(** ** Loops and arrays *)

Lemma for_upto_inv {St} (P : Z → St → Prop) n body (s : St) :
  P 0 s →
  (∀ i s, 0 ≤ i < Z.of_nat n → P i s → P (i + 1) (body i s)) →
  P (Z.of_nat n) (for_upto n body s).
Proof.
  intros H0 Hstep. induction n as [|n IH]; simpl; [done|].
  rewrite Nat2Z.inj_succ, <- Z.add_1_r.
  apply Hstep; [lia|]. apply IH. intros; apply Hstep; [lia|done].
Qed.

Lemma length_array_set {A} k (x : A) a : length (array_set k x a) = length a.
Proof. unfold array_set. case_bool_decide; [apply length_insert|done]. Qed.

Lemma Forall_array_set {A} (P : A → Prop) k x a :
  P x → Forall P a → Forall P (array_set k x a).
Proof.
  intros. unfold array_set. case_bool_decide; [|done].
  by apply Forall_insert.
Qed.

Lemma array_get_lookup {A} (d : A) (i : nat) a x :
  a !! i = Some x → array_get d (Z.of_nat i) a = x.
Proof.
  intros Hx. unfold array_get. rewrite bool_decide_true by lia.
  by rewrite Nat2Z.id, Hx.
Qed.

Lemma Forall_array_get {A} (P : A → Prop) d k a :
  P d → Forall P a → P (array_get d k a).
Proof.
  intros Hd Ha. unfold array_get. case_bool_decide; [|done].
  destruct (a !! Z.to_nat k) eqn:E; simpl; [|done].
  eapply Forall_lookup_1; eauto.
Qed.

(** A loop that rewrites every cell from its own content is a [map]. *)
Lemma for_upto_map {A} (d : A) (f : A → A) (n : nat) (a : list A) :
  (n ≤ length a)%nat →
  for_upto n (λ i a, array_set i (f (array_get d i a)) a) a
  = (f <$> take n a) ++ drop n a.
Proof.
  induction n as [|n IH]; intros Hn; simpl.
  - done.
  - rewrite IH by lia.
    destruct (lookup_lt_is_Some_2 a n) as [x Hx]; [lia|].
    assert (length (f <$> take n a) = n) as Hlen
      by (rewrite length_fmap, length_take; lia).
    erewrite array_get_lookup
      by (rewrite lookup_app_r, Hlen, Nat.sub_diag, lookup_drop, Nat.add_0_r
            by lia; done).
    unfold array_set. rewrite bool_decide_true, Nat2Z.id by lia.
    rewrite (take_S_r _ _ _ Hx), fmap_app, <- app_assoc. simpl.
    rewrite (drop_S _ _ _ Hx).
    replace n with (length (f <$> take n a) + 0)%nat at 1 by lia.
    by rewrite insert_app_r.
Qed.

Lemma for_upto_map_all {A} (d : A) (f : A → A) (a : list A) :
  for_upto (length a) (λ i a, array_set i (f (array_get d i a)) a) a = f <$> a.
Proof.
  rewrite for_upto_map by done. by rewrite firstn_all, drop_all, app_nil_r.
Qed.
(** ** Stores to the colour array *)

Lemma leds_ok_assign `{Platform} k c g : leds_ok g → leds_ok (leds_assign k c g).
Proof.
  intros [Hlen Hwf]. split; simpl.
  - by rewrite length_array_set.
  - apply Forall_array_set; [apply wf_CRGB_of_CHSV|done].
Qed.

Lemma leds_ok_nscale8 `{Platform} k sc g :
  leds_ok g → leds_ok (leds_nscale8 k sc g).
Proof.
  intros [Hlen Hwf]. split; simpl.
  - by rewrite length_array_set.
  - apply Forall_array_set; [|done]. apply wf_nscale8.
    apply Forall_array_get; [|done]. repeat split; done.
Qed.

Lemma grows_refl P g : grows P g g.
Proof. exists []. by split. Qed.

Lemma grows_trans P g1 g2 g3 : grows P g1 g2 → grows P g2 g3 → grows P g1 g3.
Proof.
  intros (l1 & E1 & F1) (l2 & E2 & F2). exists (l2 ++ l1). split.
  - by rewrite E2, E1, app_assoc.
  - by apply Forall_app.
Qed.

Lemma grows_one P s g g' :
  stores g' = s :: stores g → P s → grows P g g'.
Proof. intros E Hs. exists [s]. split; [done|]. by constructor. Qed.

Lemma grows_new_stores P g g' : grows P g g' → Forall P (new_stores g g').
Proof.
  intros (l & E & F). unfold new_stores. rewrite E, length_app.
  replace (length l + length (stores g) - length (stores g))%nat
    with (length l) by lia.
  by rewrite take_app_length.
Qed.

Lemma new_stores_app g g' l : stores g' = l ++ stores g → new_stores g g' = l.
Proof.
  intros E. unfold new_stores. rewrite E, length_app.
  replace (length l + length (stores g) - length (stores g))%nat
    with (length l) by lia.
  by rewrite take_app_length.
Qed.

Lemma grows_for_upto P n (body : Z → Globals → Globals) g :
  (∀ i g, 0 ≤ i < Z.of_nat n → grows P g (body i g)) →
  grows P g (for_upto n body g).
Proof.
  intros Hbody.
  apply (for_upto_inv (λ _ g', grows P g g')); [apply grows_refl|].
  intros i s Hi Hs. eapply grows_trans; eauto.
Qed.

(** ** The fading loop *)

Lemma fade_loop_leds `{Platform} sc g :
  length (leds g) = Z.to_nat (NUM_STRIPS * NUM_STRIP_LEDS) →
  leds (fade_loop sc g) = nscale8 sc <$> leds g.
Proof.
  intros Hlen. unfold fade_loop. rewrite <- Hlen.
  rewrite <- (for_upto_map_all (mkCRGB 0 0 0)).
  generalize (length (leds g)). intros n.
  induction n as [|n IH]; simpl; [done|]. by rewrite IH.
Qed.

Lemma fade_loop_ok `{Platform} sc g : leds_ok g → leds_ok (fade_loop sc g).
Proof.
  intros Hok. unfold fade_loop.
  apply (for_upto_inv (λ _ g', leds_ok g')); [done|].
  intros. by apply leds_ok_nscale8.
Qed.

(** The loop fades: no channel of any LED grows. *)
Lemma fade_loop_le `{Platform} sc g :
  leds_ok g → Forall2 CRGB_le (leds (fade_loop sc g)) (leds g).
Proof.
  intros [Hlen Hwf]. rewrite fade_loop_leds by done.
  apply Forall2_fmap_l, Forall_Forall2_diag.
  eapply Forall_impl; [done|]. intros c Hc. by apply nscale8_le.
Qed.

Lemma assignments_app l1 l2 :
  assignments (l1 ++ l2) = assignments l1 ++ assignments l2.
Proof. apply omap_app. Qed.

Lemma assignments_faded l : Forall faded l → assignments l = [].
Proof.
  induction 1 as [|s l [_ Hs] _ IH]; [done|].
  destruct s; [done|]. exact IH.
Qed.

Lemma fade_loop_faded `{Platform} sc g : grows faded g (fade_loop sc g).
Proof.
  apply grows_for_upto. intros i g' Hi.
  eapply grows_one; [done|]. split; [|done]. unfold in_range; simpl. lia.
Qed.

Lemma grows_impl (P Q : Store → Prop) g g' :
  (∀ s, P s → Q s) → grows P g g' → grows Q g g'.
Proof.
  intros HPQ (l & E & F). exists l. split; [done|].
  eapply Forall_impl; eauto.
Qed.

(** ** Random numbers *)

Lemma random_bounds `{Platform} howbig g :
  0 < howbig →
  0 ≤ (random howbig g).1 < howbig ∧
  leds (random howbig g).2 = leds g ∧ stores (random howbig g).2 = stores g.
Proof.
  intros Hb. unfold random. rewrite (proj2 (Z.eqb_neq _ _)) by lia. simpl.
  split; [|done].
  pose proof (N2Z.is_nonneg (random_raw (drawn g))).
  rewrite Z.rem_mod_nonneg by lia. dlia.
Qed.

Lemma random_between_bounds `{Platform} lo hi g :
  lo < hi →
  lo ≤ (random_between lo hi g).1 < hi ∧
  leds (random_between lo hi g).2 = leds g ∧
  stores (random_between lo hi g).2 = stores g.
Proof.
  intros Hlt. unfold random_between.
  rewrite Z.geb_leb, (proj2 (Z.leb_gt _ _)) by lia.
  pose proof (random_bounds (hi - lo) g ltac:(lia)) as (Hr & Hl & Hs).
  destruct (random (hi - lo) g) as [r g']. simpl in *. split; [lia|done].
Qed.

(** ** S_Twinkle *)

Lemma twinkle_draw_spec `{Platform} g :
  let '((pos, c), g') := twinkle_draw g in
  1 ≤ pos ≤ NUM_STRIPS * NUM_STRIP_LEDS - 3 ∧
  255 - S_TWINKLE_BRIGHTNESS_VARIANCE ≤ val c ≤ 254 ∧
  hue c = 190 ∧ sat c = 255 ∧
  leds g' = leds g ∧ stores g' = stores g.
Proof.
  unfold twinkle_draw.
  pose proof (random_between_bounds 1 (NUM_STRIPS * NUM_STRIP_LEDS - 2) g
                ltac:(done)) as (Hp & Hl1 & Hs1).
  destruct (random_between 1 _ g) as [pos g1]. cbn [fst snd] in *.
  pose proof (random_between_bounds (255 - S_TWINKLE_BRIGHTNESS_VARIANCE) 255 g1
                ltac:(done)) as (Hb & Hl2 & Hs2).
  destruct (random_between _ 255 g1) as [b g2]. cbn [fst snd] in *.
  pose proof (random_bounds S_TWINKLE_NUM_COLORS g2 ltac:(done)) as (Hc & Hl3 & Hs3).
  destruct (random _ g2) as [ci g3]. cbn [fst snd] in *.
  assert (ci = 0) as -> by (unfold S_TWINKLE_NUM_COLORS in Hc; lia).
  unfold S_TWINKLE_BRIGHTNESS_VARIANCE in *.
  cbn [hue sat val CHSV_of]. change (array_get _ 0 S_TWINKLE_COLORS) with (CHSV_of 190 255 255).
  cbn [hue sat val CHSV_of]. rewrite (u8_id b) by (unfold byte_range; lia).
  repeat split; try lia; congruence.
Qed.

(** What [S_Twinkle::Update] stores when the timer has run out: the drawn
    LED, then the whole array faded. *)
Lemma twinkle_spark_fires `{Platform} tw g :
  twinkleTimer tw ≤ 0 →
  twinkle_spark tw g =
  (mkTwinkle (S_TWINKLE_FREQUENCY - 1),
   leds_assign (twinkle_draw g).1.1 (twinkle_draw g).1.2 (twinkle_draw g).2).
Proof.
  intros Ht. unfold twinkle_spark. rewrite (proj2 (Z.leb_le _ _)) by done.
  by destruct (twinkle_draw g) as [[pos c] g'].
Qed.

Lemma twinkle_spark_waits `{Platform} tw g :
  0 < twinkleTimer tw →
  twinkle_spark tw g = (mkTwinkle (twinkleTimer tw - 1), g).
Proof.
  intros Ht. unfold twinkle_spark. by rewrite (proj2 (Z.leb_gt _ _)) by done.
Qed.

Lemma S_Twinkle_Update_eq `{Platform} tw g :
  S_Twinkle_Update tw g =
  ((twinkle_spark tw g).1,
   fade_loop (255 - S_TWINKLE_FALLOFF_RATE) (twinkle_spark tw g).2).
Proof. reflexivity. Qed.

Lemma twinkle_spark_ok `{Platform} tw g :
  leds_ok g → leds_ok (twinkle_spark tw g).2.
Proof.
  intros Hok. destruct (Z.le_gt_cases (twinkleTimer tw) 0).
  - rewrite twinkle_spark_fires by done. cbn [snd].
    apply leds_ok_assign.
    pose proof (twinkle_draw_spec g) as Hd.
    destruct (twinkle_draw g) as [[pos c] g']. cbn [snd].
    destruct Hd as (_ & _ & _ & _ & Hl & _).
    unfold leds_ok in *. by rewrite Hl.
  - by rewrite twinkle_spark_waits by done.
Qed.

(** ** S_RingChase *)

Lemma wf_S_RING_CHASE_COLORS_at `{Platform} k : wf_CHSV (S_RING_CHASE_COLORS_at k).
Proof.
  unfold S_RING_CHASE_COLORS_at. apply Forall_array_get.
  - destruct past_S_RING_CHASE_COLORS as [[a b] c]. apply wf_CHSV_of.
  - repeat constructor; apply wf_CHSV_of.
Qed.

Lemma ring_pulse_ok `{Platform} rc : RingChase_ok rc → RingChase_ok (ring_pulse rc).
Proof.
  intros [Hlen Hwf]. unfold ring_pulse.
  destruct (pulseTimer rc <=? 0); [|done].
  split; cbn [rings].
  - by rewrite length_array_set.
  - apply Forall_array_set; [apply wf_S_RING_CHASE_COLORS_at|done].
Qed.

Lemma ring_shift_ok `{Platform} rc : RingChase_ok rc → RingChase_ok (ring_shift rc).
Proof.
  intros [Hlen Hwf]. unfold ring_shift.
  destruct (_ && _); [|done].
  split; cbn [rings].
  - by rewrite length_array_set.
  - apply Forall_array_set; [apply wf_S_RING_CHASE_COLORS_at|done].
Qed.

(** The falloff loop fades every ring once. *)
Lemma ring_falloff_rings rc :
  length (rings rc) = Z.to_nat NUM_STRIPS →
  rings (ring_falloff rc) = ring_falloff_one <$> rings rc.
Proof.
  intros Hlen. unfold ring_falloff. cbn [rings].
  rewrite <- Hlen. apply for_upto_map_all.
Qed.

Lemma ring_falloff_ok rc : RingChase_ok rc → RingChase_ok (ring_falloff rc).
Proof.
  intros [Hlen Hwf]. split.
  - by rewrite ring_falloff_rings, length_fmap.
  - rewrite ring_falloff_rings by done. apply Forall_fmap, Forall_true.
    intros c. apply wf_CHSV_of.
Qed.

(** The falloff is clamped: it never leaves the byte range, so that the
    conversion to [uint8_t] keeps it. *)
Lemma falloff_value_bounds v :
  byte_range v →
  falloff_value v = Z.max 0 (v - S_RING_CHASE_FALLOF_RATE) ∧
  0 ≤ falloff_value v ≤ v.
Proof.
  unfold byte_range, falloff_value, S_RING_CHASE_FALLOF_RATE. intros Hv.
  destruct (Z.ltb_spec (v - 8) 0); lia.
Qed.

Lemma ring_falloff_one_eq c :
  wf_CHSV c →
  ring_falloff_one c =
  mkCHSV (hue c) (sat c) (Z.max 0 (val c - S_RING_CHASE_FALLOF_RATE)).
Proof.
  intros (Hh & Hs & Hv). unfold ring_falloff_one, CHSV_of.
  destruct (falloff_value_bounds (val c) Hv) as [E B].
  rewrite !u8_id; [by rewrite E|unfold byte_range in *; lia|done|done].
Qed.

Lemma ring_render_ok `{Platform} rc g : leds_ok g → leds_ok (ring_render rc g).
Proof.
  intros Hok. unfold ring_render.
  apply (for_upto_inv (λ _ g', leds_ok g')); [done|]. intros i g1 _ Hg1.
  apply (for_upto_inv (λ _ g', leds_ok g')); [done|]. intros j g2 _ Hg2.
  by apply leds_ok_assign.
Qed.

Lemma ring_render_grows `{Platform} rc g :
  RingChase_ok rc → grows painted g (ring_render rc g).
Proof.
  intros [Hlen Hwf]. unfold ring_render.
  apply grows_for_upto. intros i g1 Hi.
  apply grows_for_upto. intros j g2 Hj.
  eapply grows_one; [done|]. split.
  - unfold in_range, GetStrip, NUM_STRIPS, NUM_STRIP_LEDS in *. simpl. lia.
  - apply Forall_array_get; [repeat split; done|done].
Qed.

(** ** S_TraceChase *)

Lemma trace_step_spec `{Platform} move (i : nat) tc g t :
  traces tc !! i = Some t →
  trace_step move (Z.of_nat i) (tc, g) =
  (mkTraceChase (<[i := move t]> (traces tc)) (traceColorIndex tc),
   leds_assign (GetStrip (Z.of_nat i) + move t)
               (S_TRACE_CHASE_COLORS_at (traceColorIndex tc)) g).
Proof.
  intros Ht. unfold trace_step.
  rewrite (array_get_lookup _ _ _ _ Ht). unfold array_set.
  by rewrite bool_decide_true, Nat2Z.id by lia.
Qed.

Lemma trace_strip_spec `{Platform} (i : nat) tc g t :
  traces tc !! i = Some t →
  trace_strip (Z.of_nat i) (tc, g) =
  let m := moves (Z.of_nat i) in
  let c := S_TRACE_CHASE_COLORS_at (traceColorIndex tc) in
  let at_ t := GetStrip (Z.of_nat i) + t in
  (mkTraceChase (<[i := advance (Z.of_nat i) t]> (traces tc))
                (next_color (traceColorIndex tc)),
   leds_assign (at_ (m (m (m t)))) c
     (leds_assign (at_ (m (m t))) c (leds_assign (at_ (m t)) c g))).
Proof.
  intros Ht.
  assert (i < length (traces tc))%nat as Hi by (by eapply lookup_lt_Some).
  assert (∀ mv,
    for_upto (Z.to_nat S_TRACE_SPEED) (λ _, trace_step mv (Z.of_nat i)) (tc, g) =
    (mkTraceChase (<[i := mv (mv (mv t))]> (traces tc)) (traceColorIndex tc),
     leds_assign (GetStrip (Z.of_nat i) + mv (mv (mv t)))
       (S_TRACE_CHASE_COLORS_at (traceColorIndex tc))
       (leds_assign (GetStrip (Z.of_nat i) + mv (mv t))
          (S_TRACE_CHASE_COLORS_at (traceColorIndex tc))
          (leds_assign (GetStrip (Z.of_nat i) + mv t)
             (S_TRACE_CHASE_COLORS_at (traceColorIndex tc)) g)))) as Hloop.
  { intros mv. change (Z.to_nat S_TRACE_SPEED) with 3%nat. cbn [for_upto].
    rewrite (trace_step_spec mv i tc g t Ht).
    erewrite trace_step_spec
      by (cbn [traces]; by apply list_lookup_insert_eq).
    erewrite trace_step_spec
      by (cbn [traces]; apply list_lookup_insert_eq; by rewrite length_insert).
    cbn [traces traceColorIndex]. by rewrite !list_insert_insert_eq. }
  unfold trace_strip, advance, moves. change (Z.to_nat S_TRACE_SPEED) with 3%nat.
  cbn [ZIG_ZAG Nat.iter].
  destruct (Z.of_nat i `rem` 2 =? 1);
    change 3%nat with (Z.to_nat S_TRACE_SPEED); rewrite Hloop; reflexivity.
Qed.

Lemma wrap_forward_range t :
  0 ≤ t < NUM_STRIP_LEDS →
  wrap_forward t = (t + 1) `mod` NUM_STRIP_LEDS ∧
  0 ≤ wrap_forward t < NUM_STRIP_LEDS.
Proof.
  unfold wrap_forward, NUM_STRIP_LEDS. intros Ht.
  destruct (Z.gtb_spec (t + 1) (150 - 1)); dlia.
Qed.

Lemma wrap_backward_range t :
  0 ≤ t < NUM_STRIP_LEDS →
  wrap_backward t = (t - 1) `mod` NUM_STRIP_LEDS ∧
  0 ≤ wrap_backward t < NUM_STRIP_LEDS.
Proof.
  unfold wrap_backward, NUM_STRIP_LEDS. intros Ht.
  destruct (Z.ltb_spec (t - 1) 0); dlia.
Qed.

Lemma moves_range i t :
  0 ≤ t < NUM_STRIP_LEDS →
  moves i t = (t + heading i) `mod` NUM_STRIP_LEDS ∧
  0 ≤ moves i t < NUM_STRIP_LEDS.
Proof.
  intros Ht. unfold moves, heading. cbn [ZIG_ZAG].
  destruct (i `rem` 2 =? 1).
  - apply wrap_backward_range, Ht.
  - apply wrap_forward_range, Ht.
Qed.

Lemma advance_range i t :
  0 ≤ t < NUM_STRIP_LEDS →
  advance i t = (t + S_TRACE_SPEED * heading i) `mod` NUM_STRIP_LEDS ∧
  0 ≤ advance i t < NUM_STRIP_LEDS.
Proof.
  intros Ht. unfold advance.
  change (Nat.iter _ (moves i) t) with (moves i (moves i (moves i t))).
  destruct (moves_range i t Ht) as [E1 R1].
  destruct (moves_range i (moves i t) R1) as [E2 R2].
  destruct (moves_range i (moves i (moves i t)) R2) as [E3 R3].
  split; [|done]. rewrite E3, E2, E1.
  unfold heading, NUM_STRIP_LEDS, S_TRACE_SPEED in *.
  destruct (i `rem` 2 =? 1); dlia.
Qed.

Lemma next_color_mod n : 0 ≤ n → next_color (n `mod` 3) = (n + 1) `mod` 3.
Proof.
  intros Hn. unfold next_color, S_TRACE_CHASE_NUM_COLORS.
  destruct (Z.gtb_spec (n `mod` 3 + 1) (3 - 1)); dlia.
Qed.

Lemma strip_of_led i p :
  0 ≤ i → 0 ≤ p < NUM_STRIP_LEDS → (GetStrip i + p) / NUM_STRIP_LEDS = i.
Proof. unfold GetStrip, NUM_STRIP_LEDS. intros. dlia. Qed.

(** The loop over the strips of [S_TraceChase::Update], entered with colour
    index 0: every strip advances by [advance], strip [j] is painted with
    palette entry [j mod 3], and three LEDs are assigned per strip. *)
Lemma trace_advance_spec `{Platform} tc g :
  TraceChase_ok tc → traceColorIndex tc = 0 →
  length (traces (trace_advance tc g).1) = length (traces tc) ∧
  traceColorIndex (trace_advance tc g).1 = NUM_STRIPS `mod` 3 ∧
  (∀ (j : nat) t, traces tc !! j = Some t →
     traces (trace_advance tc g).1 !! j = Some (advance (Z.of_nat j) t)) ∧
  drawn (trace_advance tc g).2 = drawn g ∧
  ∃ l, stores (trace_advance tc g).2 = l ++ stores g ∧
       Forall traced l ∧
       length l = Z.to_nat (S_TRACE_SPEED * NUM_STRIPS) ∧
       ∀ (j : nat) t, traces tc !! j = Some t →
         Assigned (GetStrip (Z.of_nat j) + advance (Z.of_nat j) t)
                  (S_TRACE_CHASE_COLORS_at (Z.of_nat j `mod` 3)) ∈ l.
Proof.
  intros [Hlen Hrange] Hci.
  set (Inv := λ (n : Z) (s : S_TraceChase * Globals),
    length (traces s.1) = length (traces tc) ∧
    traceColorIndex s.1 = n `mod` 3 ∧
    (∀ (j : nat) t, traces tc !! j = Some t →
       traces s.1 !! j =
       Some (if bool_decide (Z.of_nat j < n) then advance (Z.of_nat j) t else t)) ∧
    drawn s.2 = drawn g ∧
    ∃ l, stores s.2 = l ++ stores g ∧ Forall traced l ∧
         length l = Z.to_nat (S_TRACE_SPEED * n) ∧
         ∀ (j : nat) t, Z.of_nat j < n → traces tc !! j = Some t →
           Assigned (GetStrip (Z.of_nat j) + advance (Z.of_nat j) t)
                    (S_TRACE_CHASE_COLORS_at (Z.of_nat j `mod` 3)) ∈ l).
  assert (Inv (Z.of_nat (Z.to_nat NUM_STRIPS)) (trace_advance tc g)) as HInv.
  { unfold trace_advance. apply for_upto_inv.
    - repeat split; try done.
      + intros j t Ht. by rewrite bool_decide_false by lia.
      + exists []. repeat split; try done. intros; lia.
    - intros i [tc' g'] Hi (Hl' & Hc' & Ht' & Hd' & l & Hs' & Hf' & Hn' & Hin').
      cbn [fst snd] in *.
      destruct (lookup_lt_is_Some_2 (traces tc) (Z.to_nat i)) as [t Ht]; [lia|].
      assert (0 ≤ t < NUM_STRIP_LEDS) as Hr
        by (eapply (Forall_lookup_1 _ _ _ _ Hrange); done).
      pose proof (Ht' _ _ Ht) as Ht1.
      rewrite bool_decide_false in Ht1 by lia.
      assert (trace_strip i (tc', g')
              = trace_strip (Z.of_nat (Z.to_nat i)) (tc', g')) as ->
        by (by rewrite Z2Nat.id by lia).
      rewrite (trace_strip_spec _ _ _ _ Ht1). cbn zeta.
      rewrite !Z2Nat.id by lia. unfold Inv.
      cbn [fst snd traces traceColorIndex].
      destruct (moves_range i t Hr) as [_ R1].
      destruct (moves_range i _ R1) as [_ R2].
      destruct (moves_range i _ R2) as [_ R3].
      repeat split.
      + by rewrite length_insert.
      + rewrite Hc'. apply next_color_mod. lia.
      + intros j u Hu. destruct (decide (j = Z.to_nat i)) as [->|Hne].
        * rewrite list_lookup_insert_eq by lia.
          rewrite bool_decide_true by lia. rewrite Z2Nat.id by lia. congruence.
        * rewrite list_lookup_insert_ne by done. rewrite (Ht' _ _ Hu).
          f_equal. repeat case_bool_decide; try done; lia.
      + done.
      + eexists (_ :: _ :: _ :: l). split; [cbn [stores leds_assign]; by rewrite Hs'|].
        assert (∀ p, 0 ≤ p < NUM_STRIP_LEDS →
                  traced (Assigned (GetStrip i + p)
                            (S_TRACE_CHASE_COLORS_at (traceColorIndex tc')))) as Htr.
        { intros p Hp. split.
          - unfold in_range, GetStrip, NUM_STRIPS, NUM_STRIP_LEDS in *. simpl. lia.
          - rewrite strip_of_led by (done || lia). by rewrite Hc'. }
        repeat split.
        * repeat (constructor; [by apply Htr|]). done.
        * cbn [length]. rewrite Hn'.
          unfold S_TRACE_SPEED. lia.
        * intros j u Hj Hu. destruct (decide (j = Z.to_nat i)) as [->|Hne].
          -- rewrite Z2Nat.id by lia. assert (u = t) as -> by congruence.
             rewrite Hc'. apply list_elem_of_here.
          -- do 3 apply list_elem_of_further. apply Hin'; [lia|done]. }
  destruct HInv as (Hl' & Hc' & Ht' & Hd' & l & Hs' & Hf' & Hn' & Hin').
  rewrite Z2Nat.id in * by done.
  split; [exact Hl'|]. split; [exact Hc'|]. split; [|split; [exact Hd'|]].
  - intros j t Ht. rewrite (Ht' _ _ Ht).
    rewrite bool_decide_true; [done|].
    apply lookup_lt_Some in Ht. lia.
  - exists l. split; [exact Hs'|]. split; [exact Hf'|]. split; [exact Hn'|].
    intros j t Ht. apply Hin'; [|done].
    apply lookup_lt_Some in Ht. lia.
Qed.

Lemma S_TraceChase_Update_eq `{Platform} tc g :
  S_TraceChase_Update tc g =
  (mkTraceChase (traces (trace_advance tc g).1) 0,
   fade_loop (255 - S_TRACE_FALLOFF_RATE) (trace_advance tc g).2).
Proof. reflexivity. Qed.

Lemma S_TraceChase_Update_ok `{Platform} tc g :
  TraceChase_ok tc → traceColorIndex tc = 0 →
  TraceChase_ok (S_TraceChase_Update tc g).1 ∧
  traceColorIndex (S_TraceChase_Update tc g).1 = 0.
Proof.
  intros Hok Hci. rewrite S_TraceChase_Update_eq.
  pose proof (trace_advance_spec tc g Hok Hci) as Hspec. revert Hspec.
  generalize (trace_advance tc g). intros s (Hl & _ & Ht & _).
  destruct Hok as [Hlen Hr]. split; [|reflexivity].
  split; cbn [fst traces]; [congruence|].
  apply Forall_lookup_2. intros j u Hu.
  destruct (lookup_lt_is_Some_2 (traces tc) j) as [t Hj].
  { apply lookup_lt_Some in Hu. lia. }
  rewrite (Ht _ _ Hj) in Hu. injection Hu as <-.
  apply advance_range. by eapply (Forall_lookup_1 _ _ _ _ Hr).
Qed.

Lemma S_TraceChase_Update_lookup `{Platform} tc g (j : nat) t :
  TraceChase_ok tc → traceColorIndex tc = 0 → traces tc !! j = Some t →
  traces (S_TraceChase_Update tc g).1 !! j = Some (advance (Z.of_nat j) t).
Proof.
  intros Hok Hci Hj. rewrite S_TraceChase_Update_eq.
  pose proof (trace_advance_spec tc g Hok Hci) as Hspec. revert Hspec.
  generalize (trace_advance tc g). intros s (_ & _ & Ht & _). by apply Ht.
Qed.

Lemma assignments_traced l :
  Forall traced l →
  Forall (λ a, 0 ≤ a.1 < NUM_STRIPS * NUM_STRIP_LEDS ∧
               a.2 = S_TRACE_CHASE_COLORS_at ((a.1 / NUM_STRIP_LEDS) `mod` 3))
         (assignments l) ∧
  length (assignments l) = length l.
Proof.
  induction 1 as [|s l [Hr Hs] _ [IH1 IH2]]; [done|].
  destruct s as [k c|]; [|done]. unfold assignments in *. simpl.
  split; [by constructor|]. cbn [length]. f_equal. exact IH2.
Qed.

Lemma elem_of_assignments k c l : Assigned k c ∈ l → (k, c) ∈ assignments l.
Proof.
  intros Hin. unfold assignments. apply list_elem_of_omap.
  exists (Assigned k c). by split.
Qed.

Lemma ticks_S `{LEDSequence T} n (s : T * Globals) :
  ticks (S n) s = Update (ticks n s).1 (ticks n s).2.
Proof. reflexivity. Qed.

(** After [n] calls of [Update], strip [j] has made [n] advances. *)
Lemma TraceChase_ticks `{Platform} tc g (n : nat) :
  TraceChase_ok tc → traceColorIndex tc = 0 →
  TraceChase_ok (ticks n (tc, g)).1 ∧
  traceColorIndex (ticks n (tc, g)).1 = 0 ∧
  ∀ (j : nat) t, traces tc !! j = Some t →
    traces (ticks n (tc, g)).1 !! j =
    Some ((t + Z.of_nat n * (S_TRACE_SPEED * heading (Z.of_nat j)))
            `mod` NUM_STRIP_LEDS).
Proof.
  intros Hok Hci. induction n as [|n (IHok & IHci & IH)].
  - split; [exact Hok|]. split; [exact Hci|]. intros j t Hj.
    change (ticks 0 (tc, g)).1 with tc.
    rewrite Hj. f_equal. destruct Hok as [_ Hr].
    pose proof (Forall_lookup_1 _ _ _ _ Hr Hj) as Ht. cbn beta in Ht.
    rewrite Z.mul_0_l, Z.add_0_r, Z.mod_small; done.
  - rewrite ticks_S. revert IHok IHci IH. generalize (ticks n (tc, g)).
    intros [tc' g'] IHok IHci IH. cbn [fst snd] in *.
    cbn [Update TraceChase_LEDSequence].
    destruct (S_TraceChase_Update_ok tc' g' IHok IHci) as [Hok' Hci'].
    split; [done|]. split; [done|]. intros j t Hj.
    rewrite (S_TraceChase_Update_lookup tc' g' j _ IHok IHci (IH _ _ Hj)).
    f_equal.
    assert (0 ≤ (t + Z.of_nat n * (S_TRACE_SPEED * heading (Z.of_nat j)))
                  `mod` NUM_STRIP_LEDS < NUM_STRIP_LEDS) as Hr
      by (unfold NUM_STRIP_LEDS; dlia).
    destruct (advance_range (Z.of_nat j) _ Hr) as [-> _].
    rewrite Zplus_mod_idemp_l. f_equal. lia.
Qed.

Lemma assignments_bytes l :
  Forall bytes l → Forall (λ a, wf_CHSV a.2) (assignments l).
Proof.
  induction 1 as [|s l Hs _ IH]; [constructor|].
  destruct s as [k c|]; [|exact IH]. by constructor.
Qed.

Lemma wf_S_TRACE_CHASE_COLORS_at k : wf_CHSV (S_TRACE_CHASE_COLORS_at k).
Proof.
  unfold S_TRACE_CHASE_COLORS_at. apply Forall_array_get.
  - repeat split; done.
  - repeat constructor; apply wf_CHSV_of.
Qed.

Lemma trace_step_ok `{Platform} move i s :
  leds_ok s.2 → leds_ok (trace_step move i s).2.
Proof. destruct s as [tc g]. intros Hok. by apply leds_ok_assign. Qed.

Lemma trace_strip_ok `{Platform} i s : leds_ok s.2 → leds_ok (trace_strip i s).2.
Proof.
  intros Hok. unfold trace_strip.
  assert (∀ mv, leds_ok
            (for_upto (Z.to_nat S_TRACE_SPEED) (λ _, trace_step mv i) s).2) as Hloop.
  { intros mv. apply (for_upto_inv (λ _ s', leds_ok s'.2)); [done|].
    intros. by apply trace_step_ok. }
  cbn [ZIG_ZAG]. destruct (i `rem` 2 =? 1).
  - specialize (Hloop wrap_backward). by destruct (for_upto _ _ s).
  - specialize (Hloop wrap_forward). by destruct (for_upto _ _ s).
Qed.

Lemma trace_advance_ok `{Platform} tc g :
  leds_ok g → leds_ok (trace_advance tc g).2.
Proof.
  intros Hok. unfold trace_advance.
  apply (for_upto_inv (λ _ s', leds_ok s'.2)); [done|].
  intros. by apply trace_strip_ok.
Qed.

Lemma ring_render_in_range `{Platform} rc g : grows in_range g (ring_render rc g).
Proof.
  unfold ring_render.
  apply grows_for_upto. intros i g1 Hi.
  apply grows_for_upto. intros j g2 Hj.
  eapply grows_one; [done|].
  unfold in_range, GetStrip, NUM_STRIPS, NUM_STRIP_LEDS in *. simpl. lia.
Qed.

(** ** What every [Update] stores *)

Lemma S_RingChase_Update_grows `{Platform} rc g :
  grows in_range g (S_RingChase_Update rc g).2.
Proof. apply ring_render_in_range. Qed.

Lemma S_RingChase_Update_ok `{Platform} rc g :
  RingChase_ok rc → RingChase_ok (S_RingChase_Update rc g).1.
Proof. intros. by apply ring_falloff_ok, ring_shift_ok, ring_pulse_ok. Qed.

Lemma S_Twinkle_Update_grows `{Platform} tw g :
  grows (λ s, in_range s ∧ bytes s) g (S_Twinkle_Update tw g).2.
Proof.
  rewrite S_Twinkle_Update_eq. cbn [snd].
  eapply grows_trans;
    [|eapply grows_impl; [|apply fade_loop_faded]];
    [|intros [] []; by split].
  destruct (Z.le_gt_cases (twinkleTimer tw) 0).
  - rewrite twinkle_spark_fires by done. cbn [snd].
    pose proof (twinkle_draw_spec g) as Hd. revert Hd.
    generalize (twinkle_draw g). intros [[pos c] g'] (Hp & Hb & Hh & Hs & _ & Hst).
    cbn [fst snd]. eapply grows_one; [cbn [stores leds_assign]; by rewrite Hst|].
    split.
    + unfold in_range, NUM_STRIPS, NUM_STRIP_LEDS in *. simpl. lia.
    + unfold S_TWINKLE_BRIGHTNESS_VARIANCE in *.
      repeat split; unfold byte_range; lia.
  - rewrite twinkle_spark_waits by done. apply grows_refl.
Qed.

Lemma S_TraceChase_Update_grows `{Platform} tc g :
  TraceChase_ok tc → traceColorIndex tc = 0 →
  grows (λ s, in_range s ∧ bytes s) g (S_TraceChase_Update tc g).2.
Proof.
  intros Hok Hci. rewrite S_TraceChase_Update_eq. cbn [snd].
  eapply grows_trans;
    [|eapply grows_impl; [|apply fade_loop_faded]];
    [|intros [] []; by split].
  pose proof (trace_advance_spec tc g Hok Hci) as Hspec. revert Hspec.
  generalize (trace_advance tc g).
  intros s (_ & _ & _ & _ & l & Hs & Hf & _).
  exists l. split; [exact Hs|]. eapply Forall_impl; [exact Hf|].
  intros [k c|] [Hr Hc]; [|destruct Hc]. split; [exact Hr|].
  unfold bytes. rewrite Hc. apply wf_S_TRACE_CHASE_COLORS_at.
Qed.

Lemma S_TraceChase_Update_leds_ok `{Platform} tc g :
  leds_ok g → leds_ok (S_TraceChase_Update tc g).2.
Proof. intros. by apply fade_loop_ok, trace_advance_ok. Qed.

Lemma S_Twinkle_Update_leds_ok `{Platform} tw g :
  leds_ok g → leds_ok (S_Twinkle_Update tw g).2.
Proof. intros. by apply fade_loop_ok, twinkle_spark_ok. Qed.

Lemma S_RingChase_Update_leds_ok `{Platform} rc g :
  leds_ok g → leds_ok (S_RingChase_Update rc g).2.
Proof. intros. by apply ring_render_ok. Qed.

(** ** The engine *)

Lemma S_RingChase_new_rings `{Platform} :
  rings S_RingChase_new =
  replicate (Z.to_nat NUM_STRIPS)
            (S_RING_CHASE_COLORS_at S_RING_CHASE_NUM_PULSE_COLORS).
Proof. reflexivity. Qed.

Lemma S_RingChase_new_ok `{Platform} : RingChase_ok S_RingChase_new.
Proof.
  split; rewrite S_RingChase_new_rings.
  - apply length_replicate.
  - apply Forall_replicate, wf_S_RING_CHASE_COLORS_at.
Qed.

Lemma S_TraceChase_Init_traces tc g :
  length (traces tc) = Z.to_nat NUM_STRIPS →
  traces (S_TraceChase_Init tc g).1 = [0; 135; 30; 105; 60; 75; 90; 45].
Proof.
  destruct tc as [l ci]. cbn [traces]. intros Hlen.
  do 9 (destruct l as [|? l]; try discriminate Hlen). reflexivity.
Qed.

Lemma S_TraceChase_Init_ok tc g :
  length (traces tc) = Z.to_nat NUM_STRIPS →
  TraceChase_ok (S_TraceChase_Init tc g).1.
Proof.
  intros Hlen. split; rewrite S_TraceChase_Init_traces by done; [done|].
  unfold NUM_STRIP_LEDS. repeat constructor; lia.
Qed.

Lemma Forall_grows P g g' :
  grows P g g' → Forall P (stores g) → Forall P (stores g').
Proof. intros (l & -> & Hl) Hg. by apply Forall_app. Qed.

Lemma dispatch_scheduler `{Platform} m k e :
  sequenceTimer (dispatch m k e) = sequenceTimer e ∧
  ledSequence (dispatch m k e) = ledSequence e ∧
  calls (dispatch m k e) = calls e.
Proof. unfold dispatch. by destruct k as [|[[|[]|]|[|[]|]|]|]. Qed.

Lemma dispatch_cases `{Platform} m k e :
  (k = 0 ∧ dispatch m k e =
     mkEngine (m _ _ (ringChase e) (globals e)).2
              (m _ _ (ringChase e) (globals e)).1 (twinkle e) (traceChase e)
              (sequenceTimer e) (ledSequence e) (calls e)) ∨
  (k = 1 ∧ dispatch m k e =
     mkEngine (m _ _ (twinkle e) (globals e)).2 (ringChase e)
              (m _ _ (twinkle e) (globals e)).1 (traceChase e)
              (sequenceTimer e) (ledSequence e) (calls e)) ∨
  (k = 2 ∧ dispatch m k e =
     mkEngine (m _ _ (traceChase e) (globals e)).2 (ringChase e) (twinkle e)
              (m _ _ (traceChase e) (globals e)).1
              (sequenceTimer e) (ledSequence e) (calls e)) ∨
  dispatch m k e = e.
Proof.
  unfold dispatch.
  destruct k as [|[[|[]|]|[|[]|]|]|]; first [by left|by right; left|by right; right; left|by do 3 right].
Qed.

Lemma S_Twinkle_Update_in_range `{Platform} tw g :
  grows in_range g (S_Twinkle_Update tw g).2.
Proof.
  eapply grows_impl; [|apply S_Twinkle_Update_grows]. by intros s [? _].
Qed.

Lemma S_TraceChase_Update_in_range `{Platform} tc g :
  TraceChase_ok tc → traceColorIndex tc = 0 →
  grows in_range g (S_TraceChase_Update tc g).2.
Proof.
  intros. eapply grows_impl; [|by apply S_TraceChase_Update_grows].
  by intros s [? _].
Qed.

Ltac engine_fields :=
  unfold engine_inv;
  cbn [globals ringChase twinkle traceChase sequenceTimer ledSequence calls
       set_sequenceTimer set_ledSequence record_call].

Ltac close_inv := engine_fields; split_and!; (done || lia).

Lemma record_call_inv c e : engine_inv e → engine_inv (record_call c e).
Proof. done. Qed.

Lemma set_sequenceTimer_inv t e :
  engine_inv e → engine_inv (set_sequenceTimer t e).
Proof. done. Qed.

Lemma set_ledSequence_inv k e :
  0 ≤ k < NUM_SEQUENCES → engine_inv e → engine_inv (set_ledSequence k e).
Proof. intros Hk (?&?&?&?&?&?). close_inv. Qed.

Lemma call_Update_inv `{Platform} k e : engine_inv e → engine_inv (call_Update k e).
Proof.
  intros Hinv. unfold call_Update.
  apply (record_call_inv (Called_Update k)) in Hinv.
  revert Hinv. generalize (record_call (Called_Update k) e). clear e.
  intros e (Hleds & Hrc & Htc & Hci & Hk & Hst).
  destruct (dispatch_cases (@Update) k e) as [[_ ->] | [[_ ->] | [[_ ->] | ->]]].
  - pose proof (S_RingChase_Update_leds_ok (ringChase e) _ Hleds) as H1.
    pose proof (S_RingChase_Update_ok (ringChase e) (globals e) Hrc) as H2.
    pose proof (Forall_grows _ _ _
                  (S_RingChase_Update_grows (ringChase e) (globals e)) Hst) as H3.
    revert H1 H2 H3. change (@Update _ _) with S_RingChase_Update.
    generalize (S_RingChase_Update (ringChase e) (globals e)). intros r H1 H2 H3.
    close_inv.
  - pose proof (S_Twinkle_Update_leds_ok (twinkle e) _ Hleds) as H1.
    pose proof (Forall_grows _ _ _
                  (S_Twinkle_Update_in_range (twinkle e) (globals e)) Hst) as H3.
    revert H1 H3. change (@Update _ _) with S_Twinkle_Update.
    generalize (S_Twinkle_Update (twinkle e) (globals e)). intros r H1 H3.
    close_inv.
  - pose proof (S_TraceChase_Update_leds_ok (traceChase e) _ Hleds) as H1.
    pose proof (S_TraceChase_Update_ok (traceChase e) (globals e) Htc Hci) as H2.
    pose proof (Forall_grows _ _ _
                  (S_TraceChase_Update_in_range (traceChase e) (globals e) Htc Hci)
                  Hst) as H3.
    revert H1 H2 H3. change (@Update _ _) with S_TraceChase_Update.
    generalize (S_TraceChase_Update (traceChase e) (globals e)).
    intros r H1 [H2 H2'] H3.
    close_inv.
  - close_inv.
Qed.

Lemma call_Init_inv `{Platform} k e : engine_inv e → engine_inv (call_Init k e).
Proof.
  intros Hinv. unfold call_Init.
  apply (record_call_inv (Called_Init k)) in Hinv.
  revert Hinv. generalize (record_call (Called_Init k) e). clear e.
  intros e (Hleds & Hrc & Htc & Hci & Hk & Hst).
  destruct (dispatch_cases (@Init) k e) as [[_ ->] | [[_ ->] | [[_ ->] | ->]]];
    [close_inv|close_inv| |close_inv].
  pose proof (S_TraceChase_Init_ok (traceChase e) (globals e) (proj1 Htc)) as H1.
  close_inv.
Qed.

Lemma call_WrapUp_inv `{Platform} k e : engine_inv e → engine_inv (call_WrapUp k e).
Proof.
  intros Hinv. unfold call_WrapUp.
  apply (record_call_inv (Called_WrapUp k)) in Hinv.
  revert Hinv. generalize (record_call (Called_WrapUp k) e). clear e.
  intros e (Hleds & Hrc & Htc & Hci & Hk & Hst).
  destruct (dispatch_cases (@WrapUp) k e) as [[_ ->] | [[_ ->] | [[_ ->] | ->]]];
    close_inv.
Qed.

Lemma loop_inv `{Platform} e : engine_inv e → engine_inv (loop e).
Proof.
  intros Hinv. unfold loop. apply call_Update_inv.
  apply (set_sequenceTimer_inv (sequenceTimer e - 1)) in Hinv.
  revert Hinv. generalize (set_sequenceTimer (sequenceTimer e - 1) e). clear e.
  intros e Hinv.
  assert (engine_inv (if sequenceTimer e =? WRAPUP_WARNING_OFFSET
                      then call_WrapUp (ledSequence e) e else e)) as Hinv'
    by (destruct (_ =? _); [by apply call_WrapUp_inv|done]).
  revert Hinv'. generalize (if sequenceTimer e =? WRAPUP_WARNING_OFFSET
                            then call_WrapUp (ledSequence e) e else e). clear.
  intros e Hinv. destruct (sequenceTimer e <? 0); [|done].
  apply set_sequenceTimer_inv, call_Init_inv, set_ledSequence_inv; [|done].
  destruct Hinv as (_ & _ & _ & _ & Hk & _). unfold NUM_SEQUENCES in *.
  destruct (Z.gtb_spec (ledSequence e + 1) (3 - 1)); lia.
Qed.

Lemma power_on_inv `{Platform} : engine_inv power_on.
Proof.
  unfold engine_inv, power_on. cbn [globals ringChase traceChase ledSequence].
  split_and!; try done.
  - split; [apply length_replicate|]. cbn [leds].
    apply Forall_replicate. repeat split; done.
  - apply S_RingChase_new_ok.
  - split; [apply length_replicate|]. apply Forall_replicate. done.
Qed.

Lemma setup_inv `{Platform} e : engine_inv e → engine_inv (setup e).
Proof.
  intros (Hleds & Hrc & Htc & Hci & Hk & Hst). unfold setup.
  apply call_Init_inv. engine_fields.
  split_and!; try done; try exact Hst; try lia.
  split; cbn [leds FastLED_clear].
  - rewrite length_replicate. apply Hleds.
  - apply Forall_replicate. repeat split; done.
Qed.

Lemma run_S `{Platform} n : run (S n) = loop (run n).
Proof. reflexivity. Qed.

Lemma run_inv `{Platform} n : engine_inv (run n).
Proof.
  induction n as [|n IH].
  - apply setup_inv, power_on_inv.
  - rewrite run_S. by apply loop_inv.
Qed.

(** ** The scheduler *)

(** What one pass of [loop] does to the scheduler, whatever the sequences
    do: the countdown, the index and the calls made. *)
Lemma loop_scheduler `{Platform} e :
  let t := sequenceTimer e - 1 in
  let k' := if t <? 0
            then (if ledSequence e + 1 >? NUM_SEQUENCES - 1 then 0
                  else ledSequence e + 1)
            else ledSequence e in
  sequenceTimer (loop e) = (if t <? 0 then SEQUENCE_DURATION else t) ∧
  ledSequence (loop e) = k' ∧
  calls (loop e) =
    Called_Update k' ::
    (if t <? 0 then [Called_Init k'] else []) ++
    (if t =? WRAPUP_WARNING_OFFSET then [Called_WrapUp (ledSequence e)] else []) ++
    calls e.
Proof.
  intros t k'. unfold loop.
  assert (sequenceTimer (set_sequenceTimer (sequenceTimer e - 1) e) = t ∧
          ledSequence (set_sequenceTimer (sequenceTimer e - 1) e) = ledSequence e ∧
          calls (set_sequenceTimer (sequenceTimer e - 1) e) = calls e) as H0
    by done.
  revert H0. generalize (set_sequenceTimer (sequenceTimer e - 1) e).
  intros e0 (Ht0 & Hk0 & Hc0).
  assert (sequenceTimer (if sequenceTimer e0 =? WRAPUP_WARNING_OFFSET
                         then call_WrapUp (ledSequence e0) e0 else e0) = t ∧
          ledSequence (if sequenceTimer e0 =? WRAPUP_WARNING_OFFSET
                       then call_WrapUp (ledSequence e0) e0 else e0)
            = ledSequence e ∧
          calls (if sequenceTimer e0 =? WRAPUP_WARNING_OFFSET
                 then call_WrapUp (ledSequence e0) e0 else e0)
            = (if t =? WRAPUP_WARNING_OFFSET
               then [Called_WrapUp (ledSequence e)] else []) ++ calls e) as H1.
  { rewrite Ht0. destruct (t =? WRAPUP_WARNING_OFFSET); [|done].
    unfold call_WrapUp.
    destruct (dispatch_scheduler (@WrapUp) (ledSequence e0)
                (record_call (Called_WrapUp (ledSequence e0)) e0)) as (-> & -> & ->).
    cbn [record_call sequenceTimer ledSequence calls]. by rewrite Hk0, Hc0. }
  revert H1. generalize (if sequenceTimer e0 =? WRAPUP_WARNING_OFFSET
                         then call_WrapUp (ledSequence e0) e0 else e0).
  clear e0 Ht0 Hk0 Hc0. intros e1 (Ht1 & Hk1 & Hc1).
  rewrite Ht1.
  assert (∀ e2, sequenceTimer (call_Update (ledSequence e2) e2) = sequenceTimer e2 ∧
                ledSequence (call_Update (ledSequence e2) e2) = ledSequence e2 ∧
                calls (call_Update (ledSequence e2) e2)
                  = Called_Update (ledSequence e2) :: calls e2) as HU.
  { intros e2. unfold call_Update.
    by destruct (dispatch_scheduler (@Update) (ledSequence e2)
                   (record_call (Called_Update (ledSequence e2)) e2))
      as (-> & -> & ->). }
  subst k'. destruct (t <? 0).
  - rewrite Hk1.
    set (k := if ledSequence e + 1 >? NUM_SEQUENCES - 1 then 0 else ledSequence e + 1).
    destruct (HU (set_sequenceTimer SEQUENCE_DURATION
                    (call_Init (ledSequence (set_ledSequence k e1))
                       (set_ledSequence k e1)))) as (-> & -> & ->).
    cbn [set_sequenceTimer sequenceTimer ledSequence calls]. unfold call_Init.
    destruct (dispatch_scheduler (@Init) (ledSequence (set_ledSequence k e1))
                (record_call (Called_Init (ledSequence (set_ledSequence k e1)))
                   (set_ledSequence k e1))) as (_ & -> & ->).
    cbn [record_call set_ledSequence sequenceTimer ledSequence calls].
    by rewrite Hc1.
  - destruct (HU e1) as (-> & -> & ->). by rewrite Ht1, Hk1, Hc1.
Qed.

Lemma run_0_scheduler `{Platform} :
  sequenceTimer (run 0) = SEQUENCE_DURATION ∧ ledSequence (run 0) = 0 ∧
  calls (run 0) = [Called_Init 0].
Proof.
  unfold run. cbn [Nat.iter nat_rect]. unfold setup, call_Init.
  cbn [ledSequence power_on].
  match goal with |- context [dispatch ?m ?k ?e] =>
    destruct (dispatch_scheduler m k e) as (-> & -> & ->) end.
  done.
Qed.

(** The countdown and the index after [n] passes of [loop]. *)
Lemma run_scheduler `{Platform} (n : nat) :
  sequenceTimer (run n) = SEQUENCE_DURATION - Z.of_nat n `mod` (SEQUENCE_DURATION + 1) ∧
  ledSequence (run n) = (Z.of_nat n / (SEQUENCE_DURATION + 1)) `mod` NUM_SEQUENCES.
Proof.
  induction n as [|n [IHt IHk]].
  - destruct run_0_scheduler as (-> & -> & _). done.
  - rewrite run_S. destruct (loop_scheduler (run n)) as (-> & -> & _).
    rewrite IHt, IHk. rewrite Nat2Z.inj_succ.
    unfold SEQUENCE_DURATION, NUM_SEQUENCES.
    destruct (Z.ltb_spec (300 - Z.of_nat n `mod` (300 + 1) - 1) 0);
      [destruct (Z.gtb_spec ((Z.of_nat n / (300 + 1)) `mod` 3 + 1) (3 - 1))|];
      split; dlia.
Qed.

(** The calls made by pass [n + 1] of [loop]. *)
Lemma run_calls `{Platform} (n : nat) :
  let tick := Z.of_nat (S n) `mod` (SEQUENCE_DURATION + 1) in
  calls (run (S n)) =
    Called_Update (ledSequence (run (S n))) ::
    (if tick =? 0 then [Called_Init (ledSequence (run (S n)))] else []) ++
    (if tick =? SEQUENCE_DURATION - WRAPUP_WARNING_OFFSET
     then [Called_WrapUp (ledSequence (run n))] else []) ++
    calls (run n).
Proof.
  intros tick. rewrite run_S.
  destruct (loop_scheduler (run n)) as (_ & -> & ->).
  destruct (run_scheduler n) as (-> & _).
  assert ((SEQUENCE_DURATION - Z.of_nat n `mod` (SEQUENCE_DURATION + 1) - 1 <? 0)
          = (tick =? 0)) as ->.
  { subst tick. rewrite Nat2Z.inj_succ.
    unfold SEQUENCE_DURATION.
    destruct (Z.ltb_spec (300 - Z.of_nat n `mod` (300 + 1) - 1) 0),
             (Z.eqb_spec (Z.succ (Z.of_nat n) `mod` (300 + 1)) 0);
      try done; dlia. }
  assert ((SEQUENCE_DURATION - Z.of_nat n `mod` (SEQUENCE_DURATION + 1) - 1
             =? WRAPUP_WARNING_OFFSET)
          = (tick =? SEQUENCE_DURATION - WRAPUP_WARNING_OFFSET)) as ->.
  { subst tick. rewrite Nat2Z.inj_succ.
    unfold SEQUENCE_DURATION, WRAPUP_WARNING_OFFSET.
    destruct (Z.eqb_spec (300 - Z.of_nat n `mod` (300 + 1) - 1) 20),
             (Z.eqb_spec (Z.succ (Z.of_nat n) `mod` (300 + 1)) (300 - 20));
      try done; dlia. }
  done.
Qed.

(** The two passes of the end-to-end scenario, from the countdown and the
    index before them. *)
Lemma loop_wraps_up `{Platform} e :
  sequenceTimer e = WRAPUP_WARNING_OFFSET + 1 → ledSequence e = 0 →
  calls (loop e) = Called_Update 0 :: Called_WrapUp 0 :: calls e.
Proof.
  intros Ht Hk. destruct (loop_scheduler e) as (_ & _ & ->).
  rewrite Ht, Hk. reflexivity.
Qed.

Lemma loop_rotates `{Platform} e :
  sequenceTimer e = 0 → ledSequence e = 0 →
  calls (loop e) = Called_Update 1 :: Called_Init 1 :: calls e ∧
  sequenceTimer (loop e) = SEQUENCE_DURATION ∧ ledSequence (loop e) = 1.
Proof.
  intros Ht Hk. destruct (loop_scheduler e) as (-> & -> & ->).
  rewrite Ht, Hk. done.
Qed.

(** ** The pulses of S_RingChase *)

Lemma RingChase_ticks_fst `{Platform} n rc g :
  (ticks n (rc, g)).1 = Nat.iter n ring_tick rc.
Proof.
  induction n as [|n IH]; [done|].
  rewrite ticks_S. cbn [Nat.iter nat_rect]. fold (Nat.iter n ring_tick rc).
  by rewrite <- IH.
Qed.

Lemma ring_tick_scalars `{Platform} rc :
  pulseTimer (ring_tick rc) =
    (if pulseTimer rc <=? 0 then S_RING_CHASE_PULSE_FREQUENCY else pulseTimer rc) - 1 ∧
  pulseColorIndex (ring_tick rc) =
    (if pulseTimer rc <=? 0 then next_pulse_color (pulseColorIndex rc)
     else pulseColorIndex rc).
Proof.
  unfold ring_tick, ring_falloff, ring_shift, ring_pulse, next_pulse_color.
  destruct (pulseTimer rc <=? 0); cbn [pulseTimer pulseColorIndex pulseRingShiftTimer pulseRingIndex];
    by destruct (_ && _).
Qed.

(** The tick on which a pulse starts. *)
Lemma ring_pulse_fires `{Platform} rc :
  pulseTimer rc ≤ 0 →
  ring_pulse rc =
  mkRingChase (array_set 0 (S_RING_CHASE_COLORS_at (next_pulse_color (pulseColorIndex rc)))
                 (rings rc))
              (S_RING_CHASE_PULSE_FREQUENCY - 1)
              S_RING_CHASE_RING_SHIFT_FREQUENCY 1
              (next_pulse_color (pulseColorIndex rc)).
Proof.
  intros Ht. unfold ring_pulse. by rewrite (proj2 (Z.leb_le _ _)) by done.
Qed.

(** A pulse reaches ring [k] on the tick [2 * k] after its start, and ring 7
    on the tick 14 and not before. *)
Lemma ring_pulse_propagates `{Platform} rc (k : nat) :
  length (rings rc) = Z.to_nat NUM_STRIPS → pulseTimer rc ≤ 0 →
  0 ≤ pulseColorIndex rc ≤ S_RING_CHASE_NUM_PULSE_COLORS → (k < 8)%nat →
  let c := S_RING_CHASE_COLORS_at (next_pulse_color (pulseColorIndex rc)) in
  rings (Nat.iter 14 ring_tick (ring_tick rc)) !! k =
    Some (Nat.iter (15 - 2 * k) ring_falloff_one c) ∧
  rings (Nat.iter 13 ring_tick (ring_tick rc)) !! 7%nat =
    Nat.iter 14 ring_falloff_one <$> rings rc !! 7%nat ∧
  pulseColorIndex (Nat.iter 14 ring_tick (ring_tick rc)) =
    next_pulse_color (pulseColorIndex rc).
Proof.
  intros Hlen Ht Hci Hk c. subst c. unfold ring_tick at 2 4 6.
  rewrite ring_pulse_fires by done.
  destruct rc as [l pt st ri ci]. cbn [rings pulseColorIndex pulseTimer] in *.
  do 9 (destruct l as [|? l]; try discriminate Hlen). clear Hlen Ht.
  unfold S_RING_CHASE_NUM_PULSE_COLORS in Hci.
  assert (ci = 0 ∨ ci = 1 ∨ ci = 2 ∨ ci = 3) as [-> | [-> | [-> | ->]]] by lia;
    (split_and!;
     [do 8 (destruct k as [|k];
            [lazy -[ring_falloff_one S_RING_CHASE_COLORS_at]; reflexivity|]); lia
     |lazy -[ring_falloff_one S_RING_CHASE_COLORS_at]; reflexivity
     |lazy -[ring_falloff_one S_RING_CHASE_COLORS_at]; reflexivity]).
Qed.

Lemma wf_ring_falloff_one c : wf_CHSV (ring_falloff_one c).
Proof. apply wf_CHSV_of. Qed.

(** [m] ticks of falloff subtract [m] times the rate, down to 0. *)
Lemma iter_ring_falloff_one (m : nat) c :
  wf_CHSV c →
  Nat.iter m ring_falloff_one c =
  mkCHSV (hue c) (sat c)
         (Z.max 0 (val c - S_RING_CHASE_FALLOF_RATE * Z.of_nat m)).
Proof.
  intros Hc. induction m as [|m IH].
  - destruct c as [h s v]. destruct Hc as (_ & _ & Hv).
    unfold byte_range in Hv. cbn in *. f_equal. lia.
  - cbn [Nat.iter nat_rect]. fold (Nat.iter m ring_falloff_one c). rewrite IH.
    rewrite ring_falloff_one_eq.
    + cbn [hue sat val]. f_equal. unfold S_RING_CHASE_FALLOF_RATE. lia.
    + rewrite <- IH. clear IH. destruct m; [done|apply wf_ring_falloff_one].
Qed.

(** From [Init], a pulse starts every S_RING_CHASE_PULSE_FREQUENCY ticks and
    the pulses go through the palette in order. *)
Lemma ring_pulses_cycle `{Platform} rc (n : nat) :
  pulseTimer rc = 0 → pulseColorIndex rc = S_RING_CHASE_NUM_PULSE_COLORS →
  pulseTimer (Nat.iter (S n) ring_tick rc) =
    S_RING_CHASE_PULSE_FREQUENCY - 1 - Z.of_nat n `mod` S_RING_CHASE_PULSE_FREQUENCY ∧
  pulseColorIndex (Nat.iter (S n) ring_tick rc) =
    (Z.of_nat n / S_RING_CHASE_PULSE_FREQUENCY) `mod` S_RING_CHASE_NUM_PULSE_COLORS.
Proof.
  intros Ht Hc. induction n as [|n [IHt IHc]].
  - cbn [Nat.iter nat_rect]. destruct (ring_tick_scalars rc) as [-> ->].
    rewrite Ht, Hc. done.
  - change (Nat.iter (S (S n)) ring_tick rc)
      with (ring_tick (Nat.iter (S n) ring_tick rc)).
    destruct (ring_tick_scalars (Nat.iter (S n) ring_tick rc)) as [-> ->].
    rewrite IHt, IHc. rewrite Nat2Z.inj_succ.
    unfold next_pulse_color, S_RING_CHASE_PULSE_FREQUENCY,
      S_RING_CHASE_NUM_PULSE_COLORS.
    destruct (Z.leb_spec (45 - 1 - Z.of_nat n `mod` 45) 0);
      [destruct (Z.geb_spec ((Z.of_nat n / 45) `mod` 3 + 1) 3)|]; split; dlia.
Qed.

(** ** The range of the [int]s *)

Lemma ring_tick_bounds `{Platform} rc :
  0 ≤ pulseTimer rc ≤ 9999 →
  pulseRingShiftTimer rc ≤ S_RING_CHASE_RING_SHIFT_FREQUENCY →
  0 ≤ pulseRingIndex rc ≤ NUM_STRIPS →
  0 ≤ pulseColorIndex rc ≤ S_RING_CHASE_NUM_PULSE_COLORS →
  0 ≤ pulseTimer (ring_tick rc) ≤ 9999 ∧
  pulseRingShiftTimer rc - 1 ≤ pulseRingShiftTimer (ring_tick rc)
    ≤ S_RING_CHASE_RING_SHIFT_FREQUENCY ∧
  0 ≤ pulseRingIndex (ring_tick rc) ≤ NUM_STRIPS ∧
  0 ≤ pulseColorIndex (ring_tick rc) ≤ S_RING_CHASE_NUM_PULSE_COLORS.
Proof.
  unfold ring_tick, ring_falloff, ring_shift, ring_pulse, next_pulse_color.
  unfold S_RING_CHASE_RING_SHIFT_FREQUENCY, S_RING_CHASE_PULSE_FREQUENCY,
    S_RING_CHASE_NUM_PULSE_COLORS, NUM_STRIPS.
  intros Hpt Hst Hri Hci.
  destruct (Z.leb_spec (pulseTimer rc) 0);
    cbn [pulseTimer pulseRingShiftTimer pulseRingIndex pulseColorIndex].
  - change (2 <=? 0) with false. cbn [andb].
    cbn [pulseTimer pulseRingShiftTimer pulseRingIndex pulseColorIndex].
    destruct (Z.geb_spec (pulseColorIndex rc + 1) 3); lia.
  - destruct (Z.leb_spec (pulseRingShiftTimer rc) 0),
             (Z.ltb_spec (pulseRingIndex rc) 8); cbn [andb];
      cbn [pulseTimer pulseRingShiftTimer pulseRingIndex pulseColorIndex]; lia.
Qed.

Lemma twinkle_spark_timer `{Platform} tw g :
  0 ≤ twinkleTimer tw ≤ S_TWINKLE_FREQUENCY →
  0 ≤ twinkleTimer (twinkle_spark tw g).1 ≤ S_TWINKLE_FREQUENCY.
Proof.
  intros Ht.
  destruct (Z.le_gt_cases (twinkleTimer tw) 0).
  - rewrite twinkle_spark_fires by done. cbn [fst twinkleTimer].
    unfold S_TWINKLE_FREQUENCY. lia.
  - rewrite twinkle_spark_waits by done. cbn [fst twinkleTimer]. lia.
Qed.

(** What one pass of [loop] does to S_RingChase and to S_Twinkle. *)
Lemma loop_sequences `{Platform} e :
  0 ≤ ledSequence e < NUM_SEQUENCES →
  let t := sequenceTimer e - 1 in
  let k := ledSequence e in
  let k' := ledSequence (loop e) in
  let rc1 := if (t =? WRAPUP_WARNING_OFFSET) && (k =? 0)
             then (S_RingChase_WrapUp (ringChase e) (globals e)).1
             else ringChase e in
  let rc2 := if (t <? 0) && (k' =? 0)
             then (S_RingChase_Init rc1 (globals e)).1 else rc1 in
  ringChase (loop e) = (if k' =? 0 then ring_tick rc2 else rc2) ∧
  twinkle (loop e) =
    (if k' =? 1 then (twinkle_spark (twinkle e) (globals e)).1 else twinkle e).
Proof.
  intros Hk t k k'.
  destruct (loop_scheduler e) as (_ & Ek' & _). fold k' t k in Ek'.
  revert Ek'. generalize k'. clear k'. intros k' ->.
  destruct e as [g rc tw tc T k0 c].
  cbn [sequenceTimer ledSequence ringChase twinkle globals] in *. subst t k.
  unfold NUM_SEQUENCES in Hk.
  unfold loop. cbn [set_sequenceTimer sequenceTimer ledSequence globals ringChase
                    twinkle traceChase calls].
  assert (k0 = 0 ∨ k0 = 1 ∨ k0 = 2) as [-> | [-> | ->]] by lia;
    destruct (T - 1 =? WRAPUP_WARNING_OFFSET);
    cbn -[Update Init WrapUp S_RingChase_WrapUp S_RingChase_Init ring_tick
          twinkle_spark Z.sub Z.ltb];
    destruct (T - 1 <? 0);
    cbn -[Update Init WrapUp S_RingChase_WrapUp S_RingChase_Init ring_tick
          twinkle_spark Z.sub Z.ltb];
    (split; reflexivity).
Qed.

Lemma loop_ints `{Platform} e : ints_ok e → ints_ok (loop e).
Proof.
  intros (HT & Hk & Hpt & Hst & Hrel & Hri & Hci & Htw).
  destruct (loop_scheduler e) as (ET & Ek & _).
  destruct (loop_sequences e Hk) as (Erc & Etw).
  cbv zeta in *. unfold ints_ok. rewrite Erc, Etw, ET, Ek. clear Erc Etw ET Ek.
  revert HT Hk Hpt Hst Hrel Hri Hci Htw.
  generalize (twinkle_spark_timer (twinkle e) (globals e)).
  generalize (twinkle_spark (twinkle e) (globals e)).
  generalize (sequenceTimer e) (ledSequence e) (twinkle e) (ringChase e)
    (globals e).
  clear e. intros T k tw rc g tw' Htw' HT Hk Hpt Hst Hrel Hri Hci Htw.
  specialize (Htw' Htw).
  unfold SEQUENCE_DURATION, NUM_SEQUENCES, WRAPUP_WARNING_OFFSET,
    S_RING_CHASE_RING_SHIFT_FREQUENCY, S_RING_CHASE_NUM_PULSE_COLORS,
    NUM_STRIPS, S_TWINKLE_FREQUENCY in *.
  destruct (Z.ltb_spec (T - 1) 0) as [Hrot|Hrot].
  - rewrite (proj2 (Z.eqb_neq (T - 1) 20)) by lia. cbn [andb].
    destruct (Z.gtb_spec (k + 1) (3 - 1)) as [Hn|Hn].
    + change (0 =? 0) with true. change (0 =? 1) with false. cbn [andb].
      pose proof (ring_tick_bounds (S_RingChase_Init rc g).1)
        as Hb.
      cbn [S_RingChase_Init fst pulseTimer pulseRingShiftTimer pulseRingIndex
           pulseColorIndex] in Hb.
      unfold S_RING_CHASE_RING_SHIFT_FREQUENCY, S_RING_CHASE_NUM_PULSE_COLORS,
        NUM_STRIPS in Hb.
        destruct Hb as (?&?&?&?); [lia..|].
        cbn [S_RingChase_Init S_RingChase_WrapUp fst].
        unfold S_RING_CHASE_NUM_PULSE_COLORS. split_and!; try lia.
    + destruct (Z.eqb_spec (k + 1) 0); [lia|].
      destruct (Z.eqb_spec (k + 1) 1); lia.
  - cbn [andb].
    destruct (Z.eqb_spec k 0) as [->|Hk0].
    + change (0 =? 1) with false.
      destruct (Z.eqb_spec (T - 1) 20) as [E|E]; cbn [andb].
      * pose proof (ring_tick_bounds (S_RingChase_WrapUp rc g).1) as Hb.
        cbn [S_RingChase_WrapUp fst pulseTimer pulseRingShiftTimer pulseRingIndex
             pulseColorIndex] in Hb.
        unfold S_RING_CHASE_RING_SHIFT_FREQUENCY, S_RING_CHASE_NUM_PULSE_COLORS,
          NUM_STRIPS in Hb.
        destruct Hb as (?&?&?&?); [lia..|].
        cbn [S_RingChase_Init S_RingChase_WrapUp fst].
        unfold S_RING_CHASE_NUM_PULSE_COLORS. split_and!; try lia.
      * pose proof (ring_tick_bounds rc) as Hb.
        unfold S_RING_CHASE_RING_SHIFT_FREQUENCY, S_RING_CHASE_NUM_PULSE_COLORS,
          NUM_STRIPS in Hb.
        destruct Hb as (?&?&?&?); [lia..|].
        cbn [S_RingChase_Init S_RingChase_WrapUp fst].
        unfold S_RING_CHASE_NUM_PULSE_COLORS. split_and!; try lia.
    + rewrite andb_false_r. destruct (Z.eqb_spec k 1); split_and!; lia.
Qed.

Lemma run_ints `{Platform} n : ints_ok (run n).
Proof.
  induction n as [|n IH].
  - unfold ints_ok.
    assert (sequenceTimer (run 0) = 300 ∧ ledSequence (run 0) = 0 ∧
            pulseTimer (ringChase (run 0)) = 0 ∧
            pulseRingShiftTimer (ringChase (run 0)) = 0 ∧
            pulseRingIndex (ringChase (run 0)) = 0 ∧
            pulseColorIndex (ringChase (run 0)) = 3 ∧
            twinkleTimer (twinkle (run 0)) = 0)
      as (-> & -> & -> & -> & -> & -> & ->) by (split_and!; reflexivity).
    unfold SEQUENCE_DURATION, NUM_SEQUENCES, S_RING_CHASE_RING_SHIFT_FREQUENCY,
      NUM_STRIPS, S_RING_CHASE_NUM_PULSE_COLORS, S_TWINKLE_FREQUENCY.
    split_and!; lia.
  - rewrite run_S. by apply loop_ints.
Qed.

(** No [int] of the engine leaves the 16-bit range, so that the model may
    take them in [Z]. *)
Lemma run_ints_in_range `{Platform} n :
  let e := run n in
  int_range (sequenceTimer e) ∧ int_range (ledSequence e) ∧
  int_range (pulseTimer (ringChase e)) ∧
  int_range (pulseRingShiftTimer (ringChase e)) ∧
  int_range (pulseRingIndex (ringChase e)) ∧
  int_range (pulseColorIndex (ringChase e)) ∧
  int_range (twinkleTimer (twinkle e)) ∧
  int_range (traceColorIndex (traceChase e)) ∧
  Forall int_range (traces (traceChase e)).
Proof.
  intros e. subst e.
  destruct (run_ints n) as (HT & Hk & Hpt & Hst & _ & Hri & Hci & Htw).
  destruct (run_inv n) as (_ & _ & [_ Htr] & Htc & _).
  revert HT Hk Hpt Hst Hri Hci Htw Htr Htc. generalize (run n). intros e.
  unfold int_range, SEQUENCE_DURATION, NUM_SEQUENCES,
    S_RING_CHASE_RING_SHIFT_FREQUENCY, NUM_STRIPS, S_RING_CHASE_NUM_PULSE_COLORS,
    S_TWINKLE_FREQUENCY, NUM_STRIP_LEDS.
  intros. split_and!; try lia.
  eapply Forall_impl; [done|]. intros t Ht. cbn beta in Ht. lia.
Qed.

(** * The claims *)

(** C1: the scheduler, with SEQUENCE_DURATION = 300, WRAPUP_WARNING_OFFSET =
    20 and three sequences.  After [setup] the index is 0, [Init] has been
    called on it and the countdown is 300.  A cycle has 301 passes of
    [loop]: pass number [tick] calls [WrapUp] exactly when [tick mod 301] is
    280, which is when the countdown just decremented equals the offset, and
    on the sequence still current; it rotates exactly when [tick mod 301] is
    0, when the countdown has fallen below zero: the index becomes
    (index + 1) mod 3, [Init] is called on the new sequence and the
    countdown is 300 again; every pass calls [Update] on the current
    sequence.  So pass 280 calls [WrapUp] on sequence 0 and pass 301 calls
    [Init] on sequence 1, and the index has period 3 cycles. *)
Theorem scheduler_rotation `{Platform} (n : nat) :
  let cycle := SEQUENCE_DURATION + 1 in
  let tick := Z.of_nat (S n) in
  (sequenceTimer (run 0) = SEQUENCE_DURATION ∧ ledSequence (run 0) = 0 ∧
   calls (run 0) = [Called_Init 0]) ∧
  (sequenceTimer (run (S n)) = SEQUENCE_DURATION - tick `mod` cycle ∧
   ledSequence (run (S n)) = (tick / cycle) `mod` NUM_SEQUENCES) ∧
  calls (run (S n)) =
    Called_Update (ledSequence (run (S n))) ::
    (if tick `mod` cycle =? 0
     then [Called_Init (ledSequence (run (S n)))] else []) ++
    (if tick `mod` cycle =? SEQUENCE_DURATION - WRAPUP_WARNING_OFFSET
     then [Called_WrapUp (ledSequence (run n))] else []) ++
    calls (run n) ∧
  (tick `mod` cycle =? SEQUENCE_DURATION - WRAPUP_WARNING_OFFSET)
    = (sequenceTimer (run (S n)) =? WRAPUP_WARNING_OFFSET) ∧
  (tick `mod` cycle =? 0) = (sequenceTimer (run n) - 1 <? 0) ∧
  ledSequence (run (S n)) =
    (if tick `mod` cycle =? 0
     then (ledSequence (run n) + 1) `mod` NUM_SEQUENCES
     else ledSequence (run n)) ∧
  calls (run 280) = Called_Update 0 :: Called_WrapUp 0 :: calls (run 279) ∧
  (calls (run 301) = Called_Update 1 :: Called_Init 1 :: calls (run 300) ∧
   sequenceTimer (run 301) = SEQUENCE_DURATION ∧ ledSequence (run 301) = 1) ∧
  ledSequence (run (n + 3 * 301)) = ledSequence (run n).
Proof.
  intros cycle tick. split_and!.
  - apply run_0_scheduler.
  - apply run_0_scheduler.
  - apply run_0_scheduler.
  - apply run_scheduler.
  - apply run_scheduler.
  - apply run_calls.
  - destruct (run_scheduler (S n)) as (-> & _). fold tick cycle.
    unfold cycle, SEQUENCE_DURATION, WRAPUP_WARNING_OFFSET.
    destruct (Z.eqb_spec (tick `mod` (300 + 1)) (300 - 20)),
             (Z.eqb_spec (300 - tick `mod` (300 + 1)) 20); try done; dlia.
  - destruct (run_scheduler n) as (-> & _).
    subst tick cycle. rewrite Nat2Z.inj_succ. unfold SEQUENCE_DURATION.
    destruct (Z.eqb_spec (Z.succ (Z.of_nat n) `mod` (300 + 1)) 0),
             (Z.ltb_spec (300 - Z.of_nat n `mod` (300 + 1) - 1) 0);
      try done; dlia.
  - destruct (run_scheduler (S n)) as (_ & ->).
    destruct (run_scheduler n) as (_ & ->).
    subst tick cycle. rewrite Nat2Z.inj_succ.
    unfold SEQUENCE_DURATION, NUM_SEQUENCES.
    destruct (Z.eqb_spec (Z.succ (Z.of_nat n) `mod` (300 + 1)) 0); dlia.
  - rewrite (run_S 279). apply loop_wraps_up.
    + by destruct (run_scheduler 279) as (-> & _).
    + by destruct (run_scheduler 279) as (_ & ->).
  - rewrite (run_S 300). apply loop_rotates.
    + by destruct (run_scheduler 300) as (-> & _).
    + by destruct (run_scheduler 300) as (_ & ->).
  - by destruct (run_scheduler 301) as (-> & _).
  - by destruct (run_scheduler 301) as (_ & ->).
  - destruct (run_scheduler (n + 3 * 301)) as (_ & ->).
    destruct (run_scheduler n) as (_ & ->).
    rewrite Nat2Z.inj_add. unfold SEQUENCE_DURATION, NUM_SEQUENCES.
    change (Z.of_nat (3 * 301)) with 903. dlia.
Qed.

(** C2: every channel that an [Update] leaves in [leds], and every channel
    of a colour it assigns, is a byte; the falloff of S_RingChase subtracts
    the rate and stops at 0, never below; the fading loop that ends the
    [Update] of S_Twinkle and of S_TraceChase raises no channel of any LED.
    In the engine [leds] holds bytes after any number of passes of [loop]. *)
Theorem channels_stay_bytes `{Platform}
    (rc : S_RingChase) (tw : S_Twinkle) (tc : S_TraceChase) (g : Globals)
    (n : nat) :
  leds_ok g → RingChase_ok rc → TraceChase_ok tc → traceColorIndex tc = 0 →
  (leds_ok (Update rc g).2 ∧ leds_ok (Update tw g).2 ∧ leds_ok (Update tc g).2) ∧
  (Forall (λ a, wf_CHSV a.2) (assignments (new_stores g (Update rc g).2)) ∧
   Forall (λ a, wf_CHSV a.2) (assignments (new_stores g (Update tw g).2)) ∧
   Forall (λ a, wf_CHSV a.2) (assignments (new_stores g (Update tc g).2))) ∧
  (RingChase_ok (Update rc g).1 ∧
   rings (Update rc g).1 = ring_falloff_one <$> rings (ring_shift (ring_pulse rc)) ∧
   ∀ c, wf_CHSV c →
     ring_falloff_one c =
       mkCHSV (hue c) (sat c) (Z.max 0 (val c - S_RING_CHASE_FALLOF_RATE)) ∧
     0 ≤ val (ring_falloff_one c) ≤ val c) ∧
  (Forall2 CRGB_le (leds (Update tw g).2) (leds (twinkle_spark tw g).2) ∧
   Forall2 CRGB_le (leds (Update tc g).2) (leds (trace_advance tc g).2)) ∧
  leds_ok (globals (run n)).
Proof.
  intros Hleds Hrc Htc Hci. split_and!.
  - by apply S_RingChase_Update_leds_ok.
  - by apply S_Twinkle_Update_leds_ok.
  - by apply S_TraceChase_Update_leds_ok.
  - apply assignments_bytes, grows_new_stores.
    change (Update rc g).2 with (ring_render (S_RingChase_Update rc g).1 g).
    eapply grows_impl;
      [|apply ring_render_grows; by apply S_RingChase_Update_ok].
    by intros [] [_ ?].
  - apply assignments_bytes, grows_new_stores.
    eapply grows_impl; [|apply S_Twinkle_Update_grows]. by intros s [_ ?].
  - apply assignments_bytes, grows_new_stores.
    eapply grows_impl; [|by apply S_TraceChase_Update_grows]. by intros s [_ ?].
  - by apply S_RingChase_Update_ok.
  - apply ring_falloff_rings.
    by apply ring_shift_ok, ring_pulse_ok.
  - intros c Hc. split; [by apply ring_falloff_one_eq|].
    rewrite ring_falloff_one_eq by done. cbn [val].
    destruct Hc as (_ & _ & Hv). unfold byte_range, S_RING_CHASE_FALLOF_RATE in *.
    lia.
  - apply fade_loop_le. by apply twinkle_spark_ok.
  - apply fade_loop_le. by apply trace_advance_ok.
  - apply run_inv.
Qed.

Lemma channels_stay_bytes_witness :
  let tc := (@S_TraceChase_Init S_TraceChase_new (globals (@power_on bench))).1 in
  let g := globals (@power_on bench) in
  let rc := @S_RingChase_new bench in
  let tw := S_Twinkle_new in
  let H := bench in
  (leds_ok g ∧ RingChase_ok rc ∧ TraceChase_ok tc ∧ traceColorIndex tc = 0) ∧
  (leds_ok (Update rc g).2 ∧ leds_ok (Update tw g).2 ∧ leds_ok (Update tc g).2) ∧
  (Forall (λ a, wf_CHSV a.2) (assignments (new_stores g (Update rc g).2)) ∧
   Forall (λ a, wf_CHSV a.2) (assignments (new_stores g (Update tw g).2)) ∧
   Forall (λ a, wf_CHSV a.2) (assignments (new_stores g (Update tc g).2))) ∧
  (RingChase_ok (Update rc g).1 ∧
   rings (Update rc g).1 = ring_falloff_one <$> rings (ring_shift (ring_pulse rc)) ∧
   ∀ c, wf_CHSV c →
     ring_falloff_one c =
       mkCHSV (hue c) (sat c) (Z.max 0 (val c - S_RING_CHASE_FALLOF_RATE)) ∧
     0 ≤ val (ring_falloff_one c) ≤ val c) ∧
  (Forall2 CRGB_le (leds (Update tw g).2) (leds (twinkle_spark tw g).2) ∧
   Forall2 CRGB_le (leds (Update tc g).2) (leds (trace_advance tc g).2)) ∧
  leds_ok (globals (run 2)).
Proof.
  intros tc g rc tw H.
  assert (leds_ok g) as Hg by apply (@power_on_inv bench).
  assert (RingChase_ok rc) as Hrc by apply (@S_RingChase_new_ok bench).
  assert (TraceChase_ok tc) as Htc by (apply S_TraceChase_Init_ok; reflexivity).
  split; [split_and!; [exact Hg|exact Hrc|exact Htc|reflexivity]|].
  apply (@channels_stay_bytes bench rc tw tc g 2%nat Hg Hrc Htc). reflexivity.
Defined.

(** C3, as amended.  [Init] of S_TraceChase sets every trace, so [Init]
    then [Update] gives the same state and the same [leds] whatever came
    before, as on a fresh instance.  [Init] of S_RingChase puts the two
    timers and the two indices back to their values in a fresh instance and
    leaves [rings] as it is: the next [Update] then agrees with the first
    [Update] of a fresh instance on the timers, on the indices and on ring 0,
    where a pulse of palette colour 0 starts, while the other rings go on
    fading from what they held.  [Init] of S_Twinkle does nothing: the
    twinkle timer is not reset. *)
Theorem Init_resets `{Platform}
    (rc : S_RingChase) (tw : S_Twinkle) (tc : S_TraceChase) (g : Globals) :
  length (rings rc) = Z.to_nat NUM_STRIPS →
  length (traces tc) = Z.to_nat NUM_STRIPS → traceColorIndex tc = 0 →
  ((Init tc g).1 = (Init S_TraceChase_new g).1 ∧
   Update (Init tc g).1 g = Update (Init S_TraceChase_new g).1 g) ∧
  (let a := (Update (Init rc g).1 g).1 in
   let b := (Update S_RingChase_new g).1 in
   pulseTimer (Init rc g).1 = pulseTimer S_RingChase_new ∧
   pulseRingShiftTimer (Init rc g).1 = pulseRingShiftTimer S_RingChase_new ∧
   pulseRingIndex (Init rc g).1 = pulseRingIndex S_RingChase_new ∧
   pulseColorIndex (Init rc g).1 = pulseColorIndex S_RingChase_new ∧
   rings (Init rc g).1 = rings rc ∧
   pulseTimer a = pulseTimer b ∧
   pulseRingShiftTimer a = pulseRingShiftTimer b ∧
   pulseRingIndex a = pulseRingIndex b ∧
   pulseColorIndex a = pulseColorIndex b ∧
   rings a !! 0%nat = rings b !! 0%nat ∧
   rings a = ring_falloff_one <$> <[0%nat := S_RING_CHASE_COLORS_at 0]> (rings rc)) ∧
  Init tw g = (tw, g).
Proof.
  intros Hrc Htc Hci. split; [|split; [|reflexivity]].
  - assert ((Init tc g).1 = (Init S_TraceChase_new g).1) as E.
    { destruct tc as [l ci]. cbn [traces traceColorIndex] in *. subst ci.
      do 9 (destruct l as [|? l]; try discriminate Htc). reflexivity. }
    split; [exact E|]. by rewrite E.
  - intros a b. subst a b.
    destruct rc as [l pt st ri ci]. cbn [rings] in Hrc.
    do 9 (destruct l as [|? l]; try discriminate Hrc).
    split_and!; lazy -[ring_falloff_one S_RING_CHASE_COLORS_at]; reflexivity.
Qed.

Lemma Init_resets_witness :
  let H := bench in
  let rc := (ticks 3 (S_RingChase_new, globals power_on)).1 in
  let tc := (ticks 1 (S_TraceChase_new, globals power_on)).1 in
  let tw := (ticks 1 (S_Twinkle_new, globals power_on)).1 in
  let g := globals power_on in
  (length (rings rc) = Z.to_nat NUM_STRIPS ∧
   length (traces tc) = Z.to_nat NUM_STRIPS ∧ traceColorIndex tc = 0) ∧
  ((Init tc g).1 = (Init S_TraceChase_new g).1 ∧
   Update (Init tc g).1 g = Update (Init S_TraceChase_new g).1 g) ∧
  (let a := (Update (Init rc g).1 g).1 in
   let b := (Update S_RingChase_new g).1 in
   pulseTimer (Init rc g).1 = pulseTimer S_RingChase_new ∧
   pulseRingShiftTimer (Init rc g).1 = pulseRingShiftTimer S_RingChase_new ∧
   pulseRingIndex (Init rc g).1 = pulseRingIndex S_RingChase_new ∧
   pulseColorIndex (Init rc g).1 = pulseColorIndex S_RingChase_new ∧
   rings (Init rc g).1 = rings rc ∧
   pulseTimer a = pulseTimer b ∧
   pulseRingShiftTimer a = pulseRingShiftTimer b ∧
   pulseRingIndex a = pulseRingIndex b ∧
   pulseColorIndex a = pulseColorIndex b ∧
   rings a !! 0%nat = rings b !! 0%nat ∧
   rings a = ring_falloff_one <$> <[0%nat := S_RING_CHASE_COLORS_at 0]> (rings rc)) ∧
  Init tw g = (tw, g).
Proof.
  intros H rc tc tw g.
  assert (length (rings rc) = Z.to_nat NUM_STRIPS) as Hrc
    by (vm_compute; reflexivity).
  assert (length (traces tc) = Z.to_nat NUM_STRIPS) as Htc
    by (vm_compute; reflexivity).
  assert (traceColorIndex tc = 0) as Hci by (vm_compute; reflexivity).
  split; [by split_and!|].
  exact (@Init_resets bench rc tw tc g Hrc Htc Hci).
Defined.

(** The claim C3 as it is written fails.  S_Twinkle: after one [Update],
    [Init] then [Update] leaves the timer at 0 where the first [Update] of a
    fresh instance, on the same globals, leaves it at 1 (and lights an LED).
    S_RingChase: after three calls of [Update], [Init] then [Update] leaves
    ring 1 with what is left of the first pulse, not what a fresh instance
    has there. *)
Lemma Init_does_not_reset_all :
  let H := bench in
  let tw1 := ticks 1 (S_Twinkle_new, globals power_on) in
  let rc3 := ticks 3 (S_RingChase_new, globals power_on) in
  Update (Init tw1.1 tw1.2).1 tw1.2 ≠ Update S_Twinkle_new tw1.2 ∧
  Update (Init rc3.1 rc3.2).1 rc3.2 ≠ Update S_RingChase_new rc3.2.
Proof.
  intros H tw1 rc3. split; intros Heq.
  - apply (f_equal (λ p, twinkleTimer p.1)) in Heq.
    vm_compute in Heq. discriminate Heq.
  - apply (f_equal (λ p, rings p.1 !! 1%nat)) in Heq.
    vm_compute in Heq. discriminate Heq.
Qed.

(** C4, as amended: in an [Update] of S_TraceChase entered with colour
    index 0 (as it is at the start and after every [Update]), the LEDs
    assigned on strip [j] get palette entry [j mod 3]; three LEDs are assigned
    per strip, the last of them the new position of the strip; the colour
    index is 0 again at the end. *)
Theorem TraceChase_strip_colors `{Platform}
    (tc : S_TraceChase) (g : Globals) :
  TraceChase_ok tc → traceColorIndex tc = 0 →
  let assigned := assignments (new_stores g (Update tc g).2) in
  Forall (λ a, 0 ≤ a.1 < NUM_STRIPS * NUM_STRIP_LEDS ∧
               a.2 = S_TRACE_CHASE_COLORS_at ((a.1 / NUM_STRIP_LEDS) `mod` 3))
         assigned ∧
  length assigned = Z.to_nat (S_TRACE_SPEED * NUM_STRIPS) ∧
  (∀ (j : nat) t, traces tc !! j = Some t →
     (GetStrip (Z.of_nat j) + advance (Z.of_nat j) t,
      S_TRACE_CHASE_COLORS_at (Z.of_nat j `mod` 3)) ∈ assigned) ∧
  traceColorIndex (Update tc g).1 = 0.
Proof.
  intros Hok Hci. cbn [Update TraceChase_LEDSequence].
  rewrite S_TraceChase_Update_eq.
  pose proof (trace_advance_spec tc g Hok Hci) as Hspec.
  pose proof (fade_loop_faded (255 - S_TRACE_FALLOFF_RATE) (trace_advance tc g).2)
    as Hfade.
  revert Hspec Hfade. generalize (trace_advance tc g). intros s Hspec.
  generalize (fade_loop (255 - S_TRACE_FALLOFF_RATE) s.2). intros g' Hfade.
  destruct Hspec as (_ & _ & _ & _ & l & Hs & Hf & Hn & Hin).
  destruct Hfade as (lf & Ef & Ff).
  cbn [fst snd traceColorIndex].
  erewrite new_stores_app by (rewrite Ef, Hs; apply app_assoc).
  rewrite assignments_app, (assignments_faded lf Ff). cbn [app].
  destruct (assignments_traced l Hf) as [HF HL].
  repeat split; try done.
  - by rewrite HL.
  - intros j t Ht. by apply elem_of_assignments, Hin.
Qed.

Lemma TraceChase_strip_colors_witness :
  let tc := (@S_TraceChase_Init S_TraceChase_new (globals (@power_on bench))).1 in
  let g := globals (@power_on bench) in
  (TraceChase_ok tc ∧ traceColorIndex tc = 0) ∧
  let assigned :=
    assignments (new_stores g (@Update _ (@TraceChase_LEDSequence bench) tc g).2) in
  Forall (λ a, 0 ≤ a.1 < NUM_STRIPS * NUM_STRIP_LEDS ∧
               a.2 = S_TRACE_CHASE_COLORS_at ((a.1 / NUM_STRIP_LEDS) `mod` 3))
         assigned ∧
  length assigned = Z.to_nat (S_TRACE_SPEED * NUM_STRIPS) ∧
  (∀ (j : nat) t, traces tc !! j = Some t →
     (GetStrip (Z.of_nat j) + advance (Z.of_nat j) t,
      S_TRACE_CHASE_COLORS_at (Z.of_nat j `mod` 3)) ∈ assigned) ∧
  traceColorIndex (@Update _ (@TraceChase_LEDSequence bench) tc g).1 = 0.
Proof.
  assert (TraceChase_ok
            (@S_TraceChase_Init S_TraceChase_new (globals (@power_on bench))).1)
    as Hok.
  { split; [done|]. vm_compute. repeat constructor; discriminate. }
  split; [by split|].
  apply (@TraceChase_strip_colors bench _ _ Hok). done.
Defined.

(** The claim C4 as it is written fails: after [Init] on the cleared array,
    the newest assignment of the first [Update] (made on strip 7) has palette
    entry 1, not entry 0. *)
Lemma TraceChase_one_color_fails :
  let tc := (@S_TraceChase_Init S_TraceChase_new (globals (@power_on bench))).1 in
  let g := globals (@power_on bench) in
  ¬ Forall (λ a, a.2 = S_TRACE_CHASE_COLORS_at 0)
      (assignments (new_stores g (@Update _ (@TraceChase_LEDSequence bench) tc g).2)).
Proof.
  intros tc g HF.
  apply (Forall_lookup_1 _ _ 0%nat (1092, CHSV_of 30 255 255)) in HF.
  - vm_compute in HF. discriminate.
  - vm_compute. reflexivity.
Qed.

(** C5: when a pulse starts, after the 2 * 7 = 14 ticks that follow every
    ring holds the colour of that pulse, a palette entry, faded since the
    tick on which the ring received it (ring [k] on the tick [2 * k]); ring 7
    receives it on the tick 14 and has only faded until then.  From [Init]
    the pulses start every 45 ticks and take the palette indices 0, 1, 2, 0,
    ... in turn. *)
Theorem RingChase_pulse_reaches_every_ring `{Platform}
    (rc : S_RingChase) (g : Globals) (k n : nat) :
  RingChase_ok rc → pulseTimer rc ≤ 0 →
  0 ≤ pulseColorIndex rc ≤ S_RING_CHASE_NUM_PULSE_COLORS →
  Z.of_nat k < NUM_STRIPS →
  let ci := next_pulse_color (pulseColorIndex rc) in
  let c := S_RING_CHASE_COLORS_at ci in
  let delay := Z.to_nat (S_RING_CHASE_RING_SHIFT_FREQUENCY * (NUM_STRIPS - 1)) in
  let after (m : nat) := (ticks (S m) (rc, g)).1 in
  delay = 14%nat ∧
  S_RING_CHASE_COLORS !! Z.to_nat ci = Some c ∧
  ci = (if pulseColorIndex rc =? S_RING_CHASE_NUM_PULSE_COLORS then 0
        else (pulseColorIndex rc + 1) `mod` S_RING_CHASE_NUM_PULSE_COLORS) ∧
  pulseColorIndex (after 0%nat) = ci ∧
  pulseColorIndex (after delay) = ci ∧
  rings (after delay) !! k =
    Some (mkCHSV (hue c) (sat c)
            (255 - S_RING_CHASE_FALLOF_RATE * (Z.of_nat delay + 1 - 2 * Z.of_nat k))) ∧
  rings (after (delay - 1)%nat) !! 7%nat =
    Nat.iter delay ring_falloff_one <$> rings rc !! 7%nat ∧
  let s := (ticks (S n) ((Init rc g).1, g)).1 in
  pulseTimer s =
    S_RING_CHASE_PULSE_FREQUENCY - 1 - Z.of_nat n `mod` S_RING_CHASE_PULSE_FREQUENCY ∧
  pulseColorIndex s =
    (Z.of_nat n / S_RING_CHASE_PULSE_FREQUENCY) `mod` S_RING_CHASE_NUM_PULSE_COLORS.
Proof.
  intros [Hlen Hwf] Ht Hci Hk ci c delay after.
  assert (delay = 14%nat) as Hd by reflexivity.
  assert (k < 8)%nat as Hk' by (unfold NUM_STRIPS in Hk; lia).
  destruct (ring_pulse_propagates rc k Hlen Ht Hci Hk') as (Hall & H7 & Hcol).
  assert (∀ m, after m = Nat.iter m ring_tick (ring_tick rc)) as Hafter.
  { intros m. unfold after. rewrite RingChase_ticks_fst.
    by rewrite Nat.iter_succ_r. }
  assert (S_RING_CHASE_COLORS !! Z.to_nat ci = Some c ∧ val c = 255) as [Hpal Hval].
  { subst c ci. unfold S_RING_CHASE_NUM_PULSE_COLORS in Hci.
    assert (pulseColorIndex rc = 0 ∨ pulseColorIndex rc = 1 ∨
            pulseColorIndex rc = 2 ∨ pulseColorIndex rc = 3)
      as [-> | [-> | [-> | ->]]] by lia; done. }
  split_and!.
  - exact Hd.
  - exact Hpal.
  - subst ci. unfold next_pulse_color, S_RING_CHASE_NUM_PULSE_COLORS in *.
    destruct (Z.geb_spec (pulseColorIndex rc + 1) 3),
             (Z.eqb_spec (pulseColorIndex rc) 3); dlia.
  - rewrite Hafter. cbn [Nat.iter nat_rect].
    by destruct (ring_tick_scalars rc) as [_ ->];
      rewrite (proj2 (Z.leb_le _ _)) by done.
  - rewrite Hafter, Hd. exact Hcol.
  - rewrite Hafter, Hd, Hall. f_equal.
    rewrite iter_ring_falloff_one by apply wf_S_RING_CHASE_COLORS_at.
    fold ci c. rewrite Hval. f_equal.
    unfold S_RING_CHASE_FALLOF_RATE. lia.
  - rewrite Hafter, Hd. exact H7.
  - intros s. subst s. rewrite RingChase_ticks_fst.
    by apply ring_pulses_cycle.
Qed.

Lemma RingChase_pulse_reaches_every_ring_witness :
  let H := bench in
  let rc := S_RingChase_new in
  let g := globals power_on in
  (RingChase_ok rc ∧ pulseTimer rc ≤ 0 ∧
   0 ≤ pulseColorIndex rc ≤ S_RING_CHASE_NUM_PULSE_COLORS ∧
   Z.of_nat 3 < NUM_STRIPS) ∧
  let ci := next_pulse_color (pulseColorIndex rc) in
  let c := S_RING_CHASE_COLORS_at ci in
  let delay := Z.to_nat (S_RING_CHASE_RING_SHIFT_FREQUENCY * (NUM_STRIPS - 1)) in
  let after (m : nat) := (ticks (S m) (rc, g)).1 in
  delay = 14%nat ∧
  S_RING_CHASE_COLORS !! Z.to_nat ci = Some c ∧
  ci = (if pulseColorIndex rc =? S_RING_CHASE_NUM_PULSE_COLORS then 0
        else (pulseColorIndex rc + 1) `mod` S_RING_CHASE_NUM_PULSE_COLORS) ∧
  pulseColorIndex (after 0%nat) = ci ∧
  pulseColorIndex (after delay) = ci ∧
  rings (after delay) !! 3%nat =
    Some (mkCHSV (hue c) (sat c)
            (255 - S_RING_CHASE_FALLOF_RATE * (Z.of_nat delay + 1 - 2 * Z.of_nat 3))) ∧
  rings (after (delay - 1)%nat) !! 7%nat =
    Nat.iter delay ring_falloff_one <$> rings rc !! 7%nat ∧
  let s := (ticks (S 50) ((Init rc g).1, g)).1 in
  pulseTimer s =
    S_RING_CHASE_PULSE_FREQUENCY - 1 - Z.of_nat 50 `mod` S_RING_CHASE_PULSE_FREQUENCY ∧
  pulseColorIndex s =
    (Z.of_nat 50 / S_RING_CHASE_PULSE_FREQUENCY) `mod` S_RING_CHASE_NUM_PULSE_COLORS.
Proof.
  intros H rc g.
  assert (RingChase_ok rc) as Hrc by apply (@S_RingChase_new_ok bench).
  split; [split_and!; [exact Hrc|done|done|done|done]|].
  apply (@RingChase_pulse_reaches_every_ring bench rc g 3%nat 50%nat Hrc); done.
Defined.

(** C6: when the twinkle timer fires, [Update] assigns exactly one LED; its
    index is neither 0 nor the last index of the array, whatever [random()]
    returns, and the value of its colour lies in
    [255 - S_TWINKLE_BRIGHTNESS_VARIANCE, 255]. *)
Theorem Twinkle_position_and_brightness `{Platform} (tw : S_Twinkle) (g : Globals) :
  twinkleTimer tw ≤ 0 →
  ∃ pos c,
    assignments (new_stores g (Update tw g).2) = [(pos, c)] ∧
    pos ≠ 0 ∧ pos ≠ NUM_STRIPS * NUM_STRIP_LEDS - 1 ∧
    255 - S_TWINKLE_BRIGHTNESS_VARIANCE ≤ val c ≤ 255.
Proof.
  intros Ht. cbn [Update Twinkle_LEDSequence].
  rewrite S_Twinkle_Update_eq, twinkle_spark_fires by done.
  pose proof (twinkle_draw_spec g) as Hd.
  destruct (twinkle_draw g) as [[pos c] g']. cbn [fst snd].
  destruct Hd as (Hp & Hb & _ & _ & _ & Hs).
  exists pos, c. split.
  - destruct (fade_loop_faded (255 - S_TWINKLE_FALLOFF_RATE) (leds_assign pos c g'))
      as (l & E & F).
    erewrite new_stores_app
      by (rewrite E; cbn [stores leds_assign]; rewrite Hs;
          exact (app_assoc l [_] _)).
    rewrite assignments_app, assignments_faded by done. done.
  - unfold NUM_STRIPS, NUM_STRIP_LEDS in *. lia.
Qed.

Lemma Twinkle_position_and_brightness_witness :
  twinkleTimer (@S_Twinkle_new) ≤ 0 ∧
  ∃ pos c,
    assignments (new_stores (globals (@power_on bench))
                   (@Update _ (@Twinkle_LEDSequence bench) S_Twinkle_new
                       (globals (@power_on bench))).2) = [(pos, c)] ∧
    pos ≠ 0 ∧ pos ≠ NUM_STRIPS * NUM_STRIP_LEDS - 1 ∧
    255 - S_TWINKLE_BRIGHTNESS_VARIANCE ≤ val c ≤ 255.
Proof.
  split; [done|].
  apply (@Twinkle_position_and_brightness bench S_Twinkle_new). done.
Defined.

(** C7: with ZIG_ZAG set, one [Update] moves strip [j] by [S_TRACE_SPEED] = 3
    LEDs, wrapping inside [0, NUM_STRIP_LEDS); the direction is backwards on
    odd strips and forwards on even ones; the positions of a strip repeat
    after NUM_STRIP_LEDS positions, that is after 50 calls (and so after 150
    calls too). *)
Theorem TraceChase_position_sequence `{Platform}
    (tc : S_TraceChase) (g : Globals) (j : nat) (t : Z) (n : nat) :
  TraceChase_ok tc → traceColorIndex tc = 0 → traces tc !! j = Some t →
  let pos (m : nat) := array_get 0 (Z.of_nat j) (traces (ticks m (tc, g)).1) in
  let step := if Z.of_nat j `rem` 2 =? 1 then - S_TRACE_SPEED else S_TRACE_SPEED in
  ZIG_ZAG = true ∧
  pos (S n) = (pos n + step) `mod` NUM_STRIP_LEDS ∧
  pos n = (t + Z.of_nat n * step) `mod` NUM_STRIP_LEDS ∧
  0 ≤ pos n < NUM_STRIP_LEDS ∧
  pos (n + 50)%nat = pos n ∧
  pos (n + Z.to_nat NUM_STRIP_LEDS)%nat = pos n.
Proof.
  intros Hok Hci Hj pos step.
  assert (∀ m, pos m = (t + Z.of_nat m * step) `mod` NUM_STRIP_LEDS) as Hpos.
  { intros m. unfold pos.
    destruct (TraceChase_ticks tc g m Hok Hci) as (_ & _ & Hm).
    rewrite (array_get_lookup _ _ _ _ (Hm _ _ Hj)). f_equal. f_equal. f_equal.
    unfold step, heading. destruct (_ =? 1); lia. }
  split; [done|]. rewrite !Hpos.
  assert (step = 3 ∨ step = -3) as Hstep
    by (unfold step, S_TRACE_SPEED; destruct (_ =? 1); lia).
  unfold NUM_STRIP_LEDS. repeat split.
  - rewrite Zplus_mod_idemp_l. f_equal. lia.
  - dlia.
  - dlia.
  - rewrite Nat2Z.inj_add.
    replace (t + (Z.of_nat n + Z.of_nat 50) * step)
      with (t + Z.of_nat n * step + (step / 3) * 150)
      by (destruct Hstep as [-> | ->];
          [change (3 / 3) with 1|change (-3 / 3) with (-1)]; lia).
    apply Z_mod_plus_full.
  - rewrite Nat2Z.inj_add.
    replace (t + (Z.of_nat n + Z.of_nat (Z.to_nat 150)) * step)
      with (t + Z.of_nat n * step + step * 150) by lia.
    apply Z_mod_plus_full.
Qed.

Lemma TraceChase_position_sequence_witness :
  let tc := (@S_TraceChase_Init S_TraceChase_new (globals (@power_on bench))).1 in
  let g := globals (@power_on bench) in
  (TraceChase_ok tc ∧ traceColorIndex tc = 0 ∧ traces tc !! 1%nat = Some 135) ∧
  let pos (m : nat) :=
    array_get 0 (Z.of_nat 1)
      (traces (@ticks _ (@TraceChase_LEDSequence bench) m (tc, g)).1) in
  let step := if Z.of_nat 1 `rem` 2 =? 1 then - S_TRACE_SPEED else S_TRACE_SPEED in
  ZIG_ZAG = true ∧
  pos 3%nat = (pos 2%nat + step) `mod` NUM_STRIP_LEDS ∧
  pos 2%nat = (135 + Z.of_nat 2 * step) `mod` NUM_STRIP_LEDS ∧
  0 ≤ pos 2%nat < NUM_STRIP_LEDS ∧
  pos (2 + 50)%nat = pos 2%nat ∧
  pos (2 + Z.to_nat NUM_STRIP_LEDS)%nat = pos 2%nat.
Proof.
  assert (TraceChase_ok
            (@S_TraceChase_Init S_TraceChase_new (globals (@power_on bench))).1)
    as Hok.
  { split; [done|]. vm_compute. repeat constructor; discriminate. }
  split; [split; [exact Hok|split; reflexivity]|].
  apply (@TraceChase_position_sequence bench _ _ 1%nat 135 2%nat Hok);
    reflexivity.
Defined.

(** C8: [WrapUp] of each of the three sequences leaves the globals, and so
    every entry of [leds], as they are; through the scheduler a [WrapUp]
    call changes nothing but the sequence it is made on. *)
Theorem WrapUp_keeps_leds `{Platform}
    (rc : S_RingChase) (tw : S_Twinkle) (tc : S_TraceChase) (g : Globals)
    (k : Z) (e : Engine) :
  (WrapUp rc g).2 = g ∧ (WrapUp tw g).2 = g ∧ (WrapUp tc g).2 = g ∧
  leds (WrapUp rc g).2 = leds g ∧
  leds (WrapUp tw g).2 = leds g ∧
  leds (WrapUp tc g).2 = leds g ∧
  (WrapUp rc g).1 =
    mkRingChase (rings rc) 9999 (pulseRingShiftTimer rc) (pulseRingIndex rc)
                (pulseColorIndex rc) ∧
  (WrapUp tw g).1 = tw ∧ (WrapUp tc g).1 = tc ∧
  globals (call_WrapUp k e) = globals e ∧
  leds (globals (call_WrapUp k e)) = leds (globals e) ∧
  sequenceTimer (call_WrapUp k e) = sequenceTimer e ∧
  ledSequence (call_WrapUp k e) = ledSequence e.
Proof.
  repeat split; try done;
    unfold call_WrapUp, dispatch;
    destruct k as [|[[|[]|]|[|[]|]|]|]; done.
Qed.

(** C9: every store of every [Update] has its index inside [leds]: for
    S_RingChase and S_Twinkle from any state and whatever [random()]
    returns, for S_TraceChase from a state where every trace is a position
    on its strip, which [Update] keeps so; in the engine this holds of every
    store ever made, and of the traces after any number of passes of
    [loop]. *)
Theorem Update_stores_in_range `{Platform}
    (rc : S_RingChase) (tw : S_Twinkle) (tc : S_TraceChase) (g : Globals)
    (n : nat) :
  TraceChase_ok tc → traceColorIndex tc = 0 →
  Forall in_range (new_stores g (Update rc g).2) ∧
  Forall in_range (new_stores g (Update tw g).2) ∧
  Forall in_range (new_stores g (Update tc g).2) ∧
  TraceChase_ok (Update tc g).1 ∧
  TraceChase_ok (traceChase (run n)) ∧
  Forall in_range (stores (globals (run n))).
Proof.
  intros Hok Hci. split_and!.
  - apply grows_new_stores, S_RingChase_Update_grows.
  - apply grows_new_stores, S_Twinkle_Update_in_range.
  - by apply grows_new_stores, S_TraceChase_Update_in_range.
  - by apply S_TraceChase_Update_ok.
  - apply run_inv.
  - apply run_inv.
Qed.

Lemma Update_stores_in_range_witness :
  let tc := (@S_TraceChase_Init S_TraceChase_new (globals (@power_on bench))).1 in
  let g := globals (@power_on bench) in
  (TraceChase_ok tc ∧ traceColorIndex tc = 0) ∧
  Forall in_range
    (new_stores g (@Update _ (@RingChase_LEDSequence bench)
                       (@S_RingChase_new bench) g).2) ∧
  Forall in_range
    (new_stores g (@Update _ (@Twinkle_LEDSequence bench) S_Twinkle_new g).2) ∧
  Forall in_range
    (new_stores g (@Update _ (@TraceChase_LEDSequence bench) tc g).2) ∧
  TraceChase_ok (@Update _ (@TraceChase_LEDSequence bench) tc g).1 ∧
  TraceChase_ok (traceChase (@run bench 2)) ∧
  Forall in_range (stores (globals (@run bench 2))).
Proof.
  assert (TraceChase_ok
            (@S_TraceChase_Init S_TraceChase_new (globals (@power_on bench))).1)
    as Hok by (apply S_TraceChase_Init_ok; reflexivity).
  split; [split; [exact Hok|reflexivity]|].
  apply (@Update_stores_in_range bench _ _ _ _ 2%nat Hok). reflexivity.
Defined.

(** C10: the constructor of S_RingChase (like [Init]) leaves
    [pulseColorIndex] at the length of the palette, 3, and fills the rings
    from [S_RING_CHASE_COLORS[pulseColorIndex]]: the palette has no entry
    there (its last entry is at index 2), so every ring starts from the
    bytes stored after the palette and not from one of its entries. *)
Theorem RingChase_constructor_reads_past_palette `{Platform}
    (rc : S_RingChase) (g : Globals) :
  pulseColorIndex S_RingChase_new = S_RING_CHASE_NUM_PULSE_COLORS ∧
  pulseColorIndex (Init rc g).1 = S_RING_CHASE_NUM_PULSE_COLORS ∧
  S_RING_CHASE_NUM_PULSE_COLORS = 3 ∧
  length S_RING_CHASE_COLORS = 3%nat ∧
  S_RING_CHASE_COLORS !! Z.to_nat (pulseColorIndex S_RingChase_new) = None ∧
  S_RING_CHASE_COLORS !! 2%nat = Some (CHSV_of 96 255 255) ∧
  rings S_RingChase_new =
    replicate (Z.to_nat NUM_STRIPS)
              (S_RING_CHASE_COLORS_at (pulseColorIndex S_RingChase_new)) ∧
  S_RING_CHASE_COLORS_at (pulseColorIndex S_RingChase_new) =
    (let '(a, b, c) := past_S_RING_CHASE_COLORS in CHSV_of a b c).
Proof. split_and!; reflexivity. Qed.

(** * Further properties of the final sketch *)

(** ** The index of an LED *)



(** ** The frame of S_RingChase *)

(** The loop over [j] of [ring_render]: the LEDs of one strip. *)
Lemma paint_strip_lookup `{Platform} (n base : nat) c g (k : nat) :
  (base + n ≤ length (leds g))%nat →
  let g' := for_upto n (λ j, leds_assign (Z.of_nat base + j) c) g in
  length (leds g') = length (leds g) ∧
  leds g' !! k =
    if bool_decide (base ≤ k < base + n)%nat then Some (CRGB_of_CHSV c)
    else leds g !! k.
Proof.
  cbn zeta. induction n as [|n IH]; intros Hlen.
  - cbn [for_upto]. split; [done|]. rewrite bool_decide_false by lia. done.
  - cbn [for_upto]. destruct IH as [IHl IHk]; [lia|].
    cbn [leds leds_assign]. rewrite length_array_set. split; [done|].
    unfold array_set. rewrite bool_decide_true by lia.
    replace (Z.to_nat (Z.of_nat base + Z.of_nat n)) with (base + n)%nat by lia.
    destruct (decide (k = base + n)%nat) as [->|Hne].
    + rewrite list_lookup_insert_eq by lia. rewrite bool_decide_true by lia. done.
    + rewrite list_lookup_insert_ne by lia. rewrite IHk.
      repeat case_bool_decide; (done || lia).
Qed.

Lemma ring_render_lookup `{Platform} rc g (k : nat) :
  length (leds g) = Z.to_nat (NUM_STRIPS * NUM_STRIP_LEDS) →
  length (rings rc) = Z.to_nat NUM_STRIPS →
  (k < length (leds g))%nat →
  length (leds (ring_render rc g)) = length (leds g) ∧
  leds (ring_render rc g) !! k =
    CRGB_of_CHSV <$> rings rc !! (k / Z.to_nat NUM_STRIP_LEDS)%nat.
Proof.
  intros Hlen Hrings Hk.
  set (Inv := λ (i : Z) (g' : Globals),
    length (leds g') = length (leds g) ∧
    ∀ k : nat, leds g' !! k =
      if bool_decide (Z.of_nat k < i * NUM_STRIP_LEDS)
      then CRGB_of_CHSV <$> rings rc !! (k / Z.to_nat NUM_STRIP_LEDS)%nat
      else leds g !! k).
  assert (Inv (Z.of_nat (Z.to_nat NUM_STRIPS)) (ring_render rc g)) as [HL HInv].
  { unfold ring_render. apply for_upto_inv.
    - split; [done|]. intros k'.
      rewrite bool_decide_false by (unfold NUM_STRIP_LEDS; lia). done.
    - intros i g' Hi [Hl Hlook].
      assert (GetStrip i = Z.of_nat (Z.to_nat (i * NUM_STRIP_LEDS))) as ->
        by (unfold GetStrip, NUM_STRIP_LEDS; lia).
      pose proof (paint_strip_lookup (Z.to_nat NUM_STRIP_LEDS)
                    (Z.to_nat (i * NUM_STRIP_LEDS))
                    (array_get (mkCHSV 0 0 0) i (rings rc)) g') as Hp.
      cbn zeta in Hp. split.
      + destruct (Hp 0%nat) as [-> _]; [|done].
        rewrite Hl, Hlen. unfold NUM_STRIPS, NUM_STRIP_LEDS in *. lia.
      + intros k'. destruct (Hp k') as [_ ->].
        { rewrite Hl, Hlen. unfold NUM_STRIPS, NUM_STRIP_LEDS in *. lia. }
        rewrite Hlook. unfold NUM_STRIPS, NUM_STRIP_LEDS in *.
        destruct (lookup_lt_is_Some_2 (rings rc) (Z.to_nat i)) as [c Hc]; [lia|].
        assert (array_get (mkCHSV 0 0 0) i (rings rc) = c) as ->.
        { rewrite <- (Z2Nat.id i) by lia. by apply array_get_lookup. }
        repeat case_bool_decide; try done; try lia.
        * assert (k' / Z.to_nat 150 = Z.to_nat i)%nat as ->; [|by rewrite Hc].
          apply Nat2Z.inj. rewrite Nat2Z.inj_div.
          rewrite !Z2Nat.id by lia. dlia. }
  split; [done|].
  rewrite HInv. rewrite bool_decide_true; [done|].
  rewrite Hlen in Hk. unfold NUM_STRIPS, NUM_STRIP_LEDS in *. lia.
Qed.

Lemma ring_tick_length `{Platform} rc :
  length (rings rc) = Z.to_nat NUM_STRIPS →
  length (rings (ring_tick rc)) = Z.to_nat NUM_STRIPS.
Proof.
  intros Hl. unfold ring_tick.
  assert (length (rings (ring_shift (ring_pulse rc))) = Z.to_nat NUM_STRIPS) as Hl'.
  { unfold ring_shift, ring_pulse.
    repeat case_match; cbn [rings]; rewrite ?length_array_set; done. }
  rewrite ring_falloff_rings by done. by rewrite length_fmap.
Qed.

(** X2: with [leds] and [rings] at their declared sizes, [Update] of
    S_RingChase leaves LED [j] of strip [i] with the colour that ring [i] has
    after the call, converted to RGB: the whole array is rewritten, and what
    it held before the call has no effect on what it holds after. *)
Theorem RingChase_Update_paints_every_led `{Platform}
    (rc : S_RingChase) (g g0 : Globals) :
  length (leds g) = Z.to_nat (NUM_STRIPS * NUM_STRIP_LEDS) →
  length (leds g0) = Z.to_nat (NUM_STRIPS * NUM_STRIP_LEDS) →
  length (rings rc) = Z.to_nat NUM_STRIPS →
  (∀ i j : nat, Z.of_nat i < NUM_STRIPS → Z.of_nat j < NUM_STRIP_LEDS →
     leds (Update rc g).2 !! Z.to_nat (GetStrip (Z.of_nat i) + Z.of_nat j) =
     CRGB_of_CHSV <$> rings (Update rc g).1 !! i) ∧
  leds (Update rc g).2 = leds (Update rc g0).2.
Proof.
  intros Hg Hg0 Hrc.
  pose proof (ring_tick_length rc Hrc) as Hrc'.
  cbn [Update RingChase_LEDSequence]. unfold S_RingChase_Update. cbn [fst snd].
  revert Hrc'. generalize (ring_tick rc). intros rc' Hrc'. split.
  - intros i j Hi Hj.
    assert (Z.to_nat (GetStrip (Z.of_nat i) + Z.of_nat j) < length (leds g))%nat
      as Hk by (rewrite Hg; unfold GetStrip, NUM_STRIPS, NUM_STRIP_LEDS in *; lia).
    destruct (ring_render_lookup rc' g _ Hg Hrc' Hk) as [_ ->].
    do 2 f_equal. unfold GetStrip, NUM_STRIPS, NUM_STRIP_LEDS in *.
    apply Nat2Z.inj. rewrite Nat2Z.inj_div. rewrite !Z2Nat.id by lia. dlia.
  - assert (0 < length (leds g))%nat as Hg1
      by (rewrite Hg; unfold NUM_STRIPS, NUM_STRIP_LEDS; lia).
    assert (0 < length (leds g0))%nat as Hg2
      by (rewrite Hg0; unfold NUM_STRIPS, NUM_STRIP_LEDS; lia).
    destruct (ring_render_lookup rc' g 0 Hg Hrc' Hg1) as [L _].
    destruct (ring_render_lookup rc' g0 0 Hg0 Hrc' Hg2) as [L0 _].
    apply list_eq. intros k.
    destruct (decide (k < length (leds g))%nat) as [Hk|Hk].
    + assert (k < length (leds g0))%nat as Hk0 by (rewrite Hg0, <- Hg; exact Hk).
      destruct (ring_render_lookup rc' g k Hg Hrc' Hk) as [_ ->].
      destruct (ring_render_lookup rc' g0 k Hg0 Hrc' Hk0) as [_ ->]. reflexivity.
    + rewrite !lookup_ge_None_2; [reflexivity| |].
      * rewrite L0, Hg0, <- Hg. lia.
      * rewrite L. lia.
Qed.

Lemma RingChase_Update_paints_every_led_witness :
  let H := bench in
  let rc := S_RingChase_new in
  let g := globals power_on in
  let g0 := (ticks 1 (S_Twinkle_new, globals power_on)).2 in
  (length (leds g) = Z.to_nat (NUM_STRIPS * NUM_STRIP_LEDS) ∧
   length (leds g0) = Z.to_nat (NUM_STRIPS * NUM_STRIP_LEDS) ∧
   length (rings rc) = Z.to_nat NUM_STRIPS) ∧
  (∀ i j : nat, Z.of_nat i < NUM_STRIPS → Z.of_nat j < NUM_STRIP_LEDS →
     leds (Update rc g).2 !! Z.to_nat (GetStrip (Z.of_nat i) + Z.of_nat j) =
     CRGB_of_CHSV <$> rings (Update rc g).1 !! i) ∧
  leds (Update rc g).2 = leds (Update rc g0).2.
Proof.
  intros H rc g g0.
  assert (length (leds g) = Z.to_nat (NUM_STRIPS * NUM_STRIP_LEDS)) as H1
    by (vm_compute; reflexivity).
  assert (length (leds g0) = Z.to_nat (NUM_STRIPS * NUM_STRIP_LEDS)) as H2
    by (vm_compute; reflexivity).
  assert (length (rings rc) = Z.to_nat NUM_STRIPS) as H3
    by (vm_compute; reflexivity).
  split; [split_and!; assumption|].
  exact (@RingChase_Update_paints_every_led bench rc g g0 H1 H2 H3).
Defined.

(** ** S_RingChase without pulses *)

Lemma ring_tick_quiet `{Platform} rc :
  0 < pulseTimer rc → 1 ≤ pulseRingIndex rc →
  length (rings rc) = Z.to_nat NUM_STRIPS →
  rings (ring_tick rc) !! 0%nat = ring_falloff_one <$> rings rc !! 0%nat ∧
  1 ≤ pulseRingIndex (ring_tick rc).
Proof.
  intros Ht Hi Hl. unfold ring_tick.
  assert (ring_pulse rc =
          mkRingChase (rings rc) (pulseTimer rc - 1) (pulseRingShiftTimer rc)
                      (pulseRingIndex rc) (pulseColorIndex rc)) as ->.
  { unfold ring_pulse. destruct (Z.leb_spec (pulseTimer rc) 0); [lia|done]. }
  rewrite ring_falloff_rings.
  - rewrite list_lookup_fmap. unfold ring_shift.
    cbn [rings pulseTimer pulseRingShiftTimer pulseRingIndex pulseColorIndex].
    case_match; cbn [rings pulseRingIndex ring_falloff]; [|done].
    unfold array_set. rewrite bool_decide_true by lia.
    rewrite list_lookup_insert_ne by lia. split; [done|lia].
  - unfold ring_shift. case_match; cbn [rings]; rewrite ?length_array_set; done.
Qed.

Lemma ring_tick_idle `{Platform} rc :
  0 < pulseTimer rc → NUM_STRIPS ≤ pulseRingIndex rc →
  length (rings rc) = Z.to_nat NUM_STRIPS →
  ring_tick rc =
  mkRingChase (ring_falloff_one <$> rings rc) (pulseTimer rc - 1)
              (pulseRingShiftTimer rc - 1) (pulseRingIndex rc)
              (pulseColorIndex rc).
Proof.
  intros Ht Hi Hl. unfold ring_tick.
  assert (ring_pulse rc =
          mkRingChase (rings rc) (pulseTimer rc - 1) (pulseRingShiftTimer rc)
                      (pulseRingIndex rc) (pulseColorIndex rc)) as ->.
  { unfold ring_pulse. destruct (Z.leb_spec (pulseTimer rc) 0); [lia|done]. }
  assert (∀ r a b c d, ring_shift (mkRingChase r a b c d) =
            if (b <=? 0) && (c <? NUM_STRIPS)
            then mkRingChase (array_set c (S_RING_CHASE_COLORS_at d) r) a
                   (S_RING_CHASE_RING_SHIFT_FREQUENCY - 1) (c + 1) d
            else mkRingChase r a (b - 1) c d) as ->.
  { intros. unfold ring_shift.
    cbn [rings pulseTimer pulseRingShiftTimer pulseRingIndex pulseColorIndex].
    by case_match. }
  destruct (Z.ltb_spec (pulseRingIndex rc) NUM_STRIPS); [lia|].
  rewrite andb_false_r. unfold ring_falloff at 1.
  cbn [rings pulseTimer pulseRingShiftTimer pulseRingIndex pulseColorIndex].
  f_equal.
  change (for_upto _ _ (rings rc)) with
    (rings (ring_falloff (mkRingChase (rings rc) 0 0 0 0))).
  by rewrite ring_falloff_rings.
Qed.

(** X3: after [WrapUp], the next 9999 calls of [Update] of S_RingChase
    start no pulse: the pulse timer counts down from 9999, the palette index
    stays, and ring 0 (where a pulse would start) only fades, once the
    pulse under way has left it. *)
Theorem RingChase_WrapUp_starts_no_pulse `{Platform}
    (rc : S_RingChase) (g : Globals) (n : nat) :
  length (rings rc) = Z.to_nat NUM_STRIPS → 1 ≤ pulseRingIndex rc →
  Z.of_nat n ≤ 9999 →
  let s := (ticks n ((WrapUp rc g).1, g)).1 in
  pulseTimer s = 9999 - Z.of_nat n ∧
  pulseColorIndex s = pulseColorIndex rc ∧
  rings s !! 0%nat = Nat.iter n ring_falloff_one <$> rings rc !! 0%nat.
Proof.
  intros Hl Hi Hn s. subst s. rewrite RingChase_ticks_fst.
  cbn [WrapUp RingChase_LEDSequence S_RingChase_WrapUp fst].
  assert (let s := Nat.iter n ring_tick
                     (mkRingChase (rings rc) 9999 (pulseRingShiftTimer rc)
                        (pulseRingIndex rc) (pulseColorIndex rc)) in
          pulseTimer s = 9999 - Z.of_nat n ∧
          pulseColorIndex s = pulseColorIndex rc ∧
          rings s !! 0%nat = Nat.iter n ring_falloff_one <$> rings rc !! 0%nat ∧
          1 ≤ pulseRingIndex s ∧ length (rings s) = Z.to_nat NUM_STRIPS) as Hs.
  { induction n as [|n IH]; cbn zeta.
    - cbn [Nat.iter nat_rect pulseTimer pulseColorIndex rings pulseRingIndex].
      split_and!; try done. by destruct (rings rc !! 0%nat).
    - rewrite Nat.iter_succ. cbn zeta in IH.
      specialize (IH ltac:(lia)). destruct IH as (It & Ic & Ir & Ii & Il).
      revert It Ic Ir Ii Il.
      generalize (Nat.iter n ring_tick
                    (mkRingChase (rings rc) 9999 (pulseRingShiftTimer rc)
                       (pulseRingIndex rc) (pulseColorIndex rc))).
      intros s It Ic Ir Ii Il.
      destruct (ring_tick_scalars s) as [-> ->].
      destruct (ring_tick_quiet s) as [-> Hi']; [lia|done|done|].
      destruct (Z.leb_spec (pulseTimer s) 0); [lia|].
      split_and!; [lia|done| |done|by apply ring_tick_length].
      rewrite Ir. by destruct (rings rc !! 0%nat). }
  cbn zeta in Hs. destruct Hs as (? & ? & ? & _). done.
Qed.

Lemma RingChase_WrapUp_starts_no_pulse_witness :
  let H := bench in
  let rc := Nat.iter 3 ring_tick S_RingChase_new in
  let g := globals power_on in
  (length (rings rc) = Z.to_nat NUM_STRIPS ∧ 1 ≤ pulseRingIndex rc ∧
   Z.of_nat 20 ≤ 9999) ∧
  let s := (ticks 20 ((WrapUp rc g).1, g)).1 in
  pulseTimer s = 9999 - Z.of_nat 20 ∧
  pulseColorIndex s = pulseColorIndex rc ∧
  rings s !! 0%nat = Nat.iter 20 ring_falloff_one <$> rings rc !! 0%nat.
Proof.
  intros H rc g.
  assert (length (rings rc) = Z.to_nat NUM_STRIPS) as H1
    by (vm_compute; reflexivity).
  assert (1 ≤ pulseRingIndex rc) as H2 by (vm_compute; discriminate).
  assert (Z.of_nat 20 ≤ 9999) as H3 by lia.
  split; [split_and!; assumption|].
  exact (@RingChase_WrapUp_starts_no_pulse bench rc g 20%nat H1 H2 H3).
Defined.

Lemma iter_ring_tick_idle `{Platform} rc (n : nat) :
  length (rings rc) = Z.to_nat NUM_STRIPS → NUM_STRIPS ≤ pulseRingIndex rc →
  Z.of_nat n ≤ pulseTimer rc →
  Nat.iter n ring_tick rc =
  mkRingChase (Nat.iter n ring_falloff_one <$> rings rc)
              (pulseTimer rc - Z.of_nat n) (pulseRingShiftTimer rc - Z.of_nat n)
              (pulseRingIndex rc) (pulseColorIndex rc).
Proof.
  intros Hl Hi. induction n as [|n IH]; intros Hn.
  - destruct rc as [r a b c d]. cbn [Nat.iter nat_rect rings pulseTimer pulseRingShiftTimer
                      pulseRingIndex pulseColorIndex].
    rewrite list_fmap_id. f_equal; lia.
  - rewrite Nat.iter_succ, IH by lia.
    rewrite ring_tick_idle;
      cbn [rings pulseTimer pulseRingShiftTimer pulseRingIndex pulseColorIndex];
      [|lia|done|by rewrite length_fmap].
    rewrite <- list_fmap_compose. f_equal; lia.
Qed.

(** X4: when the pulse has reached the last ring and the pulse timer
    does not run out, [n] calls of [Update] of S_RingChase only fade:
    every ring keeps hue and saturation and loses
    [S_RING_CHASE_FALLOF_RATE * n] of its value, down to 0 and not below; 32
    calls leave every ring at value 0. *)
Theorem RingChase_fades_to_black `{Platform}
    (rc : S_RingChase) (g : Globals) (n : nat) :
  RingChase_ok rc → NUM_STRIPS ≤ pulseRingIndex rc →
  Z.of_nat n ≤ pulseTimer rc →
  let s := (ticks n (rc, g)).1 in
  rings s =
    (λ c, mkCHSV (hue c) (sat c)
            (Z.max 0 (val c - S_RING_CHASE_FALLOF_RATE * Z.of_nat n)))
    <$> rings rc ∧
  pulseColorIndex s = pulseColorIndex rc ∧
  (32 ≤ Z.of_nat n → Forall (λ c, val c = 0) (rings s)).
Proof.
  intros [Hl Hwf] Hi Hn s. subst s. rewrite RingChase_ticks_fst.
  rewrite iter_ring_tick_idle by done. cbn [rings pulseColorIndex].
  assert (Nat.iter n ring_falloff_one <$> rings rc =
          (λ c, mkCHSV (hue c) (sat c)
                  (Z.max 0 (val c - S_RING_CHASE_FALLOF_RATE * Z.of_nat n)))
          <$> rings rc) as ->.
  { apply Forall_fmap_ext. eapply Forall_impl; [exact Hwf|].
    intros c Hc. by apply iter_ring_falloff_one. }
  split_and!; [done|done|]. intros H32.
  apply Forall_fmap. eapply Forall_impl; [exact Hwf|].
  intros c (_ & _ & Hv). unfold byte_range in Hv. cbn [val compose].
  unfold S_RING_CHASE_FALLOF_RATE. lia.
Qed.

Lemma RingChase_fades_to_black_witness :
  let H := bench in
  let rc := (WrapUp (Nat.iter 15 ring_tick S_RingChase_new)
                    (globals power_on)).1 in
  let g := globals power_on in
  (RingChase_ok rc ∧ NUM_STRIPS ≤ pulseRingIndex rc ∧
   Z.of_nat 32 ≤ pulseTimer rc) ∧
  let s := (ticks 32 (rc, g)).1 in
  rings s =
    (λ c, mkCHSV (hue c) (sat c)
            (Z.max 0 (val c - S_RING_CHASE_FALLOF_RATE * Z.of_nat 32)))
    <$> rings rc ∧
  pulseColorIndex s = pulseColorIndex rc ∧
  (32 ≤ Z.of_nat 32 → Forall (λ c, val c = 0) (rings s)).
Proof.
  intros H rc g.
  assert (RingChase_ok rc) as H1.
  { split; [vm_compute; reflexivity|].
    vm_compute. repeat constructor; discriminate. }
  assert (NUM_STRIPS ≤ pulseRingIndex rc) as H2 by (vm_compute; discriminate).
  assert (Z.of_nat 32 ≤ pulseTimer rc) as H3 by (vm_compute; discriminate).
  split; [split_and!; assumption|].
  exact (@RingChase_fades_to_black bench rc g 32%nat H1 H2 H3).
Defined.

(** ** The timer of S_Twinkle *)

Lemma fade_loop_drawn `{Platform} sc g : drawn (fade_loop sc g) = drawn g.
Proof.
  unfold fade_loop. generalize (Z.to_nat (NUM_STRIPS * NUM_STRIP_LEDS)).
  intros n. induction n as [|n IH]; cbn [for_upto]; [done|].
  unfold leds_nscale8 at 1. cbn [drawn]. exact IH.
Qed.

Lemma twinkle_draw_drawn `{Platform} g :
  drawn (twinkle_draw g).2 = S (S (S (drawn g))).
Proof. reflexivity. Qed.

Lemma S_Twinkle_Update_fires `{Platform} tw g :
  twinkleTimer tw ≤ 0 →
  twinkleTimer (S_Twinkle_Update tw g).1 = S_TWINKLE_FREQUENCY - 1 ∧
  drawn (S_Twinkle_Update tw g).2 = S (S (S (drawn g))) ∧
  ∃ l, stores (S_Twinkle_Update tw g).2 = l ++ stores g ∧
       length (assignments l) = 1%nat.
Proof.
  intros Ht. rewrite S_Twinkle_Update_eq. cbn [fst snd].
  rewrite (twinkle_spark_fires _ _ Ht). cbn [fst snd twinkleTimer].
  rewrite fade_loop_drawn. cbn [leds_assign drawn].
  rewrite twinkle_draw_drawn. split; [done|]. split; [done|].
  destruct (fade_loop_faded (255 - S_TWINKLE_FALLOFF_RATE)
              (leds_assign (twinkle_draw g).1.1 (twinkle_draw g).1.2
                 (twinkle_draw g).2)) as (lf & Hlf & Hf).
  revert Hlf. generalize (fade_loop (255 - S_TWINKLE_FALLOFF_RATE)
              (leds_assign (twinkle_draw g).1.1 (twinkle_draw g).1.2
                 (twinkle_draw g).2)).
  intros g' Hlf. cbn [leds_assign stores] in Hlf.
  pose proof (twinkle_draw_spec g) as Hd. revert Hd Hlf.
  generalize (twinkle_draw g). intros [[pos c] g''] (_ & _ & _ & _ & _ & Hs) Hlf.
  cbn [fst snd] in Hlf.
  exists (lf ++ [Assigned pos c]). split.
  - rewrite Hlf, Hs. by rewrite <- app_assoc.
  - rewrite assignments_app, (assignments_faded _ Hf). done.
Qed.

Lemma S_Twinkle_Update_waits `{Platform} tw g :
  0 < twinkleTimer tw →
  twinkleTimer (S_Twinkle_Update tw g).1 = twinkleTimer tw - 1 ∧
  drawn (S_Twinkle_Update tw g).2 = drawn g ∧
  ∃ l, stores (S_Twinkle_Update tw g).2 = l ++ stores g ∧ Forall faded l.
Proof.
  intros Ht. rewrite S_Twinkle_Update_eq. cbn [fst snd].
  rewrite (twinkle_spark_waits _ _ Ht). cbn [fst snd twinkleTimer].
  rewrite fade_loop_drawn. split; [done|]. split; [done|].
  apply fade_loop_faded.
Qed.

(** X5: S_Twinkle twinkles on every second [Update]: from a timer at 0 or
    1 the timer after [n] calls is [(timer + n) mod 2], and the calls that
    twinkled, [(n + 1 - timer) / 2] of them, each consumed three results of
    [random()] and assigned one LED; the other calls consumed and assigned
    nothing. *)
Theorem Twinkle_fires_every_other_Update `{Platform}
    (tw : S_Twinkle) (g : Globals) (n : nat) :
  0 ≤ twinkleTimer tw ≤ 1 →
  let s := ticks n (tw, g) in
  let fired := (Z.of_nat n + 1 - twinkleTimer tw) / S_TWINKLE_FREQUENCY in
  twinkleTimer s.1 = (twinkleTimer tw + Z.of_nat n) `mod` S_TWINKLE_FREQUENCY ∧
  Z.of_nat (drawn s.2) = Z.of_nat (drawn g) + 3 * fired ∧
  Z.of_nat (length (assignments (new_stores g s.2))) = fired.
Proof.
  intros Ht. cbn zeta.
  assert (twinkleTimer (ticks n (tw, g)).1 =
            (twinkleTimer tw + Z.of_nat n) `mod` S_TWINKLE_FREQUENCY ∧
          Z.of_nat (drawn (ticks n (tw, g)).2) =
            Z.of_nat (drawn g) +
            3 * ((Z.of_nat n + 1 - twinkleTimer tw) / S_TWINKLE_FREQUENCY) ∧
          ∃ l, stores (ticks n (tw, g)).2 = l ++ stores g ∧
               Z.of_nat (length (assignments l)) =
               (Z.of_nat n + 1 - twinkleTimer tw) / S_TWINKLE_FREQUENCY) as Hs.
  { unfold S_TWINKLE_FREQUENCY. induction n as [|n (IHt & IHd & l & IHs & IHl)].
    - cbn [ticks Nat.iter nat_rect fst snd]. split; [dlia|]. split; [dlia|].
      exists []. split; [done|].
      change (assignments []) with (@nil (Z * CHSV)). cbn [length]. dlia.
    - rewrite ticks_S. revert IHt IHd IHs.
      generalize (ticks n (tw, g)). intros [tw' g'] IHt IHd IHs.
      cbn [fst snd] in *. cbn [Update Twinkle_LEDSequence].
      destruct (Z.leb_spec (twinkleTimer tw') 0) as [Hle|Hgt].
      + destruct (S_Twinkle_Update_fires tw' g' Hle) as (-> & -> & l' & -> & Hl').
        unfold S_TWINKLE_FREQUENCY. split; [dlia|]. split; [dlia|].
        exists (l' ++ l). split; [by rewrite IHs, <- app_assoc|].
        rewrite assignments_app, length_app, Hl'. dlia.
      + destruct (S_Twinkle_Update_waits tw' g' Hgt) as (-> & -> & l' & -> & Hl').
        split; [dlia|]. split; [dlia|].
        exists (l' ++ l). split; [by rewrite IHs, <- app_assoc|].
        rewrite assignments_app, length_app, (assignments_faded _ Hl').
        cbn [length]. dlia. }
  destruct Hs as (Ht' & Hd' & l & Hs' & Hl').
  split; [exact Ht'|]. split; [exact Hd'|].
  by rewrite (new_stores_app _ _ _ Hs').
Qed.

Lemma Twinkle_fires_every_other_Update_witness :
  let H := bench in
  let tw := S_Twinkle_new in
  let g := globals power_on in
  0 ≤ twinkleTimer tw ≤ 1 ∧
  let s := ticks 5 (tw, g) in
  let fired := (Z.of_nat 5 + 1 - twinkleTimer tw) / S_TWINKLE_FREQUENCY in
  twinkleTimer s.1 = (twinkleTimer tw + Z.of_nat 5) `mod` S_TWINKLE_FREQUENCY ∧
  Z.of_nat (drawn s.2) = Z.of_nat (drawn g) + 3 * fired ∧
  Z.of_nat (length (assignments (new_stores g s.2))) = fired.
Proof.
  intros H tw g.
  assert (0 ≤ twinkleTimer tw ≤ 1) as H1 by (cbn; lia).
  split; [exact H1|].
  exact (@Twinkle_fires_every_other_Update bench tw g 5%nat H1).
Defined.

(** X6: an [Update] of S_Twinkle entered with a positive timer lights
    nothing: it decrements the timer, consumes no random number, assigns no
    LED, and scales every LED by [255 - S_TWINKLE_FALLOFF_RATE]. *)
Theorem Twinkle_only_fades_between_twinkles `{Platform}
    (tw : S_Twinkle) (g : Globals) :
  0 < twinkleTimer tw →
  length (leds g) = Z.to_nat (NUM_STRIPS * NUM_STRIP_LEDS) →
  twinkleTimer (Update tw g).1 = twinkleTimer tw - 1 ∧
  drawn (Update tw g).2 = drawn g ∧
  assignments (new_stores g (Update tw g).2) = [] ∧
  leds (Update tw g).2 = nscale8 (255 - S_TWINKLE_FALLOFF_RATE) <$> leds g.
Proof.
  intros Ht Hl. cbn [Update Twinkle_LEDSequence].
  destruct (S_Twinkle_Update_waits tw g Ht) as (-> & -> & l & Hs & Hf).
  rewrite (new_stores_app _ _ _ Hs), (assignments_faded _ Hf).
  split; [reflexivity|]. split; [reflexivity|]. split; [reflexivity|].
  rewrite S_Twinkle_Update_eq. cbn [snd].
  rewrite (twinkle_spark_waits _ _ Ht). cbn [snd].
  by apply fade_loop_leds.
Qed.

Lemma Twinkle_only_fades_between_twinkles_witness :
  let H := bench in
  let tw := (ticks 1 (S_Twinkle_new, globals power_on)).1 in
  let g := (ticks 1 (S_Twinkle_new, globals power_on)).2 in
  (0 < twinkleTimer tw ∧
   length (leds g) = Z.to_nat (NUM_STRIPS * NUM_STRIP_LEDS)) ∧
  twinkleTimer (Update tw g).1 = twinkleTimer tw - 1 ∧
  drawn (Update tw g).2 = drawn g ∧
  assignments (new_stores g (Update tw g).2) = [] ∧
  leds (Update tw g).2 = nscale8 (255 - S_TWINKLE_FALLOFF_RATE) <$> leds g.
Proof.
  intros H tw g.
  assert (0 < twinkleTimer tw) as H1 by (vm_compute; reflexivity).
  assert (length (leds g) = Z.to_nat (NUM_STRIPS * NUM_STRIP_LEDS)) as H2
    by (vm_compute; reflexivity).
  split; [split; assumption|].
  exact (@Twinkle_only_fades_between_twinkles bench tw g H1 H2).
Defined.

(** ** Calls of [random()] *)

Lemma for_upto_drawn n (body : Z → Globals → Globals) g :
  (∀ i g, drawn (body i g) = drawn g) → drawn (for_upto n body g) = drawn g.
Proof.
  intros Hb. induction n as [|n IH]; cbn [for_upto]; [done|]. by rewrite Hb.
Qed.

Lemma ring_render_drawn `{Platform} rc g : drawn (ring_render rc g) = drawn g.
Proof.
  unfold ring_render. apply for_upto_drawn. intros i g'.
  apply for_upto_drawn. intros j g''. done.
Qed.

Lemma trace_step_drawn `{Platform} move i s :
  drawn (trace_step move i s).2 = drawn s.2.
Proof. by destruct s. Qed.

Lemma trace_strip_drawn `{Platform} i s : drawn (trace_strip i s).2 = drawn s.2.
Proof.
  unfold trace_strip.
  assert (∀ move n, drawn (for_upto n (λ _, trace_step move i) s).2 = drawn s.2)
    as Hn.
  { intros move n. induction n as [|n IH]; cbn [for_upto]; [done|].
    by rewrite trace_step_drawn. }
  cbn [ZIG_ZAG]. unfold ZIG_ZAG.
  destruct (i `rem` 2 =? 1).
  - specialize (Hn wrap_backward (Z.to_nat S_TRACE_SPEED)). revert Hn.
    generalize (for_upto (Z.to_nat S_TRACE_SPEED)
                  (λ _, trace_step wrap_backward i) s).
    by intros [tc g].
  - specialize (Hn wrap_forward (Z.to_nat S_TRACE_SPEED)). revert Hn.
    generalize (for_upto (Z.to_nat S_TRACE_SPEED)
                  (λ _, trace_step wrap_forward i) s).
    by intros [tc g].
Qed.

Lemma trace_advance_drawn `{Platform} tc g :
  drawn (trace_advance tc g).2 = drawn g.
Proof.
  unfold trace_advance. generalize (Z.to_nat NUM_STRIPS). intros n.
  induction n as [|n IH]; cbn [for_upto]; [done|].
  by rewrite trace_strip_drawn.
Qed.

Lemma S_RingChase_Update_drawn `{Platform} rc g :
  drawn (S_RingChase_Update rc g).2 = drawn g.
Proof. apply ring_render_drawn. Qed.

Lemma S_TraceChase_Update_drawn `{Platform} tc g :
  drawn (S_TraceChase_Update tc g).2 = drawn g.
Proof.
  rewrite S_TraceChase_Update_eq. cbn [snd].
  rewrite fade_loop_drawn. apply trace_advance_drawn.
Qed.

(** X7: a pass of [loop] changes the object of one sequence only, the one
    that is current when the pass ends (its [WrapUp], [Init] and [Update]);
    the other two objects are left as they were.  [random()] is called only
    in passes that end on S_Twinkle. *)
Theorem loop_touches_one_sequence `{Platform} (e : Engine) :
  0 ≤ ledSequence e < NUM_SEQUENCES →
  let k' := ledSequence (loop e) in
  (k' ≠ 0 → ringChase (loop e) = ringChase e) ∧
  (k' ≠ 1 → twinkle (loop e) = twinkle e) ∧
  (k' ≠ 2 → traceChase (loop e) = traceChase e) ∧
  (k' ≠ 1 → drawn (globals (loop e)) = drawn (globals e)).
Proof.
  intros Hk k'.
  destruct (loop_scheduler e) as (_ & Ek' & _). fold k' in Ek'.
  revert Ek'. generalize k'. clear k'. intros k' ->.
  destruct e as [g rc tw tc T k0 c].
  cbn [sequenceTimer ledSequence ringChase twinkle traceChase globals] in *.
  unfold NUM_SEQUENCES in Hk.
  unfold loop. cbn [set_sequenceTimer sequenceTimer ledSequence globals ringChase
                    twinkle traceChase calls].
  assert (k0 = 0 ∨ k0 = 1 ∨ k0 = 2) as [-> | [-> | ->]] by lia;
    destruct (T - 1 =? WRAPUP_WARNING_OFFSET) eqn:E1;
    cbn -[Update Init WrapUp S_RingChase_WrapUp S_RingChase_Init
          S_TraceChase_Init Z.sub Z.ltb];
    destruct (T - 1 <? 0) eqn:E2;
    cbn -[Update Init WrapUp S_RingChase_WrapUp S_RingChase_Init
          S_TraceChase_Init Z.sub Z.ltb];
    try (exfalso; unfold WRAPUP_WARNING_OFFSET in E1; lia);
    (split_and!; intros Hne; try done;
     first [apply S_RingChase_Update_drawn | apply S_TraceChase_Update_drawn]).
Qed.

Lemma loop_touches_one_sequence_witness :
  let H := bench in
  let e := run 2 in
  0 ≤ ledSequence e < NUM_SEQUENCES ∧
  let k' := ledSequence (loop e) in
  (k' ≠ 0 → ringChase (loop e) = ringChase e) ∧
  (k' ≠ 1 → twinkle (loop e) = twinkle e) ∧
  (k' ≠ 2 → traceChase (loop e) = traceChase e) ∧
  (k' ≠ 1 → drawn (globals (loop e)) = drawn (globals e)).
Proof.
  intros H e.
  assert (0 ≤ ledSequence e < NUM_SEQUENCES) as H1
    by (vm_compute; split; [discriminate|reflexivity]).
  split; [exact H1|].
  exact (@loop_touches_one_sequence bench e H1).
Defined.

(** ** The LEDs that S_TraceChase paints *)

Lemma assignments_Assigned (l : list (Z * CHSV)) :
  assignments ((λ a, Assigned a.1 a.2) <$> l) = l.
Proof.
  induction l as [|[k c] l IH]; [done|].
  change (assignments ((λ a, Assigned a.1 a.2) <$> (k, c) :: l))
    with ((k, c) :: assignments ((λ a, Assigned a.1 a.2) <$> l)).
  by rewrite IH.
Qed.

Lemma trace_advance_stores `{Platform} tc g :
  length (traces tc) = Z.to_nat NUM_STRIPS → traceColorIndex tc = 0 →
  stores (trace_advance tc g).2 =
  ((λ a, Assigned a.1 a.2) <$> rev (mjoin (imap passed (traces tc)))) ++ stores g.
Proof.
  destruct tc as [l ci]. cbn [traces traceColorIndex]. intros Hlen ->.
  do 9 (destruct l as [|? l]; try discriminate Hlen).
  lazy -[wrap_forward wrap_backward S_TRACE_CHASE_COLORS_at]. reflexivity.
Qed.

(** X8: the LEDs that one [Update] of S_TraceChase assigns, in the order
    of the stores: strip after strip, and on strip [j], at position [t], the
    three LEDs at [t + s], [t + 2 s] and [t + 3 s] modulo NUM_STRIP_LEDS,
    where [s] is the direction of the strip, all three with palette entry
    [j mod 3].  The trace skips no LED although it moves three LEDs per tick. *)
Theorem TraceChase_paints_the_LEDs_it_passes `{Platform}
    (tc : S_TraceChase) (g : Globals) :
  TraceChase_ok tc → traceColorIndex tc = 0 →
  rev (assignments (new_stores g (Update tc g).2)) =
  mjoin (imap (λ (j : nat) (t : Z),
                 (λ s, (GetStrip (Z.of_nat j) +
                          (t + s * heading (Z.of_nat j)) `mod` NUM_STRIP_LEDS,
                        S_TRACE_CHASE_COLORS_at (Z.of_nat j `mod` 3)))
                 <$> [1; 2; 3])
              (traces tc)).
Proof.
  intros [Hl Hr] Hc. cbn [Update TraceChase_LEDSequence].
  rewrite S_TraceChase_Update_eq. cbn [snd].
  destruct (fade_loop_faded (255 - S_TRACE_FALLOFF_RATE) (trace_advance tc g).2)
    as (lf & Hlf & Hf).
  pose proof (trace_advance_stores tc g Hl Hc) as Hs.
  revert Hlf Hs. generalize (trace_advance tc g). intros s.
  generalize (fade_loop (255 - S_TRACE_FALLOFF_RATE) s.2). intros g' Hlf Hs.
  rewrite Hs, app_assoc in Hlf.
  rewrite (new_stores_app _ _ _ Hlf).
  rewrite assignments_app, (assignments_faded _ Hf), app_nil_l.
  rewrite assignments_Assigned, rev_involutive.
  f_equal. apply imap_ext. intros j t Ht.
  assert (0 ≤ t < NUM_STRIP_LEDS) as Ht0
    by (eapply (Forall_lookup_1 _ _ _ _ Hr); done).
  unfold passed. cbn [fmap list_fmap].
  destruct (moves_range (Z.of_nat j) t Ht0) as [E1 R1].
  destruct (moves_range (Z.of_nat j) _ R1) as [E2 R2].
  destruct (moves_range (Z.of_nat j) _ R2) as [E3 _].
  rewrite E3, E2, E1. rewrite !Zplus_mod_idemp_l.
  generalize (heading (Z.of_nat j)). intros h.
  replace (t + 1 * h) with (t + h) by lia.
  replace (t + 2 * h) with (t + h + h) by lia.
  replace (t + 3 * h) with (t + h + h + h) by lia. done.
Qed.

Lemma TraceChase_paints_the_LEDs_it_passes_witness :
  let H := bench in
  let tc := (S_TraceChase_Init S_TraceChase_new (globals power_on)).1 in
  let g := globals power_on in
  (TraceChase_ok tc ∧ traceColorIndex tc = 0) ∧
  rev (assignments (new_stores g (Update tc g).2)) =
  mjoin (imap (λ (j : nat) (t : Z),
                 (λ s, (GetStrip (Z.of_nat j) +
                          (t + s * heading (Z.of_nat j)) `mod` NUM_STRIP_LEDS,
                        S_TRACE_CHASE_COLORS_at (Z.of_nat j `mod` 3)))
                 <$> [1; 2; 3])
              (traces tc)).
Proof.
  intros H tc g.
  assert (TraceChase_ok tc) as H1.
  { split; [done|]. vm_compute. repeat constructor; discriminate. }
  assert (traceColorIndex tc = 0) as H2 by reflexivity.
  split; [split; assumption|].
  exact (@TraceChase_paints_the_LEDs_it_passes bench tc g H1 H2).
Defined.

(** ** [fadeAll] *)

(** X9: [fadeAll] (which nothing calls) scales every LED by
    [255 - S_TRACE_FALLOFF_RATE] once: no channel rises, the array keeps its
    size and its bytes, no LED is assigned, every store is in range and
    [random()] is not called.  It is the loop that ends [Update] of
    S_TraceChase. *)
Theorem fadeAll_fades_every_led `{Platform} (tc : S_TraceChase) (g : Globals) :
  leds_ok g →
  leds (fadeAll g) = nscale8 (255 - S_TRACE_FALLOFF_RATE) <$> leds g ∧
  leds_ok (fadeAll g) ∧
  Forall2 CRGB_le (leds (fadeAll g)) (leds g) ∧
  drawn (fadeAll g) = drawn g ∧
  Forall in_range (new_stores g (fadeAll g)) ∧
  assignments (new_stores g (fadeAll g)) = [] ∧
  (Update tc g).2 = fadeAll (trace_advance tc g).2.
Proof.
  intros Hok.
  change (fadeAll g) with (fade_loop (255 - S_TRACE_FALLOFF_RATE) g).
  destruct (fade_loop_faded (255 - S_TRACE_FALLOFF_RATE) g) as (l & Hl & Hf).
  rewrite (new_stores_app _ _ _ Hl).
  split_and!.
  - apply fade_loop_leds, Hok.
  - by apply fade_loop_ok.
  - by apply fade_loop_le.
  - apply fade_loop_drawn.
  - eapply Forall_impl; [exact Hf|]. by intros s [? _].
  - by apply assignments_faded.
  - cbn [Update TraceChase_LEDSequence]. by rewrite S_TraceChase_Update_eq.
Qed.

Lemma fadeAll_fades_every_led_witness :
  let H := bench in
  let tc := S_TraceChase_new in
  let g := (ticks 1 (S_Twinkle_new, globals power_on)).2 in
  leds_ok g ∧
  leds (fadeAll g) = nscale8 (255 - S_TRACE_FALLOFF_RATE) <$> leds g ∧
  leds_ok (fadeAll g) ∧
  Forall2 CRGB_le (leds (fadeAll g)) (leds g) ∧
  drawn (fadeAll g) = drawn g ∧
  Forall in_range (new_stores g (fadeAll g)) ∧
  assignments (new_stores g (fadeAll g)) = [] ∧
  (Update tc g).2 = fadeAll (trace_advance tc g).2.
Proof.
  intros H tc g.
  assert (leds_ok g) as H1.
  { apply S_Twinkle_Update_leds_ok. split; [reflexivity|].
    apply Forall_replicate. unfold wf_CRGB, byte_range. cbn. lia. }
  split; [exact H1|].
  exact (@fadeAll_fades_every_led bench tc g H1).
Defined.

(** ** The [int]s of the final sketch *)

(** X10: between two passes of [loop] the countdown is in [0, 300], the
    sequence index in [0, 2], the pulse timer in [0, 9999], the ring shift
    timer in [-301, 2], the ring index in [0, 8], the pulse colour index in
    [0, 3], the twinkle timer in [0, 2] and every trace in [0, 149]: no
    [int] of the sketch comes near the ends of the 16-bit range. *)
Theorem ints_never_overflow `{Platform} (n : nat) :
  let e := run n in
  (0 ≤ sequenceTimer e ≤ SEQUENCE_DURATION ∧
   0 ≤ ledSequence e < NUM_SEQUENCES ∧
   0 ≤ pulseTimer (ringChase e) ≤ 9999 ∧
   - (SEQUENCE_DURATION + 1) ≤ pulseRingShiftTimer (ringChase e)
     ≤ S_RING_CHASE_RING_SHIFT_FREQUENCY ∧
   0 ≤ pulseRingIndex (ringChase e) ≤ NUM_STRIPS ∧
   0 ≤ pulseColorIndex (ringChase e) ≤ S_RING_CHASE_NUM_PULSE_COLORS ∧
   0 ≤ twinkleTimer (twinkle e) ≤ S_TWINKLE_FREQUENCY ∧
   traceColorIndex (traceChase e) = 0 ∧
   Forall (λ t, 0 ≤ t < NUM_STRIP_LEDS) (traces (traceChase e))) ∧
  Forall int_range
    ([sequenceTimer e; ledSequence e; pulseTimer (ringChase e);
      pulseRingShiftTimer (ringChase e); pulseRingIndex (ringChase e);
      pulseColorIndex (ringChase e); twinkleTimer (twinkle e);
      traceColorIndex (traceChase e)] ++ traces (traceChase e)).
Proof.
  intros e. subst e.
  destruct (run_ints n) as (HT & Hk & Hpt & Hst & _ & Hri & Hci & Htw).
  destruct (run_inv n) as (_ & _ & [_ Htr] & Htc & _).
  revert HT Hk Hpt Hst Hri Hci Htw Htr Htc. generalize (run n). intros e.
  intros. split; [split_and!; (done || lia)|].
  revert HT Hk Hpt Hst Hri Hci Htw Htr Htc.
  unfold int_range, SEQUENCE_DURATION, NUM_SEQUENCES,
    S_RING_CHASE_RING_SHIFT_FREQUENCY, NUM_STRIPS, S_RING_CHASE_NUM_PULSE_COLORS,
    S_TWINKLE_FREQUENCY, NUM_STRIP_LEDS.
  intros. repeat (apply Forall_cons; split; [lia|]).
  eapply Forall_impl; [done|]. intros t Ht. cbn beta in Ht. lia.
Qed.

(** ** [Init] of S_TraceChase and the traces it starts *)

(** X11: [Init] of S_TraceChase puts strip [j] at [15 j] LEDs from the
    start of the strip, counted in the direction of the strip, and every
    [Update] moves it 3 LEDs further in that direction: [n] calls of [Update]
    after [Init], an even strip is at [(15 j + 3 n) mod 150] and an odd strip
    at the mirror image of that position.  With the strips wired in
    alternating directions the traces thus stay in the formation that [Init]
    gave them. *)
Theorem TraceChase_traces_stay_aligned `{Platform}
    (tc : S_TraceChase) (g : Globals) (n j : nat) :
  length (traces tc) = Z.to_nat NUM_STRIPS → traceColorIndex tc = 0 →
  Z.of_nat j < NUM_STRIPS →
  let s := ticks n (Init tc g) in
  let along := S_TRACE_OFFSET * Z.of_nat j + S_TRACE_SPEED * Z.of_nat n in
  traces (Init tc g).1 !! j =
    Some ((heading (Z.of_nat j) * (S_TRACE_OFFSET * Z.of_nat j)) `mod` NUM_STRIP_LEDS) ∧
  traces s.1 !! j = Some ((heading (Z.of_nat j) * along) `mod` NUM_STRIP_LEDS) ∧
  (Z.of_nat j `rem` 2 = 0 → traces s.1 !! j = Some (along `mod` NUM_STRIP_LEDS)) ∧
  (Z.of_nat j `rem` 2 = 1 →
   traces s.1 !! j =
   Some ((NUM_STRIP_LEDS - along `mod` NUM_STRIP_LEDS) `mod` NUM_STRIP_LEDS)).
Proof.
  intros Hl Hc Hj. cbn zeta. cbn [Init TraceChase_LEDSequence].
  pose proof (S_TraceChase_Init_traces tc g Hl) as Ht.
  pose proof (S_TraceChase_Init_ok tc g Hl) as Hok.
  assert (traceColorIndex (S_TraceChase_Init tc g).1 = 0) as Hc' by exact Hc.
  assert ((S_TraceChase_Init tc g).2 = g) as Hg by reflexivity.
  revert Ht Hok Hc' Hg. generalize (S_TraceChase_Init tc g).
  intros [tc' g'] Ht Hok Hc' Hg. cbn [fst snd] in *. subst g'.
  destruct (TraceChase_ticks tc' g n Hok Hc') as (_ & _ & Hpos).
  revert Hpos. generalize (ticks n (tc', g)). intros s Hpos.
  unfold NUM_STRIPS in Hj.
  assert (∀ t, traces tc' !! j = Some t →
            t = (heading (Z.of_nat j) * (S_TRACE_OFFSET * Z.of_nat j))
                  `mod` NUM_STRIP_LEDS) as Hstart.
  { rewrite Ht. unfold S_TRACE_OFFSET, NUM_STRIP_LEDS.
    do 8 (destruct j as [|j]; [by intros t [= <-]|]). lia. }
  destruct (lookup_lt_is_Some_2 (traces tc') j) as [t Hjt];
    [rewrite Ht; cbn [length]; lia|].
  pose proof (Hstart t Hjt) as Et.
  assert (traces s.1 !! j =
          Some ((heading (Z.of_nat j) *
                   (S_TRACE_OFFSET * Z.of_nat j + S_TRACE_SPEED * Z.of_nat n))
                  `mod` NUM_STRIP_LEDS)) as Hn.
  { rewrite (Hpos j t Hjt). f_equal. rewrite Et.
    rewrite Zplus_mod_idemp_l. f_equal.
    unfold heading. destruct (Z.of_nat j `rem` 2 =? 1); lia. }
  split; [by rewrite Hjt, Et|]. split; [exact Hn|].
  split; intros Hpar; rewrite Hn; f_equal; unfold heading; rewrite Hpar;
    cbn [Z.eqb Pos.eqb]; unfold NUM_STRIP_LEDS, S_TRACE_OFFSET, S_TRACE_SPEED.
  - f_equal. lia.
  - generalize (15 * Z.of_nat j + 3 * Z.of_nat n). intros a. dlia.
Qed.

Lemma TraceChase_traces_stay_aligned_witness :
  let H := bench in
  let tc := (ticks 7 (S_TraceChase_new, globals power_on)).1 in
  let g := globals power_on in
  (length (traces tc) = Z.to_nat NUM_STRIPS ∧ traceColorIndex tc = 0 ∧
   Z.of_nat 5 < NUM_STRIPS) ∧
  let s := ticks 11 (Init tc g) in
  let along := S_TRACE_OFFSET * Z.of_nat 5 + S_TRACE_SPEED * Z.of_nat 11 in
  traces (Init tc g).1 !! 5%nat =
    Some ((heading (Z.of_nat 5) * (S_TRACE_OFFSET * Z.of_nat 5)) `mod` NUM_STRIP_LEDS) ∧
  traces s.1 !! 5%nat = Some ((heading (Z.of_nat 5) * along) `mod` NUM_STRIP_LEDS) ∧
  (Z.of_nat 5 `rem` 2 = 0 → traces s.1 !! 5%nat = Some (along `mod` NUM_STRIP_LEDS)) ∧
  (Z.of_nat 5 `rem` 2 = 1 →
   traces s.1 !! 5%nat =
   Some ((NUM_STRIP_LEDS - along `mod` NUM_STRIP_LEDS) `mod` NUM_STRIP_LEDS)).
Proof.
  intros H tc g.
  assert (length (traces tc) = Z.to_nat NUM_STRIPS) as H1
    by (vm_compute; reflexivity).
  assert (traceColorIndex tc = 0) as H2 by (vm_compute; reflexivity).
  assert (Z.of_nat 5 < NUM_STRIPS) as H3 by (unfold NUM_STRIPS; lia).
  split; [exact (conj H1 (conj H2 H3))|].
  exact (@TraceChase_traces_stay_aligned bench tc g 11%nat 5%nat H1 H2 H3).
Defined.

(** ** A twinkle *)

(** X12: an [Update] of S_Twinkle entered with the timer run out lights one
    LED and dims it at once: it consumes three results of [random()], assigns
    the LED at a position in [1, 1197] the palette colour with a value in
    [155, 254], and then scales every LED, the new one too, by
    [255 - S_TWINKLE_FALLOFF_RATE]; the timer is left at
    [S_TWINKLE_FREQUENCY - 1]. *)
Theorem Twinkle_lights_one_LED `{Platform} (tw : S_Twinkle) (g : Globals) :
  twinkleTimer tw ≤ 0 →
  length (leds g) = Z.to_nat (NUM_STRIPS * NUM_STRIP_LEDS) →
  ∃ pos v,
    1 ≤ pos ≤ NUM_STRIPS * NUM_STRIP_LEDS - 3 ∧
    255 - S_TWINKLE_BRIGHTNESS_VARIANCE ≤ v ≤ 254 ∧
    assignments (new_stores g (Update tw g).2) = [(pos, mkCHSV 190 255 v)] ∧
    leds (Update tw g).2 =
      nscale8 (255 - S_TWINKLE_FALLOFF_RATE) <$>
        <[Z.to_nat pos := CRGB_of_CHSV (mkCHSV 190 255 v)]> (leds g) ∧
    drawn (Update tw g).2 = S (S (S (drawn g))) ∧
    twinkleTimer (Update tw g).1 = S_TWINKLE_FREQUENCY - 1.
Proof.
  intros Ht Hlen. cbn [Update Twinkle_LEDSequence].
  rewrite S_Twinkle_Update_eq, (twinkle_spark_fires _ _ Ht). cbn [fst snd].
  pose proof (twinkle_draw_spec g) as Hd.
  pose proof (twinkle_draw_drawn g) as Hn.
  revert Hd Hn. generalize (twinkle_draw g).
  intros [[pos c] g'] (Hp & Hb & Hh & Hs & Hl & Hst) Hn. cbn [fst snd] in *.
  destruct c as [h s v]. cbn [hue sat val] in *. subst h s.
  exists pos, v.
  destruct (fade_loop_faded (255 - S_TWINKLE_FALLOFF_RATE)
              (leds_assign pos (mkCHSV 190 255 v) g')) as (lf & Hlf & Hf).
  pose proof (fade_loop_leds (255 - S_TWINKLE_FALLOFF_RATE)
                (leds_assign pos (mkCHSV 190 255 v) g')) as Hfl.
  pose proof (fade_loop_drawn (255 - S_TWINKLE_FALLOFF_RATE)
                (leds_assign pos (mkCHSV 190 255 v) g')) as Hfd.
  revert Hlf Hfl Hfd.
  generalize (fade_loop (255 - S_TWINKLE_FALLOFF_RATE)
                (leds_assign pos (mkCHSV 190 255 v) g')).
  intros g2 Hlf Hfl Hfd. cbn [leds_assign stores leds drawn] in *.
  rewrite Hst in Hlf.
  assert (g2.(stores) = (lf ++ [Assigned pos (mkCHSV 190 255 v)]) ++ stores g)
    as Hlf' by (by rewrite <- app_assoc).
  rewrite (new_stores_app _ _ _ Hlf').
  split; [exact Hp|]. split; [exact Hb|]. split.
  { rewrite assignments_app, (assignments_faded _ Hf). reflexivity. }
  split.
  { rewrite Hfl by (by rewrite length_array_set, Hl).
    unfold array_set. rewrite bool_decide_true by lia. by rewrite Hl. }
  split; [by rewrite Hfd, Hn|reflexivity].
Qed.

Lemma Twinkle_lights_one_LED_witness :
  let H := bench in
  let tw := S_Twinkle_new in
  let g := globals power_on in
  (twinkleTimer tw ≤ 0 ∧
   length (leds g) = Z.to_nat (NUM_STRIPS * NUM_STRIP_LEDS)) ∧
  ∃ pos v,
    1 ≤ pos ≤ NUM_STRIPS * NUM_STRIP_LEDS - 3 ∧
    255 - S_TWINKLE_BRIGHTNESS_VARIANCE ≤ v ≤ 254 ∧
    assignments (new_stores g (Update tw g).2) = [(pos, mkCHSV 190 255 v)] ∧
    leds (Update tw g).2 =
      nscale8 (255 - S_TWINKLE_FALLOFF_RATE) <$>
        <[Z.to_nat pos := CRGB_of_CHSV (mkCHSV 190 255 v)]> (leds g) ∧
    drawn (Update tw g).2 = S (S (S (drawn g))) ∧
    twinkleTimer (Update tw g).1 = S_TWINKLE_FREQUENCY - 1.
Proof.
  intros H tw g.
  assert (twinkleTimer tw ≤ 0) as H1 by (cbn; lia).
  assert (length (leds g) = Z.to_nat (NUM_STRIPS * NUM_STRIP_LEDS)) as H2
    by reflexivity.
  split; [split; assumption|].
  exact (@Twinkle_lights_one_LED bench tw g H1 H2).
Defined.

(** * Properties of the first sketch of [LEDTunnel.ino] *)

(** ** S_Twinkle *)

Lemma Earlier_twinkle_light_spec `{Platform} g :
  ∃ pos b,
    1 ≤ pos ≤ NUM_STRIPS * NUM_STRIP_LEDS - 3 ∧
    400 - S_TWINKLE_BRIGHTNESS_VARIANCE - 255 ≤ b ≤ 399 - 255 ∧
    stores (Earlier.twinkle_light g) =
      [Assigned pos (mkCHSV 190 255 255); Assigned (pos - 1) (mkCHSV 190 255 b);
       Assigned (pos + 1) (mkCHSV 190 255 b)] ++ stores g ∧
    leds (Earlier.twinkle_light g) =
      <[Z.to_nat pos := CRGB_of_CHSV (mkCHSV 190 255 255)]>
        (<[Z.to_nat (pos - 1) := CRGB_of_CHSV (mkCHSV 190 255 b)]>
           (<[Z.to_nat (pos + 1) := CRGB_of_CHSV (mkCHSV 190 255 b)]> (leds g))) ∧
    drawn (Earlier.twinkle_light g) = S (S (S (drawn g))).
Proof.
  unfold Earlier.twinkle_light.
  pose proof (random_between_bounds 1 (NUM_STRIPS * NUM_STRIP_LEDS - 2) g
                ltac:(done)) as (Hp & Hl1 & Hs1).
  assert (drawn (random_between 1 (NUM_STRIPS * NUM_STRIP_LEDS - 2) g).2
          = S (drawn g)) as Hd1 by reflexivity.
  destruct (random_between 1 _ g) as [pos g1]. cbn [fst snd] in *.
  pose proof (random_between_bounds (400 - S_TWINKLE_BRIGHTNESS_VARIANCE) 400 g1
                ltac:(done)) as (Hb & Hl2 & Hs2).
  assert (drawn (random_between (400 - S_TWINKLE_BRIGHTNESS_VARIANCE) 400 g1).2
          = S (drawn g1)) as Hd2 by reflexivity.
  destruct (random_between _ 400 g1) as [b g2]. cbn [fst snd] in *.
  pose proof (random_bounds S_TWINKLE_NUM_COLORS g2 ltac:(done)) as (Hc & Hl3 & Hs3).
  assert (drawn (random S_TWINKLE_NUM_COLORS g2).2 = S (drawn g2)) as Hd3
    by reflexivity.
  destruct (random _ g2) as [ci g3]. cbn [fst snd] in *.
  assert (ci = 0) as -> by (unfold S_TWINKLE_NUM_COLORS in Hc; lia).
  unfold S_TWINKLE_BRIGHTNESS_VARIANCE in *.
  change (array_get _ 0 S_TWINKLE_COLORS) with (mkCHSV 190 255 255).
  destruct (Z.gtb_spec b 255) as [_|]; [|lia].
  cbn [hue sat val]. unfold CHSV_of.
  change (u8 190) with 190. change (u8 255) with 255.
  rewrite (u8_id (b - 255)) by (unfold byte_range; lia).
  exists pos, (b - 255).
  unfold NUM_STRIPS, NUM_STRIP_LEDS in *.
  split; [lia|]. split; [lia|].
  cbn [leds_assign stores leds drawn]. split; [by rewrite Hs3, Hs2, Hs1|].
  split; [|by rewrite Hd3, Hd2, Hd1].
  unfold array_set. rewrite !bool_decide_true by lia.
  by rewrite Hl3, Hl2, Hl1.
Qed.

(** X13: in the first sketch a twinkle always takes the bright branch: the
    brightness drawn is in [300, 399], above 255, so [Update] of S_Twinkle
    assigns three LEDs, [pos + 1] and [pos - 1] with value [brightness - 255]
    (in [45, 144]) and then [pos] with the palette colour; [pos] is in
    [1, 1197], so the three indices are inside [leds].  The call consumes
    three results of [random()], and every LED is then scaled once. *)
Theorem Earlier_Twinkle_lights_three_LEDs `{Platform}
    (tw : S_Twinkle) (g : Globals) :
  twinkleTimer tw ≤ 0 →
  length (leds g) = Z.to_nat (NUM_STRIPS * NUM_STRIP_LEDS) →
  let g' := (Earlier.S_Twinkle_Update tw g).2 in
  ∃ pos b,
    1 ≤ pos ≤ NUM_STRIPS * NUM_STRIP_LEDS - 3 ∧
    400 - S_TWINKLE_BRIGHTNESS_VARIANCE - 255 ≤ b ≤ 399 - 255 ∧
    assignments (new_stores g g') =
      [(pos, mkCHSV 190 255 255); (pos - 1, mkCHSV 190 255 b);
       (pos + 1, mkCHSV 190 255 b)] ∧
    Forall in_range (new_stores g g') ∧
    leds g' =
      nscale8 (255 - S_TWINKLE_FALLOFF_RATE) <$>
        <[Z.to_nat pos := CRGB_of_CHSV (mkCHSV 190 255 255)]>
          (<[Z.to_nat (pos - 1) := CRGB_of_CHSV (mkCHSV 190 255 b)]>
             (<[Z.to_nat (pos + 1) := CRGB_of_CHSV (mkCHSV 190 255 b)]> (leds g))) ∧
    drawn g' = S (S (S (drawn g))) ∧
    twinkleTimer (Earlier.S_Twinkle_Update tw g).1 = Earlier.S_TWINKLE_FREQUENCY - 1.
Proof.
  intros Ht Hlen. cbn zeta.
  unfold Earlier.S_Twinkle_Update, Earlier.twinkle_spark.
  destruct (Z.leb_spec (twinkleTimer tw) 0) as [_|]; [|lia].
  cbn [fst snd twinkleTimer].
  destruct (Earlier_twinkle_light_spec g) as (pos & b & Hp & Hb & Hs & Hl & Hd).
  revert Hs Hl Hd. generalize (Earlier.twinkle_light g). intros g1 Hs Hl Hd.
  exists pos, b.
  destruct (fade_loop_faded (255 - S_TWINKLE_FALLOFF_RATE) g1) as (lf & Hlf & Hf).
  rewrite Hs, app_assoc in Hlf.
  rewrite (new_stores_app _ _ _ Hlf).
  split; [exact Hp|]. split; [exact Hb|]. split.
  { rewrite assignments_app, (assignments_faded _ Hf). reflexivity. }
  split.
  { apply Forall_app. split.
    - eapply Forall_impl; [exact Hf|]. by intros s [? _].
    - unfold in_range, NUM_STRIPS, NUM_STRIP_LEDS in *.
      repeat (apply Forall_cons; split; [cbn [store_index]; lia|]).
      apply Forall_nil_2. }
  split.
  { rewrite fade_loop_leds; [by rewrite Hl|].
    by rewrite Hl, !length_insert. }
  split; [by rewrite fade_loop_drawn|reflexivity].
Qed.

Lemma Earlier_Twinkle_lights_three_LEDs_witness :
  let H := bench in
  let tw := S_Twinkle_new in
  let g := globals power_on in
  (twinkleTimer tw ≤ 0 ∧
   length (leds g) = Z.to_nat (NUM_STRIPS * NUM_STRIP_LEDS)) ∧
  let g' := (Earlier.S_Twinkle_Update tw g).2 in
  ∃ pos b,
    1 ≤ pos ≤ NUM_STRIPS * NUM_STRIP_LEDS - 3 ∧
    400 - S_TWINKLE_BRIGHTNESS_VARIANCE - 255 ≤ b ≤ 399 - 255 ∧
    assignments (new_stores g g') =
      [(pos, mkCHSV 190 255 255); (pos - 1, mkCHSV 190 255 b);
       (pos + 1, mkCHSV 190 255 b)] ∧
    Forall in_range (new_stores g g') ∧
    leds g' =
      nscale8 (255 - S_TWINKLE_FALLOFF_RATE) <$>
        <[Z.to_nat pos := CRGB_of_CHSV (mkCHSV 190 255 255)]>
          (<[Z.to_nat (pos - 1) := CRGB_of_CHSV (mkCHSV 190 255 b)]>
             (<[Z.to_nat (pos + 1) := CRGB_of_CHSV (mkCHSV 190 255 b)]> (leds g))) ∧
    drawn g' = S (S (S (drawn g))) ∧
    twinkleTimer (Earlier.S_Twinkle_Update tw g).1 = Earlier.S_TWINKLE_FREQUENCY - 1.
Proof.
  intros H tw g.
  assert (twinkleTimer tw ≤ 0) as H1 by (cbn; lia).
  assert (length (leds g) = Z.to_nat (NUM_STRIPS * NUM_STRIP_LEDS)) as H2
    by reflexivity.
  split; [split; assumption|].
  exact (@Earlier_Twinkle_lights_three_LEDs bench tw g H1 H2).
Defined.

(** ** S_TraceChase *)

Lemma Earlier_trace_advance_spec `{Platform} tc g :
  length (traces tc) = Z.to_nat NUM_STRIPS → traceColorIndex tc = 0 →
  traces (Earlier.trace_advance tc g).1 =
    (λ t, wrap_forward (wrap_forward (wrap_forward t))) <$> traces tc ∧
  stores (Earlier.trace_advance tc g).2 =
    ((λ a, Assigned a.1 a.2) <$>
     rev (mjoin (imap (λ (j : nat) t,
            [(GetStrip (Z.of_nat j) + wrap_forward t,
              S_TRACE_CHASE_COLORS_at (Z.of_nat j `mod` 3));
             (GetStrip (Z.of_nat j) + wrap_forward (wrap_forward t),
              S_TRACE_CHASE_COLORS_at (Z.of_nat j `mod` 3));
             (GetStrip (Z.of_nat j) + wrap_forward (wrap_forward (wrap_forward t)),
              S_TRACE_CHASE_COLORS_at (Z.of_nat j `mod` 3))]) (traces tc))))
    ++ stores g.
Proof.
  destruct tc as [l ci]. cbn [traces traceColorIndex]. intros Hlen ->.
  do 9 (destruct l as [|? l]; try discriminate Hlen).
  split; lazy -[wrap_forward S_TRACE_CHASE_COLORS_at]; reflexivity.
Qed.

Lemma Earlier_trace_advance_globals `{Platform} tc g :
  drawn (Earlier.trace_advance tc g).2 = drawn g ∧
  (leds_ok g → leds_ok (Earlier.trace_advance tc g).2).
Proof.
  unfold Earlier.trace_advance. generalize (Z.to_nat NUM_STRIPS). intros n.
  induction n as [|n [IHd IHl]]; cbn [for_upto]; [done|].
  revert IHd IHl. generalize (for_upto n Earlier.trace_strip (tc, g)).
  intros s IHd IHl. unfold Earlier.trace_strip. cbn [snd].
  generalize (Z.to_nat S_TRACE_SPEED). intros m.
  induction m as [|m [IHd' IHl']]; cbn [for_upto]; [done|].
  rewrite trace_step_drawn. split; [done|].
  intros Hg. apply trace_step_ok. by apply IHl'.
Qed.

Lemma wrap_forward_thrice t :
  0 ≤ t < NUM_STRIP_LEDS →
  wrap_forward t = (t + 1) `mod` NUM_STRIP_LEDS ∧
  wrap_forward (wrap_forward t) = (t + 2) `mod` NUM_STRIP_LEDS ∧
  wrap_forward (wrap_forward (wrap_forward t)) =
    (t + S_TRACE_SPEED) `mod` NUM_STRIP_LEDS.
Proof.
  intros Ht.
  destruct (wrap_forward_range t Ht) as [E1 R1].
  destruct (wrap_forward_range _ R1) as [E2 R2].
  destruct (wrap_forward_range _ R2) as [E3 _].
  rewrite E3, E2, E1. rewrite !Zplus_mod_idemp_l. unfold S_TRACE_SPEED.
  split_and!; f_equal; lia.
Qed.

Lemma Earlier_S_TraceChase_Update_eq `{Platform} tc g :
  Earlier.S_TraceChase_Update tc g =
  (mkTraceChase (traces (Earlier.trace_advance tc g).1) 0,
   fade_loop (255 - Earlier.S_TRACE_FALLOFF_RATE) (Earlier.trace_advance tc g).2).
Proof. reflexivity. Qed.

Lemma led_on_strip_in_range (j : nat) (p : Z) c :
  Z.of_nat j < NUM_STRIPS →
  in_range (Assigned (GetStrip (Z.of_nat j) + p `mod` NUM_STRIP_LEDS) c).
Proof.
  unfold in_range, GetStrip, NUM_STRIPS, NUM_STRIP_LEDS. cbn [store_index].
  intros Hj. dlia.
Qed.

Lemma Earlier_S_TraceChase_Update_ok `{Platform} tc g :
  TraceChase_ok tc → traceColorIndex tc = 0 →
  let s := Earlier.S_TraceChase_Update tc g in
  let assigned :=
    (λ a, Assigned a.1 a.2) <$>
    rev (mjoin (imap (λ (j : nat) (t : Z),
                   (λ d, (GetStrip (Z.of_nat j) + (t + d) `mod` NUM_STRIP_LEDS,
                          S_TRACE_CHASE_COLORS_at (Z.of_nat j `mod` 3)))
                   <$> [1; 2; 3])
                (traces tc))) in
  traces s.1 = (λ t, (t + S_TRACE_SPEED) `mod` NUM_STRIP_LEDS) <$> traces tc ∧
  traceColorIndex s.1 = 0 ∧
  TraceChase_ok s.1 ∧
  drawn s.2 = drawn g ∧
  (leds_ok g → leds_ok s.2) ∧
  Forall in_range assigned ∧
  ∃ lf, Forall faded lf ∧ stores s.2 = (lf ++ assigned) ++ stores g.
Proof.
  intros [Hl Hr] Hc s. subst s. rewrite Earlier_S_TraceChase_Update_eq.
  destruct (Earlier_trace_advance_spec tc g Hl Hc) as [Ht Hs].
  destruct (Earlier_trace_advance_globals tc g) as [Hd Hok].
  destruct (fade_loop_faded (255 - Earlier.S_TRACE_FALLOFF_RATE)
              (Earlier.trace_advance tc g).2) as (lf & Hlf & Hf).
  pose proof (fade_loop_drawn (255 - Earlier.S_TRACE_FALLOFF_RATE)
                (Earlier.trace_advance tc g).2) as Hfd.
  pose proof (fade_loop_ok (255 - Earlier.S_TRACE_FALLOFF_RATE)
                (Earlier.trace_advance tc g).2) as Hfo.
  revert Ht Hs Hd Hok Hlf Hfd Hfo. generalize (Earlier.trace_advance tc g).
  intros s. generalize (fade_loop (255 - Earlier.S_TRACE_FALLOFF_RATE) s.2).
  intros g' Ht Hs Hd Hok Hlf Hfd Hfo. cbn [fst snd traces traceColorIndex].
  assert (traces s.1 =
          (λ t, (t + S_TRACE_SPEED) `mod` NUM_STRIP_LEDS) <$> traces tc) as Ht'.
  { rewrite Ht. apply Forall_fmap_ext. eapply Forall_impl; [exact Hr|].
    intros t Hrt. cbn beta in Hrt.
    by destruct (wrap_forward_thrice t Hrt) as (_ & _ & ->). }
  assert (mjoin (imap (λ (j : nat) t,
            [(GetStrip (Z.of_nat j) + wrap_forward t,
              S_TRACE_CHASE_COLORS_at (Z.of_nat j `mod` 3));
             (GetStrip (Z.of_nat j) + wrap_forward (wrap_forward t),
              S_TRACE_CHASE_COLORS_at (Z.of_nat j `mod` 3));
             (GetStrip (Z.of_nat j) + wrap_forward (wrap_forward (wrap_forward t)),
              S_TRACE_CHASE_COLORS_at (Z.of_nat j `mod` 3))]) (traces tc)) =
          mjoin (imap (λ (j : nat) (t : Z),
                   (λ d, (GetStrip (Z.of_nat j) + (t + d) `mod` NUM_STRIP_LEDS,
                          S_TRACE_CHASE_COLORS_at (Z.of_nat j `mod` 3)))
                   <$> [1; 2; 3])
                (traces tc))) as Hpaint.
  { f_equal. apply imap_ext. intros j t Hj.
    assert (0 ≤ t < NUM_STRIP_LEDS) as Hrt
      by (eapply (Forall_lookup_1 _ _ _ _ Hr); done).
    destruct (wrap_forward_thrice t Hrt) as (-> & -> & ->). reflexivity. }
  rewrite Hpaint in Hs. clear Hpaint.
  rewrite Hs, app_assoc in Hlf.
  split; [exact Ht'|]. split; [reflexivity|]. split.
  { split; cbn [traces]; rewrite Ht'; [by rewrite length_fmap|].
    apply Forall_fmap. eapply Forall_impl; [exact Hr|].
    intros t Hrt. cbn [compose]. unfold NUM_STRIP_LEDS, S_TRACE_SPEED. dlia. }
  split; [by rewrite Hfd|]. split; [intros Hg; by apply Hfo, Hok|]. split.
  { apply Forall_fmap, Forall_rev. apply Forall_forall. intros a Ha.
    apply list_elem_of_join in Ha as (l & Hal & Hl').
    apply elem_of_lookup_imap in Hl' as (j & t & -> & Hj).
    apply lookup_lt_Some in Hj. rewrite Hl in Hj.
    apply list_elem_of_fmap in Hal as (d & -> & _).
    apply led_on_strip_in_range.
    unfold NUM_STRIPS in *. lia. }
  exists lf. by split.
Qed.

(** X14: [Update] of the S_TraceChase of the first sketch, from traces
    inside their strips and colour index 0: every strip moves 3 LEDs
    forwards, wrapping at the end of the strip; the LEDs assigned are, strip
    after strip, the three LEDs passed, with palette entry [j mod 3] on
    strip [j]; every store is in range, [random()] is not called, and the
    colour index is 0 again. *)
Theorem Earlier_TraceChase_Update_spec `{Platform}
    (tc : S_TraceChase) (g : Globals) :
  TraceChase_ok tc → traceColorIndex tc = 0 →
  let s := Earlier.S_TraceChase_Update tc g in
  traces s.1 = (λ t, (t + S_TRACE_SPEED) `mod` NUM_STRIP_LEDS) <$> traces tc ∧
  traceColorIndex s.1 = 0 ∧
  TraceChase_ok s.1 ∧
  rev (assignments (new_stores g s.2)) =
    mjoin (imap (λ (j : nat) (t : Z),
                   (λ d, (GetStrip (Z.of_nat j) + (t + d) `mod` NUM_STRIP_LEDS,
                          S_TRACE_CHASE_COLORS_at (Z.of_nat j `mod` 3)))
                   <$> [1; 2; 3])
                (traces tc)) ∧
  Forall in_range (new_stores g s.2) ∧
  stores s.2 = new_stores g s.2 ++ stores g ∧
  drawn s.2 = drawn g ∧
  (leds_ok g → leds_ok s.2).
Proof.
  intros Hok Hc.
  pose proof (Earlier_S_TraceChase_Update_ok tc g Hok Hc) as Hu.
  cbn zeta in *. revert Hu. generalize (Earlier.S_TraceChase_Update tc g).
  intros s (Ht & Hci & Hok' & Hd & Hl & Hin & lf & Hf & Hs).
  rewrite (new_stores_app _ _ _ Hs).
  split; [exact Ht|]. split; [exact Hci|]. split; [exact Hok'|]. split.
  { rewrite assignments_app, (assignments_faded _ Hf), app_nil_l.
    by rewrite assignments_Assigned, rev_involutive. }
  split.
  { apply Forall_app. split; [|exact Hin].
    eapply Forall_impl; [exact Hf|]. by intros ? [? _]. }
  split; [exact Hs|]. split; [exact Hd|exact Hl].
Qed.

Lemma Earlier_TraceChase_Update_spec_witness :
  let H := bench in
  let tc := Earlier.S_TraceChase_new in
  let g := globals power_on in
  (TraceChase_ok tc ∧ traceColorIndex tc = 0) ∧
  let s := Earlier.S_TraceChase_Update tc g in
  traces s.1 = (λ t, (t + S_TRACE_SPEED) `mod` NUM_STRIP_LEDS) <$> traces tc ∧
  traceColorIndex s.1 = 0 ∧
  TraceChase_ok s.1 ∧
  rev (assignments (new_stores g s.2)) =
    mjoin (imap (λ (j : nat) (t : Z),
                   (λ d, (GetStrip (Z.of_nat j) + (t + d) `mod` NUM_STRIP_LEDS,
                          S_TRACE_CHASE_COLORS_at (Z.of_nat j `mod` 3)))
                   <$> [1; 2; 3])
                (traces tc)) ∧
  Forall in_range (new_stores g s.2) ∧
  stores s.2 = new_stores g s.2 ++ stores g ∧
  drawn s.2 = drawn g ∧
  (leds_ok g → leds_ok s.2).
Proof.
  intros H tc g.
  assert (TraceChase_ok tc) as H1.
  { split; [reflexivity|]. vm_compute. repeat constructor; discriminate. }
  assert (traceColorIndex tc = 0) as H2 by reflexivity.
  split; [split; assumption|].
  exact (@Earlier_TraceChase_Update_spec bench tc g H1 H2).
Defined.

(** ** [loop] *)

Lemma Earlier_S_TraceChase_new_traces (j : nat) :
  Z.of_nat j < NUM_STRIPS →
  traces Earlier.S_TraceChase_new !! j = Some (S_TRACE_OFFSET * Z.of_nat j).
Proof.
  unfold NUM_STRIPS. intros Hj.
  do 8 (destruct j as [|j]; [reflexivity|]). lia.
Qed.

Lemma Earlier_S_TraceChase_new_ok : TraceChase_ok Earlier.S_TraceChase_new.
Proof.
  split; [reflexivity|]. vm_compute. repeat constructor; discriminate.
Qed.

Lemma Earlier_loop_TraceChase `{Platform} p :
  Earlier.ledSequence p = 2 →
  Earlier.loop p =
  Earlier.mkProgram
    (Earlier.S_TraceChase_Update (Earlier.traceChase p) (Earlier.globals p)).2
    (Earlier.ringChase p) (Earlier.twinkle p)
    (Earlier.S_TraceChase_Update (Earlier.traceChase p) (Earlier.globals p)).1
    (Earlier.ledSequence p).
Proof. intros Hk. unfold Earlier.loop. by rewrite Hk. Qed.

(** X15: the [loop] of the first sketch never changes [ledSequence], which
    starts at 2: only S_TraceChase is ever updated, the objects of
    S_RingChase and S_Twinkle stay as constructed and [random()] is never
    called.  The constructor of S_TraceChase puts strip [j] at [15 j], so
    after [n] passes it is at [(15 j + 3 n) mod 150]; every store made is in
    range and [leds] holds bytes. *)
Theorem Earlier_loop_runs_TraceChase_only `{Platform} (n : nat) :
  let p := Earlier.run n in
  Earlier.ledSequence p = 2 ∧
  Earlier.ringChase p = S_RingChase_new ∧
  Earlier.twinkle p = S_Twinkle_new ∧
  (Earlier.traceChase p, Earlier.globals p) =
    Earlier_TraceChase_ticks n
      (Earlier.S_TraceChase_new, Earlier.globals (Earlier.setup Earlier.power_on)) ∧
  (∀ j : nat, Z.of_nat j < NUM_STRIPS →
     traces (Earlier.traceChase p) !! j =
     Some ((S_TRACE_OFFSET * Z.of_nat j + S_TRACE_SPEED * Z.of_nat n)
             `mod` NUM_STRIP_LEDS)) ∧
  traceColorIndex (Earlier.traceChase p) = 0 ∧
  TraceChase_ok (Earlier.traceChase p) ∧
  leds_ok (Earlier.globals p) ∧
  Forall in_range (stores (Earlier.globals p)) ∧
  drawn (Earlier.globals p) = 0%nat.
Proof.
  cbn zeta. induction n as [|n IH].
  - split; [reflexivity|]. split; [reflexivity|]. split; [reflexivity|].
    split; [reflexivity|]. split.
    { intros j Hj.
      change (Earlier.traceChase (Earlier.run 0)) with Earlier.S_TraceChase_new.
      rewrite (Earlier_S_TraceChase_new_traces j Hj). f_equal.
      unfold NUM_STRIPS, S_TRACE_OFFSET, NUM_STRIP_LEDS, S_TRACE_SPEED in *.
      rewrite Z.mod_small; lia. }
    split; [reflexivity|]. split; [exact Earlier_S_TraceChase_new_ok|].
    split.
    { split; [reflexivity|]. apply Forall_replicate.
      unfold wf_CRGB, byte_range. cbn. lia. }
    split; [apply Forall_nil_2|reflexivity].
  - destruct IH as (Hk & Hrc & Htw & Hpair & Htr & Hci & Hok & Hg & Hst & Hd).
    change (Earlier.run (S n)) with (Earlier.loop (Earlier.run n)).
    change (Earlier_TraceChase_ticks (S n)
              (Earlier.S_TraceChase_new,
               Earlier.globals (Earlier.setup Earlier.power_on)))
      with (Earlier.S_TraceChase_Update
              (Earlier_TraceChase_ticks n
                 (Earlier.S_TraceChase_new,
                  Earlier.globals (Earlier.setup Earlier.power_on))).1
              (Earlier_TraceChase_ticks n
                 (Earlier.S_TraceChase_new,
                  Earlier.globals (Earlier.setup Earlier.power_on))).2).
    rewrite <- Hpair. clear Hpair.
    revert Hk Hrc Htw Htr Hci Hok Hg Hst Hd. generalize (Earlier.run n).
    intros p Hk Hrc Htw Htr Hci Hok Hg Hst Hd.
    rewrite (Earlier_loop_TraceChase p Hk).
    cbn [Earlier.ledSequence Earlier.ringChase Earlier.twinkle
         Earlier.traceChase Earlier.globals fst snd].
    pose proof (Earlier_S_TraceChase_Update_ok (Earlier.traceChase p)
                  (Earlier.globals p) Hok Hci) as Hu. cbn zeta in Hu.
    revert Hu.
    generalize (Earlier.S_TraceChase_Update (Earlier.traceChase p)
                  (Earlier.globals p)).
    intros s (Ht' & Hci' & Hok' & Hd' & Hg' & Hin & lf & Hf & Hst').
    split; [exact Hk|]. split; [exact Hrc|]. split; [exact Htw|].
    split; [by destruct s|]. split.
    { intros j Hj. rewrite Ht', list_lookup_fmap, (Htr j Hj).
      cbn [fmap option_fmap option_map].
      f_equal. rewrite Zplus_mod_idemp_l. f_equal. lia. }
    split; [exact Hci'|]. split; [exact Hok'|]. split; [exact (Hg' Hg)|].
    split; [|by rewrite Hd'].
    rewrite Hst'. rewrite !Forall_app. split; [split; [|exact Hin]|exact Hst].
    eapply Forall_impl; [exact Hf|]. by intros ? [? _].
Qed.

(** ** S_RingChase *)

Lemma Earlier_ring_tick_scalars `{Platform} rc :
  pulseTimer (Earlier.ring_tick rc) =
    (if pulseTimer rc <=? 0 then Earlier.S_RING_CHASE_PULSE_FREQUENCY
     else pulseTimer rc) - 1 ∧
  pulseColorIndex (Earlier.ring_tick rc) =
    (if pulseTimer rc <=? 0 then next_pulse_color (pulseColorIndex rc)
     else pulseColorIndex rc).
Proof.
  unfold Earlier.ring_tick, ring_falloff, ring_shift, Earlier.ring_pulse,
    next_pulse_color.
  destruct (pulseTimer rc <=? 0);
    cbn [pulseTimer pulseColorIndex pulseRingShiftTimer pulseRingIndex];
    by destruct (_ && _).
Qed.

Lemma Earlier_ring_pulse_fires `{Platform} rc :
  pulseTimer rc ≤ 0 →
  Earlier.ring_pulse rc =
  mkRingChase (array_set 0 (S_RING_CHASE_COLORS_at (next_pulse_color (pulseColorIndex rc)))
                 (rings rc))
              (Earlier.S_RING_CHASE_PULSE_FREQUENCY - 1)
              S_RING_CHASE_RING_SHIFT_FREQUENCY 1
              (next_pulse_color (pulseColorIndex rc)).
Proof.
  intros Ht. unfold Earlier.ring_pulse.
  destruct (Z.leb_spec (pulseTimer rc) 0); [reflexivity|lia].
Qed.

Lemma Earlier_ring_pulse_propagates `{Platform} rc (k : nat) :
  length (rings rc) = Z.to_nat NUM_STRIPS → pulseTimer rc ≤ 0 →
  0 ≤ pulseColorIndex rc ≤ S_RING_CHASE_NUM_PULSE_COLORS → (k < 8)%nat →
  let c := S_RING_CHASE_COLORS_at (next_pulse_color (pulseColorIndex rc)) in
  let s := Nat.iter 14 Earlier.ring_tick (Earlier.ring_tick rc) in
  rings s !! k = Some (Nat.iter (15 - 2 * k) ring_falloff_one c) ∧
  pulseColorIndex s = next_pulse_color (pulseColorIndex rc) ∧
  pulseRingIndex s = NUM_STRIPS ∧
  pulseTimer s = Earlier.S_RING_CHASE_PULSE_FREQUENCY - 15.
Proof.
  intros Hlen Ht Hci Hk c s. subst c s.
  assert (Earlier.ring_tick rc =
          ring_falloff (ring_shift
            (mkRingChase
               (array_set 0 (S_RING_CHASE_COLORS_at
                               (next_pulse_color (pulseColorIndex rc))) (rings rc))
               (Earlier.S_RING_CHASE_PULSE_FREQUENCY - 1)
               S_RING_CHASE_RING_SHIFT_FREQUENCY 1
               (next_pulse_color (pulseColorIndex rc))))) as ->.
  { unfold Earlier.ring_tick. by rewrite Earlier_ring_pulse_fires. }
  destruct rc as [l pt st ri ci]. cbn [rings pulseColorIndex pulseTimer] in *.
  do 9 (destruct l as [|? l]; try discriminate Hlen). clear Hlen Ht.
  unfold S_RING_CHASE_NUM_PULSE_COLORS in Hci.
  assert (ci = 0 ∨ ci = 1 ∨ ci = 2 ∨ ci = 3) as [-> | [-> | [-> | ->]]] by lia;
    (split_and!;
     [do 8 (destruct k as [|k];
            [lazy -[ring_falloff_one S_RING_CHASE_COLORS_at]; reflexivity|]); lia
     |lazy -[ring_falloff_one S_RING_CHASE_COLORS_at]; reflexivity
     |lazy -[ring_falloff_one S_RING_CHASE_COLORS_at]; reflexivity
     |lazy -[ring_falloff_one S_RING_CHASE_COLORS_at]; reflexivity]).
Qed.

Lemma Earlier_ring_pulses_cycle `{Platform} rc (n : nat) :
  pulseTimer rc = 0 → pulseColorIndex rc = S_RING_CHASE_NUM_PULSE_COLORS →
  pulseTimer (Nat.iter (S n) Earlier.ring_tick rc) =
    Earlier.S_RING_CHASE_PULSE_FREQUENCY - 1
    - Z.of_nat n `mod` Earlier.S_RING_CHASE_PULSE_FREQUENCY ∧
  pulseColorIndex (Nat.iter (S n) Earlier.ring_tick rc) =
    (Z.of_nat n / Earlier.S_RING_CHASE_PULSE_FREQUENCY)
      `mod` S_RING_CHASE_NUM_PULSE_COLORS.
Proof.
  intros Ht Hc. induction n as [|n [IHt IHc]].
  - cbn [Nat.iter nat_rect]. destruct (Earlier_ring_tick_scalars rc) as [-> ->].
    rewrite Ht, Hc. done.
  - change (Nat.iter (S (S n)) Earlier.ring_tick rc)
      with (Earlier.ring_tick (Nat.iter (S n) Earlier.ring_tick rc)).
    destruct (Earlier_ring_tick_scalars (Nat.iter (S n) Earlier.ring_tick rc))
      as [-> ->].
    rewrite IHt, IHc. rewrite Nat2Z.inj_succ.
    unfold next_pulse_color, Earlier.S_RING_CHASE_PULSE_FREQUENCY,
      S_RING_CHASE_NUM_PULSE_COLORS.
    destruct (Z.leb_spec (30 - 1 - Z.of_nat n `mod` 30) 0);
      [destruct (Z.geb_spec ((Z.of_nat n / 30) `mod` 3 + 1) 3)|]; split; dlia.
Qed.

Lemma Earlier_RingChase_ticks_fst `{Platform} n rc g :
  (Nat.iter n (λ s, Earlier.S_RingChase_Update s.1 s.2) (rc, g)).1 =
  Nat.iter n Earlier.ring_tick rc.
Proof.
  induction n as [|n IH]; [reflexivity|].
  rewrite !Nat.iter_succ. rewrite <- IH. reflexivity.
Qed.

(** X16: S_RingChase of the first sketch, with a pulse every 30 ticks: 15
    calls of [Update] from the start of a pulse, the pulse has reached every
    ring (ring [k] holds its colour, a palette entry, at value
    [255 - 8 (15 - 2 k)]), the ring index is at NUM_STRIPS and 15 ticks remain
    before the next pulse; from the constructor the pulses start every 30
    ticks with the palette indices 0, 1, 2, 0, ... *)
Theorem Earlier_RingChase_pulses `{Platform}
    (rc : S_RingChase) (g : Globals) (k n : nat) :
  RingChase_ok rc → pulseTimer rc ≤ 0 →
  0 ≤ pulseColorIndex rc ≤ S_RING_CHASE_NUM_PULSE_COLORS →
  Z.of_nat k < NUM_STRIPS →
  let updates n s := Nat.iter n (λ s, Earlier.S_RingChase_Update s.1 s.2) s in
  let ci := next_pulse_color (pulseColorIndex rc) in
  let c := S_RING_CHASE_COLORS_at ci in
  let s := (updates 15%nat (rc, g)).1 in
  S_RING_CHASE_COLORS !! Z.to_nat ci = Some c ∧
  rings s !! k =
    Some (mkCHSV (hue c) (sat c)
            (255 - S_RING_CHASE_FALLOF_RATE * (15 - 2 * Z.of_nat k))) ∧
  pulseColorIndex s = ci ∧
  pulseRingIndex s = NUM_STRIPS ∧
  pulseTimer s = Earlier.S_RING_CHASE_PULSE_FREQUENCY - 15 ∧
  let s' := (updates (S n) (S_RingChase_new, g)).1 in
  pulseTimer s' =
    Earlier.S_RING_CHASE_PULSE_FREQUENCY - 1
    - Z.of_nat n `mod` Earlier.S_RING_CHASE_PULSE_FREQUENCY ∧
  pulseColorIndex s' =
    (Z.of_nat n / Earlier.S_RING_CHASE_PULSE_FREQUENCY)
      `mod` S_RING_CHASE_NUM_PULSE_COLORS.
Proof.
  intros [Hl Hwf] Ht Hci Hk. cbv beta zeta.
  rewrite !Earlier_RingChase_ticks_fst.
  change (Nat.iter 15 Earlier.ring_tick rc)
    with (Nat.iter 14 Earlier.ring_tick (Earlier.ring_tick rc)).
  assert (k < 8)%nat as Hk' by (unfold NUM_STRIPS in Hk; lia).
  destruct (Earlier_ring_pulse_propagates rc k Hl Ht Hci Hk')
    as (Hr & Hc & Hi & Hp).
  revert Hr Hc Hi Hp.
  generalize (Nat.iter 14 Earlier.ring_tick (Earlier.ring_tick rc)).
  intros s Hr Hc Hi Hp.
  split.
  { unfold S_RING_CHASE_NUM_PULSE_COLORS, next_pulse_color in *.
    assert (pulseColorIndex rc = 0 ∨ pulseColorIndex rc = 1 ∨
            pulseColorIndex rc = 2 ∨ pulseColorIndex rc = 3)
      as [-> | [-> | [-> | ->]]] by lia; reflexivity. }
  split.
  { rewrite Hr. f_equal.
    rewrite iter_ring_falloff_one by apply wf_S_RING_CHASE_COLORS_at.
    f_equal.
    pose proof (wf_S_RING_CHASE_COLORS_at
                  (next_pulse_color (pulseColorIndex rc))) as (_ & _ & Hv).
    assert (val (S_RING_CHASE_COLORS_at (next_pulse_color (pulseColorIndex rc)))
            = 255) as ->.
    { unfold S_RING_CHASE_NUM_PULSE_COLORS, next_pulse_color in *.
      assert (pulseColorIndex rc = 0 ∨ pulseColorIndex rc = 1 ∨
              pulseColorIndex rc = 2 ∨ pulseColorIndex rc = 3)
        as [-> | [-> | [-> | ->]]] by lia; reflexivity. }
    unfold S_RING_CHASE_FALLOF_RATE. lia. }
  split; [exact Hc|]. split; [exact Hi|]. split; [exact Hp|].
  apply Earlier_ring_pulses_cycle; reflexivity.
Qed.

Lemma Earlier_RingChase_pulses_witness :
  let H := bench in
  let rc := S_RingChase_new in
  let g := globals power_on in
  (RingChase_ok rc ∧ pulseTimer rc ≤ 0 ∧
   0 ≤ pulseColorIndex rc ≤ S_RING_CHASE_NUM_PULSE_COLORS ∧
   Z.of_nat 3 < NUM_STRIPS) ∧
  let updates n s := Nat.iter n (λ s, Earlier.S_RingChase_Update s.1 s.2) s in
  let ci := next_pulse_color (pulseColorIndex rc) in
  let c := S_RING_CHASE_COLORS_at ci in
  let s := (updates 15%nat (rc, g)).1 in
  S_RING_CHASE_COLORS !! Z.to_nat ci = Some c ∧
  rings s !! 3%nat =
    Some (mkCHSV (hue c) (sat c)
            (255 - S_RING_CHASE_FALLOF_RATE * (15 - 2 * Z.of_nat 3))) ∧
  pulseColorIndex s = ci ∧
  pulseRingIndex s = NUM_STRIPS ∧
  pulseTimer s = Earlier.S_RING_CHASE_PULSE_FREQUENCY - 15 ∧
  let s' := (updates 41%nat (S_RingChase_new, g)).1 in
  pulseTimer s' =
    Earlier.S_RING_CHASE_PULSE_FREQUENCY - 1
    - Z.of_nat 40 `mod` Earlier.S_RING_CHASE_PULSE_FREQUENCY ∧
  pulseColorIndex s' =
    (Z.of_nat 40 / Earlier.S_RING_CHASE_PULSE_FREQUENCY)
      `mod` S_RING_CHASE_NUM_PULSE_COLORS.
Proof.
  intros H rc g.
  assert (RingChase_ok rc) as H1 by apply S_RingChase_new_ok.
  assert (pulseTimer rc ≤ 0) as H2 by (cbn; lia).
  assert (0 ≤ pulseColorIndex rc ≤ S_RING_CHASE_NUM_PULSE_COLORS) as H3
    by (cbn; unfold S_RING_CHASE_NUM_PULSE_COLORS; lia).
  assert (Z.of_nat 3 < NUM_STRIPS) as H4 by (unfold NUM_STRIPS; lia).
  split; [exact (conj H1 (conj H2 (conj H3 H4)))|].
  exact (@Earlier_RingChase_pulses bench rc g 3%nat 40%nat H1 H2 H3 H4).
Defined.

(** * Properties of [HalloweenLights.ino] *)

(** ** The loops over [buffer] *)

Lemma Halloween_ring_falloff_spec `{Platform} g :
  length (Halloween.buffer g) = Z.to_nat (Halloween.NUM_STRIP_LEDS * NUM_STRIPS) →
  Halloween.buffer (Halloween.ring_falloff g) =
    Halloween.falloff_one <$> Halloween.buffer g ∧
  Halloween.leds (Halloween.ring_falloff g) = Halloween.leds g ∧
  ∃ l, Halloween.stores (Halloween.ring_falloff g) = l ++ Halloween.stores g ∧
       Forall Halloween_in_range l.
Proof.
  intros Hlen. unfold Halloween.ring_falloff.
  assert (∀ n : nat, (n ≤ Z.to_nat (Halloween.NUM_STRIP_LEDS * NUM_STRIPS))%nat →
    let g' := for_upto n
      (λ i g,
         Halloween.buffer_assign i
           (Halloween.falloff_one
              (array_get (mkCHSV 0 0 0) i (Halloween.buffer g))) g) g in
    Halloween.buffer g' =
      for_upto n
        (λ i a,
           array_set i (Halloween.falloff_one (array_get (mkCHSV 0 0 0) i a)) a)
        (Halloween.buffer g) ∧
    Halloween.leds g' = Halloween.leds g ∧
    ∃ l, Halloween.stores g' = l ++ Halloween.stores g ∧
         Forall Halloween_in_range l) as Hn.
  { intros n. cbn zeta. induction n as [|n IH]; intros Hle.
    - cbn [for_upto]. split; [done|]. split; [done|]. by exists [].
    - cbn [for_upto]. destruct IH as (IHb & IHl & l & IHs & IHf); [lia|].
      revert IHb IHl IHs. generalize (for_upto n
        (λ i g,
           Halloween.buffer_assign i
             (Halloween.falloff_one
                (array_get (mkCHSV 0 0 0) i (Halloween.buffer g))) g) g).
      intros g' IHb IHl IHs. unfold Halloween.buffer_assign.
      cbn [Halloween.buffer Halloween.leds Halloween.stores].
      rewrite IHb. split; [done|]. split; [done|].
      exists (Z.of_nat n :: l). split; [by rewrite IHs|].
      apply Forall_cons. split; [|done]. unfold Halloween_in_range. lia. }
  destruct (Hn _ (Nat.le_refl _)) as (Hb & Hl & Hs).
  split; [|by split]. rewrite Hb, <- Hlen. apply for_upto_map_all.
Qed.

Lemma Halloween_ring_paint_spec `{Platform} (first : Z) c g :
  0 ≤ first →
  first + Halloween.NUM_STRIP_LEDS ≤ Z.of_nat (length (Halloween.buffer g)) →
  length (Halloween.buffer (Halloween.ring_paint first c g)) =
    length (Halloween.buffer g) ∧
  (∀ k : nat,
     Halloween.buffer (Halloween.ring_paint first c g) !! k =
     if bool_decide (first ≤ Z.of_nat k < first + Halloween.NUM_STRIP_LEDS)
     then Some c else Halloween.buffer g !! k) ∧
  Halloween.leds (Halloween.ring_paint first c g) = Halloween.leds g ∧
  ∃ l, Halloween.stores (Halloween.ring_paint first c g) = l ++ Halloween.stores g ∧
       Forall (λ k, first ≤ k < first + Halloween.NUM_STRIP_LEDS) l.
Proof.
  intros Hf Hlen. unfold Halloween.ring_paint.
  assert (∀ n : nat, Z.of_nat n ≤ Halloween.NUM_STRIP_LEDS →
    let g' := for_upto n (λ i, Halloween.buffer_assign (first + i) c) g in
    length (Halloween.buffer g') = length (Halloween.buffer g) ∧
    (∀ k : nat,
       Halloween.buffer g' !! k =
       if bool_decide (first ≤ Z.of_nat k < first + Z.of_nat n)
       then Some c else Halloween.buffer g !! k) ∧
    Halloween.leds g' = Halloween.leds g ∧
    ∃ l, Halloween.stores g' = l ++ Halloween.stores g ∧
         Forall (λ k, first ≤ k < first + Halloween.NUM_STRIP_LEDS) l) as Hn.
  { intros n. cbn zeta. induction n as [|n IH]; intros Hle.
    - cbn [for_upto]. split; [done|]. split.
      + intros k. rewrite bool_decide_false by lia. done.
      + split; [done|]. by exists [].
    - cbn [for_upto]. destruct IH as (IHl & IHk & IHleds & l & IHs & IHf); [lia|].
      revert IHl IHk IHleds IHs.
      generalize (for_upto n (λ i, Halloween.buffer_assign (first + i) c) g).
      intros g' IHl IHk IHleds IHs. unfold Halloween.buffer_assign.
      cbn [Halloween.buffer Halloween.leds Halloween.stores].
      rewrite length_array_set. split; [done|]. split.
      + intros k. unfold array_set. rewrite bool_decide_true by lia.
        destruct (decide (k = Z.to_nat (first + Z.of_nat n))) as [->|Hne].
        * rewrite list_lookup_insert_eq by lia.
          rewrite bool_decide_true by lia. done.
        * rewrite list_lookup_insert_ne by lia. rewrite IHk.
          repeat case_bool_decide; (done || lia).
      + split; [done|]. exists (first + Z.of_nat n :: l).
        split; [by rewrite IHs|]. apply Forall_cons. split; [lia|done]. }
  destruct (Hn (Z.to_nat Halloween.NUM_STRIP_LEDS)) as (H1 & H2 & H3 & H4).
  { unfold Halloween.NUM_STRIP_LEDS. lia. }
  split; [done|]. split; [|by split].
  intros k. rewrite H2. by rewrite Z2Nat.id by (unfold Halloween.NUM_STRIP_LEDS; lia).
Qed.

Lemma Halloween_flush_spec `{Platform} g :
  length (Halloween.buffer g) = Z.to_nat (Halloween.NUM_STRIP_LEDS * NUM_STRIPS) →
  length (Halloween.leds g) = Z.to_nat (Halloween.NUM_STRIP_LEDS * NUM_STRIPS) →
  Halloween.leds (Halloween.flush g) = CRGB_of_CHSV <$> Halloween.buffer g ∧
  Halloween.buffer (Halloween.flush g) = Halloween.buffer g ∧
  Halloween.stores (Halloween.flush g) = Halloween.stores g.
Proof.
  intros Hb Hl. unfold Halloween.flush.
  assert (∀ n : nat, (n ≤ Z.to_nat (Halloween.NUM_STRIP_LEDS * NUM_STRIPS))%nat →
    let g' := for_upto n
      (λ i g,
         Halloween.mkGlobals
           (array_set i (CRGB_of_CHSV (array_get (mkCHSV 0 0 0) i (Halloween.buffer g)))
              (Halloween.leds g))
           (Halloween.buffer g) (Halloween.stores g)) g in
    Halloween.leds g' =
      (CRGB_of_CHSV <$> take n (Halloween.buffer g)) ++ drop n (Halloween.leds g) ∧
    Halloween.buffer g' = Halloween.buffer g ∧
    Halloween.stores g' = Halloween.stores g) as Hn.
  { intros n. cbn zeta. induction n as [|n IH]; intros Hle.
    - cbn [for_upto]. by rewrite take_0, drop_0.
    - cbn [for_upto]. destruct IH as (IHl & IHb & IHs); [lia|].
      revert IHl IHb IHs. generalize (for_upto n
        (λ i g,
           Halloween.mkGlobals
             (array_set i (CRGB_of_CHSV (array_get (mkCHSV 0 0 0) i (Halloween.buffer g)))
                (Halloween.leds g))
             (Halloween.buffer g) (Halloween.stores g)) g).
      intros g' IHl IHb IHs.
      cbn [Halloween.buffer Halloween.leds Halloween.stores]. rewrite IHl, IHb.
      split; [|by split].
      destruct (lookup_lt_is_Some_2 (Halloween.buffer g) n) as [c Hc]; [lia|].
      rewrite (array_get_lookup _ _ _ _ Hc).
      unfold array_set. rewrite bool_decide_true by lia. rewrite Nat2Z.id.
      rewrite (take_S_r _ _ _ Hc), fmap_app. cbn [fmap list_fmap].
      rewrite <- app_assoc. cbn [app].
      destruct (lookup_lt_is_Some_2 (Halloween.leds g) n) as [x Hx]; [lia|].
      rewrite (drop_S _ _ _ Hx).
      rewrite insert_app_r_alt by (rewrite length_fmap, length_take; lia).
      rewrite length_fmap, length_take.
      replace (n - n `min` length (Halloween.buffer g))%nat with 0%nat by lia.
      done. }
  destruct (Hn _ (Nat.le_refl _)) as (H1 & H2 & H3).
  split; [|by split].
  rewrite H1, <- Hb at 1. rewrite firstn_all.
  rewrite drop_ge by lia. by rewrite app_nil_r.
Qed.

(** ** One call of [Update] *)

Lemma Halloween_ring_shift_fires `{Platform} rc g :
  Halloween.pulseRingShiftTimer rc ≤ 0 → Halloween.pulseRingIndex rc < NUM_STRIPS →
  Halloween.ring_shift (rc, g) =
  (Halloween.mkRingChase (Halloween.pulseTimer rc)
     (Halloween.S_RING_CHASE_RING_SHIFT_FREQUENCY - 1)
     (Halloween.pulseRingIndex rc + 1) (Halloween.pulseColorIndex rc),
   Halloween.ring_paint (Halloween.GetStrip (Halloween.pulseRingIndex rc))
     (S_RING_CHASE_COLORS_at (Halloween.pulseColorIndex rc)) g).
Proof.
  intros Ht Hi. unfold Halloween.ring_shift. cbn [fst snd].
  destruct (Z.leb_spec (Halloween.pulseRingShiftTimer rc) 0); [|lia].
  destruct (Z.ltb_spec (Halloween.pulseRingIndex rc) NUM_STRIPS); [|lia].
  reflexivity.
Qed.

Lemma Halloween_ring_shift_waits `{Platform} rc g :
  0 < Halloween.pulseRingShiftTimer rc ∨ NUM_STRIPS ≤ Halloween.pulseRingIndex rc →
  Halloween.ring_shift (rc, g) =
  (Halloween.mkRingChase (Halloween.pulseTimer rc)
     (Halloween.pulseRingShiftTimer rc - 1)
     (Halloween.pulseRingIndex rc) (Halloween.pulseColorIndex rc), g).
Proof.
  intros Hw. unfold Halloween.ring_shift. cbn [fst snd].
  destruct (Z.leb_spec (Halloween.pulseRingShiftTimer rc) 0);
    destruct (Z.ltb_spec (Halloween.pulseRingIndex rc) NUM_STRIPS);
    (reflexivity || lia).
Qed.

Lemma Halloween_ring_pulse_fires `{Platform} rc g :
  Halloween.pulseTimer rc ≤ 0 →
  Halloween.ring_pulse (rc, g) =
  (Halloween.mkRingChase (Halloween.S_RING_CHASE_PULSE_FREQUENCY - 1) 0 0
     (next_pulse_color (Halloween.pulseColorIndex rc)),
   Halloween.ring_paint 0 (S_RING_CHASE_COLORS_at (Halloween.pulseColorIndex rc)) g).
Proof.
  intros Ht. unfold Halloween.ring_pulse. cbn [fst snd].
  destruct (Z.leb_spec (Halloween.pulseTimer rc) 0); [reflexivity|lia].
Qed.

Lemma Halloween_ring_pulse_waits `{Platform} rc g :
  0 < Halloween.pulseTimer rc →
  Halloween.ring_pulse (rc, g) =
  (Halloween.mkRingChase (Halloween.pulseTimer rc - 1)
     (Halloween.pulseRingShiftTimer rc)
     (Halloween.pulseRingIndex rc) (Halloween.pulseColorIndex rc), g).
Proof.
  intros Ht. unfold Halloween.ring_pulse. cbn [fst snd].
  destruct (Z.leb_spec (Halloween.pulseTimer rc) 0); [lia|reflexivity].
Qed.

Lemma Halloween_wf_falloff_one c : wf_CHSV (Halloween.falloff_one c).
Proof. apply wf_CHSV_of. Qed.

Lemma Halloween_falloff_one_eq c :
  wf_CHSV c →
  Halloween.falloff_one c =
  mkCHSV (hue c) (sat c) (Z.max 0 (val c - Halloween.S_RING_CHASE_FALLOF_RATE)).
Proof.
  intros (Hh & Hs & Hv). unfold Halloween.falloff_one, CHSV_of,
    Halloween.falloff_value, Halloween.S_RING_CHASE_FALLOF_RATE, byte_range in *.
  rewrite (u8_id (hue c)), (u8_id (sat c)) by done.
  destruct (Z.ltb_spec (val c - 1) 0);
    rewrite u8_id by (unfold byte_range; lia); f_equal; lia.
Qed.

Lemma Halloween_ring_paint_ok `{Platform} first c g :
  0 ≤ first →
  first + Halloween.NUM_STRIP_LEDS ≤ Halloween.NUM_STRIP_LEDS * NUM_STRIPS →
  wf_CHSV c →
  length (Halloween.buffer g) = Z.to_nat (Halloween.NUM_STRIP_LEDS * NUM_STRIPS) →
  Forall wf_CHSV (Halloween.buffer g) →
  length (Halloween.buffer (Halloween.ring_paint first c g)) =
    Z.to_nat (Halloween.NUM_STRIP_LEDS * NUM_STRIPS) ∧
  Forall wf_CHSV (Halloween.buffer (Halloween.ring_paint first c g)) ∧
  Halloween.leds (Halloween.ring_paint first c g) = Halloween.leds g ∧
  ∃ l, Halloween.stores (Halloween.ring_paint first c g) = l ++ Halloween.stores g ∧
       Forall Halloween_in_range l.
Proof.
  intros Hf Hle Hc Hlen Hwf.
  destruct (Halloween_ring_paint_spec first c g Hf) as (Hl & Hk & Hleds & l & Hs & Hin).
  { rewrite Hlen. lia. }
  split; [by rewrite Hl|]. split; [|split; [done|]].
  - apply Forall_lookup_2. intros k x. rewrite Hk. case_bool_decide.
    + by intros [= <-].
    + intros Hx. by eapply (Forall_lookup_1 _ _ _ _ Hwf).
  - exists l. split; [done|]. eapply Forall_impl; [exact Hin|].
    intros k Hkr. unfold Halloween_in_range. cbn beta in Hkr. lia.
Qed.

Lemma Halloween_Update_ok `{Platform}
    (rc : Halloween.S_RingChase) (g : Halloween.Globals) :
  length (Halloween.buffer g) = Z.to_nat (Halloween.NUM_STRIP_LEDS * NUM_STRIPS) →
  Forall wf_CHSV (Halloween.buffer g) →
  0 ≤ Halloween.pulseRingIndex rc ≤ NUM_STRIPS →
  0 ≤ Halloween.pulseColorIndex rc < S_RING_CHASE_NUM_PULSE_COLORS →
  let s := Halloween.S_RingChase_Update rc g in
  (∃ l, Halloween.stores s.2 = l ++ Halloween.stores g ∧
        Forall Halloween_in_range l) ∧
  length (Halloween.buffer s.2) = Z.to_nat (Halloween.NUM_STRIP_LEDS * NUM_STRIPS) ∧
  Forall wf_CHSV (Halloween.buffer s.2) ∧
  0 ≤ Halloween.pulseRingIndex s.1 ≤ NUM_STRIPS ∧
  0 ≤ Halloween.pulseColorIndex s.1 < S_RING_CHASE_NUM_PULSE_COLORS ∧
  S_RING_CHASE_COLORS !! Z.to_nat (Halloween.pulseColorIndex rc) =
    Some (S_RING_CHASE_COLORS_at (Halloween.pulseColorIndex rc)) ∧
  Halloween.leds s.2 = Halloween.leds g.
Proof.
  intros Hlen Hwf Hri Hci s. subst s. unfold Halloween.S_RingChase_Update.
  assert (S_RING_CHASE_COLORS !! Z.to_nat (Halloween.pulseColorIndex rc) =
          Some (S_RING_CHASE_COLORS_at (Halloween.pulseColorIndex rc))) as Hpal.
  { unfold S_RING_CHASE_NUM_PULSE_COLORS in Hci.
    assert (Halloween.pulseColorIndex rc = 0 ∨ Halloween.pulseColorIndex rc = 1 ∨
            Halloween.pulseColorIndex rc = 2) as [-> | [-> | ->]] by lia;
      reflexivity. }
  (* the falloff *)
  destruct (Halloween_ring_falloff_spec g Hlen) as (Hb1 & Hl1 & l1 & Hs1 & Hin1).
  assert (length (Halloween.buffer (Halloween.ring_falloff g)) =
          Z.to_nat (Halloween.NUM_STRIP_LEDS * NUM_STRIPS)) as Hlen1
    by (by rewrite Hb1, length_fmap).
  assert (Forall wf_CHSV (Halloween.buffer (Halloween.ring_falloff g))) as Hwf1.
  { rewrite Hb1. apply Forall_fmap, Forall_true. intros c.
    apply Halloween_wf_falloff_one. }
  clear Hb1. revert Hl1 Hs1 Hlen1 Hwf1. generalize (Halloween.ring_falloff g).
  intros g1 Hl1 Hs1 Hlen1 Hwf1.
  (* the shift *)
  assert (∃ rc2 g2,
    Halloween.ring_shift (rc, g1) = (rc2, g2) ∧
    Halloween.pulseTimer rc2 = Halloween.pulseTimer rc ∧
    Halloween.pulseColorIndex rc2 = Halloween.pulseColorIndex rc ∧
    0 ≤ Halloween.pulseRingIndex rc2 ≤ NUM_STRIPS ∧
    length (Halloween.buffer g2) = Z.to_nat (Halloween.NUM_STRIP_LEDS * NUM_STRIPS) ∧
    Forall wf_CHSV (Halloween.buffer g2) ∧
    Halloween.leds g2 = Halloween.leds g1 ∧
    ∃ l, Halloween.stores g2 = l ++ Halloween.stores g1 ∧
         Forall Halloween_in_range l)
    as (rc2 & g2 & -> & Hpt2 & Hci2 & Hri2 & Hlen2 & Hwf2 & Hl2 & l2 & Hs2 & Hin2).
  { destruct (decide (Halloween.pulseRingShiftTimer rc ≤ 0 ∧
                      Halloween.pulseRingIndex rc < NUM_STRIPS)) as [[Ha Hb]|Hn].
    - rewrite (Halloween_ring_shift_fires rc g1 Ha Hb).
      eexists _, _. split; [reflexivity|].
      cbn [Halloween.pulseTimer Halloween.pulseColorIndex Halloween.pulseRingIndex].
      split; [done|]. split; [done|]. split; [lia|].
      apply Halloween_ring_paint_ok; try done.
      + unfold Halloween.GetStrip, Halloween.NUM_STRIP_LEDS. lia.
      + unfold Halloween.GetStrip, Halloween.NUM_STRIP_LEDS, NUM_STRIPS in *. lia.
      + apply wf_S_RING_CHASE_COLORS_at.
    - rewrite (Halloween_ring_shift_waits rc g1) by lia.
      eexists _, _. split; [reflexivity|].
      cbn [Halloween.pulseTimer Halloween.pulseColorIndex Halloween.pulseRingIndex].
      split_and!; try done; try lia. by exists []. }
  (* the pulse *)
  assert (∃ rc3 g3,
    Halloween.ring_pulse (rc2, g2) = (rc3, g3) ∧
    0 ≤ Halloween.pulseRingIndex rc3 ≤ NUM_STRIPS ∧
    0 ≤ Halloween.pulseColorIndex rc3 < S_RING_CHASE_NUM_PULSE_COLORS ∧
    length (Halloween.buffer g3) = Z.to_nat (Halloween.NUM_STRIP_LEDS * NUM_STRIPS) ∧
    Forall wf_CHSV (Halloween.buffer g3) ∧
    Halloween.leds g3 = Halloween.leds g2 ∧
    ∃ l, Halloween.stores g3 = l ++ Halloween.stores g2 ∧
         Forall Halloween_in_range l)
    as (rc3 & g3 & -> & Hri3 & Hci3 & Hlen3 & Hwf3 & Hl3 & l3 & Hs3 & Hin3).
  { destruct (Z.le_gt_cases (Halloween.pulseTimer rc2) 0) as [Ha|Ha].
    - rewrite (Halloween_ring_pulse_fires rc2 g2 Ha).
      eexists _, _. split; [reflexivity|].
      cbn [Halloween.pulseTimer Halloween.pulseColorIndex Halloween.pulseRingIndex].
      split; [unfold NUM_STRIPS; lia|]. split.
      { rewrite Hci2. unfold next_pulse_color, S_RING_CHASE_NUM_PULSE_COLORS in *.
        destruct (Z.geb_spec (Halloween.pulseColorIndex rc + 1) 3); lia. }
      apply Halloween_ring_paint_ok; try done.
      apply wf_S_RING_CHASE_COLORS_at.
    - rewrite (Halloween_ring_pulse_waits rc2 g2) by lia.
      eexists _, _. split; [reflexivity|].
      cbn [Halloween.pulseTimer Halloween.pulseColorIndex Halloween.pulseRingIndex].
      split_and!; try done; try lia. by exists []. }
  cbn [fst snd]. split.
  { exists (l3 ++ l2 ++ l1). split.
    - rewrite Hs3, Hs2, Hs1. by rewrite !app_assoc.
    - rewrite !Forall_app. done. }
  split; [done|]. split; [done|]. split; [done|]. split; [done|].
  split; [done|]. by rewrite Hl3, Hl2, Hl1.
Qed.

(** ** The pulse *)

Lemma Halloween_palette (k : Z) `{Platform} :
  0 ≤ k < 3 →
  wf_CHSV (S_RING_CHASE_COLORS_at k) ∧ val (S_RING_CHASE_COLORS_at k) = 255 ∧
  S_RING_CHASE_COLORS !! Z.to_nat k = Some (S_RING_CHASE_COLORS_at k).
Proof.
  intros Hk. assert (k = 0 ∨ k = 1 ∨ k = 2) as [-> | [-> | ->]] by lia;
    (split; [apply wf_S_RING_CHASE_COLORS_at|split; reflexivity]).
Qed.

(** The falloff of a ring that a pulse has reached. *)
Lemma Halloween_falloff_reached (c : CHSV) (a : Z) :
  wf_CHSV c → 0 ≤ a →
  Halloween.falloff_one (mkCHSV (hue c) (sat c) (Z.max 0 (255 - a))) =
  mkCHSV (hue c) (sat c) (Z.max 0 (255 - (a + 1))).
Proof.
  intros (Hh & Hs & Hv) Ha. rewrite Halloween_falloff_one_eq.
  - cbn [hue sat val]. unfold Halloween.S_RING_CHASE_FALLOF_RATE. f_equal. lia.
  - unfold wf_CHSV, byte_range in *. cbn [hue sat val]. lia.
Qed.

Lemma Halloween_phase_step `{Platform} (m r : Z) rc g :
  0 ≤ m → 0 ≤ r ≤ 399 → Halloween_phase m r rc g →
  Halloween_phase (if decide (r = 399) then m + 1 else m)
                  (if decide (r = 399) then 0 else r + 1)
                  (Halloween.S_RingChase_Update rc g).1
                  (Halloween.S_RingChase_Update rc g).2.
Proof.
  intros Hm Hr (Hlen & Hpt & Hci & H0 & H1).
  assert (0 ≤ (m + 1) `mod` 3 < 3) as Hk by dlia.
  destruct (Halloween_palette _ Hk) as (Hwf & Hval & _).
  assert (S_RING_CHASE_COLORS_at ((m + 1) `mod` 3) =
          mkCHSV (hue (S_RING_CHASE_COLORS_at ((m + 1) `mod` 3)))
                 (sat (S_RING_CHASE_COLORS_at ((m + 1) `mod` 3))) 255) as Hc.
  { revert Hval. generalize (S_RING_CHASE_COLORS_at ((m + 1) `mod` 3)).
    intros [h s v]. cbn [hue sat val]. by intros ->. }
  unfold Halloween.S_RingChase_Update.
  destruct (Halloween_ring_falloff_spec g) as (Hb1 & _ & _); [by rewrite Hlen|].
  revert Hb1. generalize (Halloween.ring_falloff g). intros g1 Hb1.
  assert (length (Halloween.buffer g1) = 80%nat) as Hlen1
    by (by rewrite Hb1, length_fmap).
  (* a ring that the pulse has reached, after the falloff *)
  assert (∀ j i : nat, 1 ≤ r → Z.of_nat j < Halloween.pulseRingIndex rc →
            (i < 10)%nat →
            Halloween.buffer g1 !! (10 * j + i)%nat =
            Some (mkCHSV (hue (S_RING_CHASE_COLORS_at ((m + 1) `mod` 3)))
                         (sat (S_RING_CHASE_COLORS_at ((m + 1) `mod` 3)))
                         (Z.max 0 (255 - (r + 1 - 1 - 17 * Z.of_nat j))))) as Hfade.
  { intros j i Hr1 Hj Hi. destruct (H1 Hr1) as (_ & Hst & _ & Hst16 & Hlook).
    rewrite Hb1, list_lookup_fmap, (Hlook j i Hj Hi).
    cbn [fmap option_fmap option_map]. f_equal.
    rewrite Halloween_falloff_reached by (done || lia). f_equal. lia. }
  destruct (decide (r = 399)) as [->|Hne].
  - (* the pulse timer has run out: a pulse starts *)
    destruct (H1 ltac:(lia)) as (Hri & Hst & Hpos & _ & _).
    assert (Halloween.pulseRingIndex rc = 8) as Hri8 by lia.
    rewrite (Halloween_ring_shift_waits rc g1) by (unfold NUM_STRIPS; lia).
    rewrite Halloween_ring_pulse_fires by (cbn [Halloween.pulseTimer]; lia).
    cbn [fst snd Halloween.pulseColorIndex].
    destruct (Halloween_ring_paint_spec 0
                (S_RING_CHASE_COLORS_at (Halloween.pulseColorIndex rc)) g1)
      as (Hl2 & Hk2 & _); [lia|rewrite Hlen1; unfold Halloween.NUM_STRIP_LEDS; lia|].
    revert Hl2 Hk2.
    generalize (Halloween.ring_paint 0
                  (S_RING_CHASE_COLORS_at (Halloween.pulseColorIndex rc)) g1).
    intros g2 Hl2 Hk2. unfold Halloween_phase.
    cbn [Halloween.pulseTimer Halloween.pulseColorIndex
         Halloween.pulseRingIndex Halloween.pulseRingShiftTimer].
    split; [by rewrite Hl2|]. split; [reflexivity|]. split.
    { rewrite Hci. unfold next_pulse_color, S_RING_CHASE_NUM_PULSE_COLORS.
      destruct (Z.geb_spec ((m + 1) `mod` 3 + 1) 3); dlia. }
    split; [|intros; lia]. intros _. split; [done|]. split; [done|].
    intros i Hi. rewrite Hk2, bool_decide_true
      by (unfold Halloween.NUM_STRIP_LEDS; lia).
    by rewrite Hci.
  - rewrite (surjective_pairing (Halloween.ring_shift (rc, g1))).
    rewrite Halloween_ring_pulse_waits.
    2:{ unfold Halloween.ring_shift. cbn [fst snd Halloween.pulseTimer].
        destruct (_ && _); cbn [fst Halloween.pulseTimer]; lia. }
    cbn [fst snd].
    destruct (decide (r = 0)) as [->|Hr0].
    + (* the pass after the start of the pulse: ring 0 *)
      destruct (H0 eq_refl) as (Hri & Hst & _).
      rewrite Halloween_ring_shift_fires by (unfold NUM_STRIPS; lia).
      cbn [fst snd Halloween.pulseTimer Halloween.pulseColorIndex
           Halloween.pulseRingIndex Halloween.pulseRingShiftTimer].
      rewrite Hri.
      destruct (Halloween_ring_paint_spec (Halloween.GetStrip 0)
                  (S_RING_CHASE_COLORS_at (Halloween.pulseColorIndex rc)) g1)
        as (Hl2 & Hk2 & _);
        [done|rewrite Hlen1; unfold Halloween.NUM_STRIP_LEDS, Halloween.GetStrip; lia|].
      revert Hl2 Hk2.
      generalize (Halloween.ring_paint (Halloween.GetStrip 0)
                    (S_RING_CHASE_COLORS_at (Halloween.pulseColorIndex rc)) g1).
      intros g2 Hl2 Hk2. unfold Halloween_phase.
      cbn [Halloween.pulseTimer Halloween.pulseColorIndex
           Halloween.pulseRingIndex Halloween.pulseRingShiftTimer].
      unfold Halloween.S_RING_CHASE_RING_SHIFT_FREQUENCY.
      split; [by rewrite Hl2|]. split; [lia|]. split; [done|].
      split; [intros; lia|]. intros _.
      split; [lia|]. split; [lia|]. split; [lia|]. split; [lia|].
      intros j i Hj Hi. assert (j = 0%nat) as -> by lia.
      rewrite Hk2, bool_decide_true
        by (unfold Halloween.NUM_STRIP_LEDS, Halloween.GetStrip; lia).
      rewrite Hci. rewrite Hc at 1. do 2 f_equal; lia.
    + destruct (H1 ltac:(lia)) as (Hri & Hst & Hpos & Hst16 & _).
      destruct (decide (Halloween.pulseRingShiftTimer rc ≤ 0 ∧
                        Halloween.pulseRingIndex rc < NUM_STRIPS)) as [[Ha Hb]|Hn].
      * (* the pulse reaches the next ring *)
        rewrite (Halloween_ring_shift_fires rc g1 Ha Hb).
        cbn [fst snd Halloween.pulseTimer Halloween.pulseColorIndex
             Halloween.pulseRingIndex Halloween.pulseRingShiftTimer].
        destruct (Halloween_ring_paint_spec
                    (Halloween.GetStrip (Halloween.pulseRingIndex rc))
                    (S_RING_CHASE_COLORS_at (Halloween.pulseColorIndex rc)) g1)
          as (Hl2 & Hk2 & _).
        { unfold Halloween.GetStrip, Halloween.NUM_STRIP_LEDS. lia. }
        { rewrite Hlen1. unfold Halloween.GetStrip, Halloween.NUM_STRIP_LEDS,
            NUM_STRIPS in *. lia. }
        revert Hl2 Hk2.
        generalize (Halloween.ring_paint
                      (Halloween.GetStrip (Halloween.pulseRingIndex rc))
                      (S_RING_CHASE_COLORS_at (Halloween.pulseColorIndex rc)) g1).
        intros g2 Hl2 Hk2. unfold Halloween_phase.
        cbn [Halloween.pulseTimer Halloween.pulseColorIndex
             Halloween.pulseRingIndex Halloween.pulseRingShiftTimer].
        unfold Halloween.S_RING_CHASE_RING_SHIFT_FREQUENCY, NUM_STRIPS in *.
        split; [by rewrite Hl2|]. split; [lia|]. split; [done|].
        split; [intros; lia|]. intros _.
        split; [lia|]. split; [lia|]. split; [lia|]. split; [lia|].
        intros j i Hj Hi. rewrite Hk2.
        unfold Halloween.GetStrip, Halloween.NUM_STRIP_LEDS.
        case_bool_decide as Hin.
        -- assert (Z.of_nat j = Halloween.pulseRingIndex rc) as Hj' by lia.
           rewrite Hci. rewrite Hc at 1. do 2 f_equal; lia.
        -- apply Hfade; lia.
      * (* the pulse waits, or has passed the last ring *)
        rewrite (Halloween_ring_shift_waits rc g1) by lia.
        cbn [fst snd Halloween.pulseTimer Halloween.pulseColorIndex
             Halloween.pulseRingIndex Halloween.pulseRingShiftTimer].
        unfold Halloween_phase.
        cbn [Halloween.pulseTimer Halloween.pulseColorIndex
             Halloween.pulseRingIndex Halloween.pulseRingShiftTimer].
        unfold NUM_STRIPS in *.
        split; [done|]. split; [lia|]. split; [done|].
        split; [intros; lia|]. intros _.
        split; [lia|]. split; [lia|]. split; [lia|]. split; [lia|].
        intros j i Hj Hi. apply Hfade; (done || lia).
Qed.

(** ** [loop] *)

Lemma Halloween_flush_buffer `{Platform} g :
  Halloween.buffer (Halloween.flush g) = Halloween.buffer g ∧
  Halloween.stores (Halloween.flush g) = Halloween.stores g ∧
  length (Halloween.leds (Halloween.flush g)) = length (Halloween.leds g).
Proof.
  unfold Halloween.flush.
  generalize (Z.to_nat (Halloween.NUM_STRIP_LEDS * NUM_STRIPS)). intros n.
  induction n as [|n (IHb & IHs & IHl)]; cbn [for_upto]; [done|].
  cbn [Halloween.buffer Halloween.stores Halloween.leds].
  by rewrite length_array_set.
Qed.

Lemma Halloween_loop_eq `{Platform} p :
  Halloween.ledSequence p = 0 →
  Halloween.loop p =
  Halloween.mkProgram
    (Halloween.flush
       (Halloween.S_RingChase_Update (Halloween.ringChase p)
          (Halloween.globals p)).2)
    (Halloween.S_RingChase_Update (Halloween.ringChase p) (Halloween.globals p)).1
    (Halloween.ledSequence p).
Proof.
  intros Hk. unfold Halloween.loop, Halloween.update. by rewrite Hk.
Qed.

Lemma Halloween_run_S `{Platform} n :
  Halloween.run (S n) = Halloween.loop (Halloween.run n).
Proof. reflexivity. Qed.

Lemma Halloween_run_inv `{Platform} (n : nat) :
  let p := Halloween.run n in
  let g := Halloween.globals p in
  Halloween.ledSequence p = 0 ∧
  length (Halloween.leds g) = Z.to_nat (Halloween.NUM_STRIP_LEDS * NUM_STRIPS) ∧
  length (Halloween.buffer g) = Z.to_nat (Halloween.NUM_STRIP_LEDS * NUM_STRIPS) ∧
  Forall wf_CHSV (Halloween.buffer g) ∧
  0 ≤ Halloween.pulseRingIndex (Halloween.ringChase p) ≤ NUM_STRIPS ∧
  0 ≤ Halloween.pulseColorIndex (Halloween.ringChase p)
    < S_RING_CHASE_NUM_PULSE_COLORS ∧
  Forall Halloween_in_range (Halloween.stores g) ∧
  ((0 < n)%nat → Halloween.leds g = CRGB_of_CHSV <$> Halloween.buffer g).
Proof.
  cbn zeta. induction n as [|n IH].
  - split; [reflexivity|]. split; [reflexivity|]. split; [reflexivity|].
    split.
    { apply Forall_replicate. unfold wf_CHSV, byte_range. cbn. lia. }
    split; [cbn; unfold NUM_STRIPS; lia|].
    split; [cbn; unfold S_RING_CHASE_NUM_PULSE_COLORS; lia|].
    split; [apply Forall_nil_2|]. intros; lia.
  - rewrite Halloween_run_S.
    destruct IH as (Hk & Hll & Hlb & Hwf & Hri & Hci & Hst & _).
    revert Hk Hll Hlb Hwf Hri Hci Hst. generalize (Halloween.run n).
    intros p Hk Hll Hlb Hwf Hri Hci Hst.
    rewrite (Halloween_loop_eq p Hk).
    cbn [Halloween.ledSequence Halloween.ringChase Halloween.globals].
    pose proof (Halloween_Update_ok (Halloween.ringChase p) (Halloween.globals p)
                  Hlb Hwf Hri Hci) as Hu. cbn zeta in Hu. revert Hu.
    generalize (Halloween.S_RingChase_Update (Halloween.ringChase p)
                  (Halloween.globals p)).
    intros s ((l & Hs & Hin) & Hlb' & Hwf' & Hri' & Hci' & _ & Hleds).
    destruct (Halloween_flush_buffer s.2) as (Hfb & Hfs & Hfl).
    destruct (Halloween_flush_spec s.2 Hlb') as (Hfleds & _ & _);
      [by rewrite Hleds|].
    revert Hfb Hfs Hfl Hfleds. generalize (Halloween.flush s.2).
    intros g' Hfb Hfs Hfl Hfleds.
    split; [exact Hk|]. split; [by rewrite Hfl, Hleds|].
    split; [by rewrite Hfb|]. split; [by rewrite Hfb|].
    split; [exact Hri'|]. split; [exact Hci'|]. split.
    { rewrite Hfs, Hs. apply Forall_app. by split. }
    intros _. by rewrite Hfb.
Qed.

Lemma Halloween_run_phase `{Platform} (q : nat) :
  Halloween_phase (Z.of_nat q / 400) (Z.of_nat q `mod` 400)
    (Halloween.ringChase (Halloween.run (S q)))
    (Halloween.globals (Halloween.run (S q))).
Proof.
  induction q as [|q IH].
  - change (Z.of_nat 0 / 400) with 0. change (Z.of_nat 0 `mod` 400) with 0.
    unfold Halloween_phase.
    split; [reflexivity|]. split; [reflexivity|]. split; [reflexivity|].
    split; [|intros; lia]. intros _. split; [reflexivity|]. split; [reflexivity|].
    intros i Hi. do 10 (destruct i as [|i]; [reflexivity|]). lia.
  - rewrite Halloween_run_S.
    destruct (Halloween_run_inv (S q)) as (Hk & _).
    revert IH Hk. generalize (Halloween.run (S q)). intros p IH Hk.
    rewrite (Halloween_loop_eq p Hk).
    cbn [Halloween.ringChase Halloween.globals].
    pose proof (Halloween_phase_step (Z.of_nat q / 400) (Z.of_nat q `mod` 400)
                  (Halloween.ringChase p) (Halloween.globals p)
                  ltac:(dlia) ltac:(dlia) IH) as Hstep.
    revert Hstep.
    generalize (Halloween.S_RingChase_Update (Halloween.ringChase p)
                  (Halloween.globals p)).
    intros s Hstep.
    destruct (Halloween_flush_buffer s.2) as (Hfb & _ & _).
    revert Hfb. generalize (Halloween.flush s.2). intros g' Hfb.
    assert (Z.of_nat (S q) / 400 =
            (if decide (Z.of_nat q `mod` 400 = 399) then Z.of_nat q / 400 + 1
             else Z.of_nat q / 400)) as -> by (case_decide; dlia).
    assert (Z.of_nat (S q) `mod` 400 =
            (if decide (Z.of_nat q `mod` 400 = 399) then 0
             else Z.of_nat q `mod` 400 + 1)) as -> by (case_decide; dlia).
    revert Hstep. unfold Halloween_phase. by rewrite Hfb.
Qed.

(** X17: [HalloweenLights.ino].  From a state with [buffer] at its size,
    holding bytes, the ring index in [0, 8] and the colour index in [0, 2],
    [Update] stores inside [buffer] only, reads the palette inside its three
    entries, keeps the state so and leaves [leds] alone.  In the program
    this holds of every store ever made; after every pass of [loop], [leds]
    is the conversion of [buffer]; the pulse timer stays in [0, 399] and
    the ring shift timer in [-399, 16]. *)
Theorem Halloween_buffer_stores_stay_inside `{Platform}
    (rc : Halloween.S_RingChase) (g : Halloween.Globals) (n : nat) :
  length (Halloween.buffer g) = Z.to_nat (Halloween.NUM_STRIP_LEDS * NUM_STRIPS) →
  Forall wf_CHSV (Halloween.buffer g) →
  0 ≤ Halloween.pulseRingIndex rc ≤ NUM_STRIPS →
  0 ≤ Halloween.pulseColorIndex rc < S_RING_CHASE_NUM_PULSE_COLORS →
  (let s := Halloween.S_RingChase_Update rc g in
   (∃ l, Halloween.stores s.2 = l ++ Halloween.stores g ∧
         Forall Halloween_in_range l) ∧
   length (Halloween.buffer s.2) = Z.to_nat (Halloween.NUM_STRIP_LEDS * NUM_STRIPS) ∧
   Forall wf_CHSV (Halloween.buffer s.2) ∧
   0 ≤ Halloween.pulseRingIndex s.1 ≤ NUM_STRIPS ∧
   0 ≤ Halloween.pulseColorIndex s.1 < S_RING_CHASE_NUM_PULSE_COLORS ∧
   S_RING_CHASE_COLORS !! Z.to_nat (Halloween.pulseColorIndex rc) =
     Some (S_RING_CHASE_COLORS_at (Halloween.pulseColorIndex rc)) ∧
   Halloween.leds s.2 = Halloween.leds g) ∧
  (let p := Halloween.run n in
   Forall Halloween_in_range (Halloween.stores (Halloween.globals p)) ∧
   length (Halloween.buffer (Halloween.globals p)) =
     Z.to_nat (Halloween.NUM_STRIP_LEDS * NUM_STRIPS) ∧
   Forall wf_CHSV (Halloween.buffer (Halloween.globals p)) ∧
   length (Halloween.leds (Halloween.globals p)) =
     Z.to_nat (Halloween.NUM_STRIP_LEDS * NUM_STRIPS) ∧
   ((0 < n)%nat →
    Halloween.leds (Halloween.globals p) =
    CRGB_of_CHSV <$> Halloween.buffer (Halloween.globals p)) ∧
   Halloween.ledSequence p = 0 ∧
   0 ≤ Halloween.pulseTimer (Halloween.ringChase p)
     < Halloween.S_RING_CHASE_PULSE_FREQUENCY ∧
   - Halloween.S_RING_CHASE_PULSE_FREQUENCY
     < Halloween.pulseRingShiftTimer (Halloween.ringChase p)
     < Halloween.S_RING_CHASE_RING_SHIFT_FREQUENCY ∧
   0 ≤ Halloween.pulseRingIndex (Halloween.ringChase p) ≤ NUM_STRIPS ∧
   0 ≤ Halloween.pulseColorIndex (Halloween.ringChase p)
     < S_RING_CHASE_NUM_PULSE_COLORS).
Proof.
  intros Hlen Hwf Hri Hci.
  split; [exact (Halloween_Update_ok rc g Hlen Hwf Hri Hci)|]. cbn zeta.
  destruct (Halloween_run_inv n) as (Hk & Hll & Hlb & Hwfb & Hri' & Hci' & Hst & Hfl).
  split; [exact Hst|]. split; [exact Hlb|]. split; [exact Hwfb|].
  split; [exact Hll|]. split; [exact Hfl|]. split; [exact Hk|].
  assert (0 ≤ Halloween.pulseTimer (Halloween.ringChase (Halloween.run n))
            < Halloween.S_RING_CHASE_PULSE_FREQUENCY ∧
          - Halloween.S_RING_CHASE_PULSE_FREQUENCY
            < Halloween.pulseRingShiftTimer (Halloween.ringChase (Halloween.run n))
            < Halloween.S_RING_CHASE_RING_SHIFT_FREQUENCY) as [Hpt Hsh].
  { unfold Halloween.S_RING_CHASE_PULSE_FREQUENCY,
      Halloween.S_RING_CHASE_RING_SHIFT_FREQUENCY.
    destruct n as [|q]; [cbn; lia|].
    destruct (Halloween_run_phase q) as (_ & Hpt & _ & H0 & H1).
    revert Hpt H0 H1. generalize (Halloween.ringChase (Halloween.run (S q))).
    intros rc' Hpt H0 H1.
    assert (0 ≤ Z.of_nat q `mod` 400 < 400) as Hr by dlia.
    revert Hr Hpt H0 H1. generalize (Z.of_nat q `mod` 400). intros r Hr Hpt H0 H1.
    destruct (decide (r = 0)) as [->|Hr0].
    - destruct (H0 eq_refl) as (_ & -> & _). lia.
    - destruct (H1 ltac:(lia)) as (? & ? & ? & ? & _). lia. }
  split; [exact Hpt|]. split; [exact Hsh|]. split; [exact Hri'|exact Hci'].
Qed.

Lemma Halloween_buffer_stores_stay_inside_witness :
  let H := bench in
  let rc := Halloween.S_RingChase_new in
  let g := Halloween.globals Halloween.power_on in
  (length (Halloween.buffer g) = Z.to_nat (Halloween.NUM_STRIP_LEDS * NUM_STRIPS) ∧
   Forall wf_CHSV (Halloween.buffer g) ∧
   0 ≤ Halloween.pulseRingIndex rc ≤ NUM_STRIPS ∧
   0 ≤ Halloween.pulseColorIndex rc < S_RING_CHASE_NUM_PULSE_COLORS) ∧
  (let s := Halloween.S_RingChase_Update rc g in
   (∃ l, Halloween.stores s.2 = l ++ Halloween.stores g ∧
         Forall Halloween_in_range l) ∧
   length (Halloween.buffer s.2) = Z.to_nat (Halloween.NUM_STRIP_LEDS * NUM_STRIPS) ∧
   Forall wf_CHSV (Halloween.buffer s.2) ∧
   0 ≤ Halloween.pulseRingIndex s.1 ≤ NUM_STRIPS ∧
   0 ≤ Halloween.pulseColorIndex s.1 < S_RING_CHASE_NUM_PULSE_COLORS ∧
   S_RING_CHASE_COLORS !! Z.to_nat (Halloween.pulseColorIndex rc) =
     Some (S_RING_CHASE_COLORS_at (Halloween.pulseColorIndex rc)) ∧
   Halloween.leds s.2 = Halloween.leds g) ∧
  (let p := Halloween.run 3 in
   Forall Halloween_in_range (Halloween.stores (Halloween.globals p)) ∧
   length (Halloween.buffer (Halloween.globals p)) =
     Z.to_nat (Halloween.NUM_STRIP_LEDS * NUM_STRIPS) ∧
   Forall wf_CHSV (Halloween.buffer (Halloween.globals p)) ∧
   length (Halloween.leds (Halloween.globals p)) =
     Z.to_nat (Halloween.NUM_STRIP_LEDS * NUM_STRIPS) ∧
   ((0 < 3)%nat →
    Halloween.leds (Halloween.globals p) =
    CRGB_of_CHSV <$> Halloween.buffer (Halloween.globals p)) ∧
   Halloween.ledSequence p = 0 ∧
   0 ≤ Halloween.pulseTimer (Halloween.ringChase p)
     < Halloween.S_RING_CHASE_PULSE_FREQUENCY ∧
   - Halloween.S_RING_CHASE_PULSE_FREQUENCY
     < Halloween.pulseRingShiftTimer (Halloween.ringChase p)
     < Halloween.S_RING_CHASE_RING_SHIFT_FREQUENCY ∧
   0 ≤ Halloween.pulseRingIndex (Halloween.ringChase p) ≤ NUM_STRIPS ∧
   0 ≤ Halloween.pulseColorIndex (Halloween.ringChase p)
     < S_RING_CHASE_NUM_PULSE_COLORS).
Proof.
  intros H rc g.
  assert (length (Halloween.buffer g) =
          Z.to_nat (Halloween.NUM_STRIP_LEDS * NUM_STRIPS)) as H1 by reflexivity.
  assert (Forall wf_CHSV (Halloween.buffer g)) as H2.
  { apply Forall_replicate. unfold wf_CHSV, byte_range. cbn. lia. }
  assert (0 ≤ Halloween.pulseRingIndex rc ≤ NUM_STRIPS) as H3
    by (cbn; unfold NUM_STRIPS; lia).
  assert (0 ≤ Halloween.pulseColorIndex rc < S_RING_CHASE_NUM_PULSE_COLORS) as H4
    by (cbn; unfold S_RING_CHASE_NUM_PULSE_COLORS; lia).
  split; [exact (conj H1 (conj H2 (conj H3 H4)))|].
  exact (@Halloween_buffer_stores_stay_inside bench rc g 3%nat H1 H2 H3 H4).
Defined.

(** X18: [HalloweenLights.ino].  Pass [q + 1] of [loop] is [r = q mod 400]
    passes after the start of pulse number [m = q / 400], whose colour is
    palette entry [(m + 1) mod 3].  The pulse reaches ring [j] on the pass
    [1 + 17 j] after its start; from then on, until the next pulse starts,
    every LED of the ring has that hue and saturation and a value that
    falls by 1 per pass from 255 down to 0, in [buffer] and, converted, in
    [leds]. *)
Theorem Halloween_pulse_travels `{Platform} (q j i : nat) :
  Z.of_nat j < NUM_STRIPS → Z.of_nat i < Halloween.NUM_STRIP_LEDS →
  let p := Halloween.run (S q) in
  let m := Z.of_nat q / Halloween.S_RING_CHASE_PULSE_FREQUENCY in
  let r := Z.of_nat q `mod` Halloween.S_RING_CHASE_PULSE_FREQUENCY in
  let c := S_RING_CHASE_COLORS_at ((m + 1) `mod` S_RING_CHASE_NUM_PULSE_COLORS) in
  let k := Z.to_nat (Halloween.GetStrip (Z.of_nat j) + Z.of_nat i) in
  let reached := 1 + Halloween.S_RING_CHASE_RING_SHIFT_FREQUENCY * Z.of_nat j in
  Halloween.pulseTimer (Halloween.ringChase p) =
    Halloween.S_RING_CHASE_PULSE_FREQUENCY - 1 - r ∧
  Halloween.pulseColorIndex (Halloween.ringChase p) =
    (m + 1) `mod` S_RING_CHASE_NUM_PULSE_COLORS ∧
  S_RING_CHASE_COLORS
    !! Z.to_nat ((m + 1) `mod` S_RING_CHASE_NUM_PULSE_COLORS) = Some c ∧
  (reached ≤ r →
   Halloween.buffer (Halloween.globals p) !! k =
     Some (mkCHSV (hue c) (sat c)
             (Z.max 0 (255 - Halloween.S_RING_CHASE_FALLOF_RATE * (r - reached)))) ∧
   Halloween.leds (Halloween.globals p) !! k =
     Some (CRGB_of_CHSV
             (mkCHSV (hue c) (sat c)
                (Z.max 0 (255 - Halloween.S_RING_CHASE_FALLOF_RATE * (r - reached)))))).
Proof.
  unfold NUM_STRIPS, Halloween.NUM_STRIP_LEDS, Halloween.GetStrip,
    Halloween.S_RING_CHASE_PULSE_FREQUENCY, S_RING_CHASE_NUM_PULSE_COLORS,
    Halloween.S_RING_CHASE_RING_SHIFT_FREQUENCY, Halloween.S_RING_CHASE_FALLOF_RATE.
  intros Hj Hi. cbn zeta.
  destruct (Halloween_run_phase q) as (_ & Hpt & Hci & _ & H1).
  destruct (Halloween_run_inv (S q)) as (_ & _ & _ & _ & _ & _ & _ & Hleds).
  specialize (Hleds ltac:(lia)).
  revert Hpt Hci H1 Hleds. generalize (Halloween.run (S q)).
  intros p Hpt Hci H1 Hleds.
  assert (0 ≤ (Z.of_nat q / 400 + 1) `mod` 3 < 3) as Hk by dlia.
  destruct (Halloween_palette _ Hk) as (_ & _ & Hpal).
  split; [lia|]. split; [exact Hci|]. split; [exact Hpal|].
  intros Hr. destruct (H1 ltac:(lia)) as (Hri & Hst & Hpos & _ & Hlook).
  assert (Halloween.buffer (Halloween.globals p)
            !! Z.to_nat (Z.of_nat j * 10 + Z.of_nat i) =
          Some (mkCHSV
                  (hue (S_RING_CHASE_COLORS_at ((Z.of_nat q / 400 + 1) `mod` 3)))
                  (sat (S_RING_CHASE_COLORS_at ((Z.of_nat q / 400 + 1) `mod` 3)))
                  (Z.max 0 (255 - 1 * (Z.of_nat q `mod` 400 - (1 + 17 * Z.of_nat j))))))
    as Hb.
  { replace (Z.to_nat (Z.of_nat j * 10 + Z.of_nat i)) with (10 * j + i)%nat by lia.
    rewrite (Hlook j i) by lia. do 3 f_equal. lia. }
  split; [exact Hb|]. rewrite Hleds, list_lookup_fmap.
  exact (f_equal (fmap (M:=option) CRGB_of_CHSV) Hb).
Qed.

Lemma Halloween_pulse_travels_witness :
  let H := bench in
  (Z.of_nat 3 < NUM_STRIPS ∧ Z.of_nat 9 < Halloween.NUM_STRIP_LEDS) ∧
  let p := Halloween.run (S 460) in
  let m := Z.of_nat 460 / Halloween.S_RING_CHASE_PULSE_FREQUENCY in
  let r := Z.of_nat 460 `mod` Halloween.S_RING_CHASE_PULSE_FREQUENCY in
  let c := S_RING_CHASE_COLORS_at ((m + 1) `mod` S_RING_CHASE_NUM_PULSE_COLORS) in
  let k := Z.to_nat (Halloween.GetStrip (Z.of_nat 3) + Z.of_nat 9) in
  let reached := 1 + Halloween.S_RING_CHASE_RING_SHIFT_FREQUENCY * Z.of_nat 3 in
  Halloween.pulseTimer (Halloween.ringChase p) =
    Halloween.S_RING_CHASE_PULSE_FREQUENCY - 1 - r ∧
  Halloween.pulseColorIndex (Halloween.ringChase p) =
    (m + 1) `mod` S_RING_CHASE_NUM_PULSE_COLORS ∧
  S_RING_CHASE_COLORS
    !! Z.to_nat ((m + 1) `mod` S_RING_CHASE_NUM_PULSE_COLORS) = Some c ∧
  (reached ≤ r →
   Halloween.buffer (Halloween.globals p) !! k =
     Some (mkCHSV (hue c) (sat c)
             (Z.max 0 (255 - Halloween.S_RING_CHASE_FALLOF_RATE * (r - reached)))) ∧
   Halloween.leds (Halloween.globals p) !! k =
     Some (CRGB_of_CHSV
             (mkCHSV (hue c) (sat c)
                (Z.max 0 (255 - Halloween.S_RING_CHASE_FALLOF_RATE * (r - reached)))))).
Proof.
  intros H.
  assert (Z.of_nat 3 < NUM_STRIPS) as H1 by (unfold NUM_STRIPS; lia).
  assert (Z.of_nat 9 < Halloween.NUM_STRIP_LEDS) as H2
    by (unfold Halloween.NUM_STRIP_LEDS; lia).
  split; [exact (conj H1 H2)|].
  exact (@Halloween_pulse_travels bench 460%nat 3%nat 9%nat H1 H2).
Defined.

(** X19: [HalloweenLights.ino].  The pass that starts a pulse (pass
    [400 m + 1]) paints ring 0 before it advances the colour index: ring 0
    shows the colour of the pulse before (palette entry [m mod 3]; entry 0
    for the first pulse) at full value for this one pass; on the next pass
    it is painted again, with the colour of the new pulse, entry
    [(m + 1) mod 3], which has another hue. *)
Theorem Halloween_pulse_starts_in_the_old_colour `{Platform} (m i : nat) :
  Z.of_nat i < Halloween.NUM_STRIP_LEDS →
  let start := (Z.to_nat Halloween.S_RING_CHASE_PULSE_FREQUENCY * m + 1)%nat in
  let old := S_RING_CHASE_COLORS_at (Z.of_nat m `mod` S_RING_CHASE_NUM_PULSE_COLORS) in
  let new :=
    S_RING_CHASE_COLORS_at ((Z.of_nat m + 1) `mod` S_RING_CHASE_NUM_PULSE_COLORS) in
  Halloween.pulseTimer (Halloween.ringChase (Halloween.run start)) =
    Halloween.S_RING_CHASE_PULSE_FREQUENCY - 1 ∧
  Halloween.pulseColorIndex (Halloween.ringChase (Halloween.run start)) =
    (Z.of_nat m + 1) `mod` S_RING_CHASE_NUM_PULSE_COLORS ∧
  Halloween.buffer (Halloween.globals (Halloween.run start)) !! i = Some old ∧
  Halloween.buffer (Halloween.globals (Halloween.run (S start))) !! i = Some new ∧
  hue old ≠ hue new ∧ val old = 255 ∧ val new = 255.
Proof.
  unfold Halloween.NUM_STRIP_LEDS, Halloween.S_RING_CHASE_PULSE_FREQUENCY,
    S_RING_CHASE_NUM_PULSE_COLORS.
  intros Hi. cbn zeta.
  replace (Z.to_nat 400 * m + 1)%nat with (S (400 * m)) by lia.
  pose proof (Halloween_run_phase (400 * m)) as (_ & Hpt & Hci & H0 & _).
  pose proof (Halloween_run_phase (S (400 * m))) as (_ & _ & _ & _ & H1).
  assert (Z.of_nat (400 * m) / 400 = Z.of_nat m) as Em by dlia.
  assert (Z.of_nat (400 * m) `mod` 400 = 0) as Er by dlia.
  assert (Z.of_nat (S (400 * m)) / 400 = Z.of_nat m) as Em' by dlia.
  assert (Z.of_nat (S (400 * m)) `mod` 400 = 1) as Er' by dlia.
  rewrite Er in Hpt. rewrite Em in Hci. rewrite Em, Er in H0.
  rewrite Em', Er' in H1.
  clear Em Er Em' Er'.
  revert Hpt Hci H0. generalize (Halloween.run (S (400 * m))).
  intros p Hpt Hci H0. revert H1. generalize (Halloween.run (S (S (400 * m)))).
  intros p' H1.
  destruct (H0 eq_refl) as (_ & _ & Hold).
  destruct (H1 ltac:(lia)) as (Hri & _ & _ & _ & Hnew).
  assert (0 ≤ Z.of_nat m `mod` 3 < 3) as Hk by dlia.
  assert (0 ≤ (Z.of_nat m + 1) `mod` 3 < 3) as Hk' by dlia.
  destruct (Halloween_palette _ Hk) as (_ & Hv & _).
  destruct (Halloween_palette _ Hk') as (_ & Hv' & _).
  split; [lia|]. split; [exact Hci|]. split; [apply Hold; lia|]. split.
  { specialize (Hnew 0%nat i ltac:(lia) ltac:(lia)).
    replace (10 * 0 + i)%nat with i in Hnew by lia. rewrite Hnew. f_equal.
    revert Hv'. generalize (S_RING_CHASE_COLORS_at ((Z.of_nat m + 1) `mod` 3)).
    intros [h s v]. cbn [hue sat val]. intros ->. f_equal. }
  split; [|by split].
  assert ((Z.of_nat m) `mod` 3 = 0 ∧ (Z.of_nat m + 1) `mod` 3 = 1 ∨
          (Z.of_nat m) `mod` 3 = 1 ∧ (Z.of_nat m + 1) `mod` 3 = 2 ∨
          (Z.of_nat m) `mod` 3 = 2 ∧ (Z.of_nat m + 1) `mod` 3 = 0)
    as [[-> ->] | [[-> ->] | [-> ->]]] by dlia; discriminate.
Qed.

Lemma Halloween_pulse_starts_in_the_old_colour_witness :
  let H := bench in
  Z.of_nat 4 < Halloween.NUM_STRIP_LEDS ∧
  let start := (Z.to_nat Halloween.S_RING_CHASE_PULSE_FREQUENCY * 2 + 1)%nat in
  let old := S_RING_CHASE_COLORS_at (Z.of_nat 2 `mod` S_RING_CHASE_NUM_PULSE_COLORS) in
  let new :=
    S_RING_CHASE_COLORS_at ((Z.of_nat 2 + 1) `mod` S_RING_CHASE_NUM_PULSE_COLORS) in
  Halloween.pulseTimer (Halloween.ringChase (Halloween.run start)) =
    Halloween.S_RING_CHASE_PULSE_FREQUENCY - 1 ∧
  Halloween.pulseColorIndex (Halloween.ringChase (Halloween.run start)) =
    (Z.of_nat 2 + 1) `mod` S_RING_CHASE_NUM_PULSE_COLORS ∧
  Halloween.buffer (Halloween.globals (Halloween.run start)) !! 4%nat = Some old ∧
  Halloween.buffer (Halloween.globals (Halloween.run (S start))) !! 4%nat = Some new ∧
  hue old ≠ hue new ∧ val old = 255 ∧ val new = 255.
Proof.
  intros H.
  assert (Z.of_nat 4 < Halloween.NUM_STRIP_LEDS) as H1
    by (unfold Halloween.NUM_STRIP_LEDS; lia).
  split; [exact H1|].
  exact (@Halloween_pulse_starts_in_the_old_colour bench 2%nat 4%nat H1).
Defined.
